(** * Rattle: a template compiler that lowers templates to Python syntax trees

    The development embeds
    - [rattle/utils/parser.py]: the tag argument splitter, [ParserState] and
      the [build_*] helpers that construct Python [ast] nodes;
    - [rattle/parser.py]: the expression grammar [pg] with its precedence
      table and its productions;
    - [rattle/parser/structure.py]: the productions of the structure grammar;
    together with an evaluator for the fragment of Python that the
    productions generate (generator functions made of [yield], [if],
    [for ... else], [yield from], classes with single inheritance). *)

From stdpp Require Import base strings list gmap pretty.
From Stdlib Require Import ZArith Lia Ascii String.

Set Warnings "-register-all".

Open Scope string_scope.
Open Scope list_scope.
Open Scope Z_scope.

(** ** Errors and the error monad *)

(** The [ValueError]s raised by the repository, by the place that raises
    them; [Unpack] is the one Python raises when a tuple assignment such as
    [target, in_, var = ...] meets a list of another length, and
    [InvalidLiteral] the one of [int] on a text that is no number. *)
Inductive value_error :=
  | ClosingUnopenParen (s : string)
  | UnclosedDoubleQuote (s : string)
  | UnclosedSingleQuote (s : string)
  | UnclosedParen (still_open : Z) (s : string)
  | UnusedEscaping (s : string)
  | InExpected
  | UnexpectedToken
  | InvalidLiteral (s : string)
  | Unpack.

Inductive exn :=
  | ValueError (e : value_error)
  | DuplicateBlockError (name : string)
  | IOError (filename : string)
  | RecursionError
  | LexingError
  | NameError (id : string)
  | KeyError (key : string)
  | IndexError
  | AttributeError (attr : string)
  | TypeError
  | ZeroDivisionError
  | Unmodelled.

Inductive res (A : Type) :=
  | Ok (a : A)
  | Err (e : exn).
Arguments Ok {A} a.
Arguments Err {A} e.

Definition rbind {A B} (m : res A) (f : A -> res B) : res B :=
  match m with
  | Ok a => f a
  | Err e => Err e
  end.

#[global] Instance res_bind : MBind res := fun A B f m => rbind m f.
#[global] Instance res_ret : MRet res := @Ok.

(** ** The tag argument splitter ([split_tag_args_string]) *)

Module Splitter.

Definition dquote : ascii := "034"%char.
Definition squote_c : ascii := "'"%char.
Definition backslash : ascii := "\"%char.
Definition lparen : ascii := "("%char.
Definition rparen : ascii := ")"%char.
Definition space : ascii := " "%char.

(** The local variables of the loop. *)
Record st := mk_st {
  args : list string;
  current : list ascii;
  escaped : bool;
  quote : bool;
  squote : bool;
  parens : Z
}.

Definition init : st := mk_st [] [] false false false 0.

Definition is_quote (c : ascii) : bool :=
  bool_decide (c = dquote) || bool_decide (c = squote_c).

(** [current[0] == current[-1]] and [current[0]] is one of the two quote
    characters. *)
Definition wrapped (cur : list ascii) : bool :=
  match cur, last cur with
  | c0 :: _, Some cl => bool_decide (c0 = cl) && is_quote c0
  | _, _ => false
  end.

(** [current[1:-1]]. *)
Definition strip_ends (cur : list ascii) : list ascii := removelast (tl cur).

(** The string joined from [current], after the quotes that wrap it are
    stripped. *)
Definition emit (cur : list ascii) : string :=
  string_of_list_ascii (if wrapped cur then strip_ends cur else cur).

Definition push (c : ascii) (s : st) : st :=
  mk_st (args s) (current s ++ [c]) (escaped s) (quote s) (squote s) (parens s).

(** One iteration of [for c in s]; [src] is the whole input, quoted by the
    error message. *)
Definition step (src : string) (s : st) (c : ascii) : res st :=
  if escaped s then
    Ok (mk_st (args s) (current s ++ [backslash; c]) false
              (quote s) (squote s) (parens s))
  else if bool_decide (c = dquote) then
    Ok (push c (if squote s then s
                else mk_st (args s) (current s) (escaped s)
                           (negb (quote s)) (squote s) (parens s)))
  else if bool_decide (c = squote_c) then
    Ok (push c (if quote s then s
                else mk_st (args s) (current s) (escaped s)
                           (quote s) (negb (squote s)) (parens s)))
  else if bool_decide (c = lparen) then
    Ok (push c (if negb (quote s) && negb (squote s)
                then mk_st (args s) (current s) (escaped s)
                           (quote s) (squote s) (parens s + 1)
                else s))
  else if bool_decide (c = rparen) then
    if negb (quote s) && negb (squote s) then
      if parens s <=? 0 then Err (ValueError (ClosingUnopenParen src))
      else Ok (push c (mk_st (args s) (current s) (escaped s)
                             (quote s) (squote s) (parens s - 1)))
    else Ok (push c s)
  else if bool_decide (c = backslash) then
    Ok (mk_st (args s) (current s) true (quote s) (squote s) (parens s))
  else if bool_decide (c = space) then
    if negb (quote s) && negb (squote s) && (parens s =? 0) then
      match current s with
      | [] => Ok s
      | _ :: _ =>
          Ok (mk_st (args s ++ [emit (current s)]) [] (escaped s)
                    (quote s) (squote s) (parens s))
      end
    else Ok (push c s)
  else Ok (push c s).

Fixpoint loop (src : string) (cs : list ascii) (s : st) : res st :=
  match cs with
  | [] => Ok s
  | c :: cs' => s' ← step src s c; loop src cs' s'
  end.

(** The code after the loop. In the [else] branch the four tests are not
    exclusive and the first that holds raises. *)
Definition finish (src : string) (s : st) : res (list string) :=
  if negb (escaped s) && negb (quote s) && negb (squote s) && (parens s =? 0)
  then
    match current s with
    | [] => Ok (args s)
    | _ :: _ => Ok (args s ++ [emit (current s)])
    end
  else if quote s then Err (ValueError (UnclosedDoubleQuote src))
  else if squote s then Err (ValueError (UnclosedSingleQuote src))
  else if 0 <? parens s then Err (ValueError (UnclosedParen (parens s) src))
  else if escaped s then Err (ValueError (UnusedEscaping src))
  else Ok (args s).

Definition split_tag_args_string (s : string) : res (list string) :=
  s' ← loop s (list_ascii_of_string s) init; finish s s'.

(** A string between two double quotes. *)
Definition quoted (s : string) : string :=
  String dquote (s +:+ String dquote EmptyString).

End Splitter.

Import Splitter.

(** ** The Python syntax trees that the productions build *)

(** The operator classes of [_binop_mapping] and [_cmpop_mapping]. *)
Inductive operator := Add | Sub | Mult | Div | Mod.
Inductive cmpop := Eq | NotEq | Lt | LtE | Gt | GtE | In | NotIn | IsNot | Is.

(** [ast.Num] holds an [int] or a [float]; a float literal is kept as its
    text, floating point arithmetic is outside this model. *)
Inductive num :=
  | NInt (n : Z)
  | NFloat (literal : string).

(** The expression nodes. Source positions ([update_source_pos]) and the
    [ctx] fields are left out: [Load] everywhere except in the target of a
    [For], which is told by its place. *)
Inductive expr :=
  | Num (n : num)
  | Str (s : string)
  | Name (id : string)
  | Subscript (value : expr) (index : expr)
  | Attribute (value : expr) (attr : string)
  | BinOp (left : expr) (op : operator) (right : expr)
  | Compare (left : expr) (op : cmpop) (comparator : expr)
  | Call (func : expr) (args : list expr) (keywords : list (string * expr))
  | PyList (elts : list expr).

(** The statement nodes: [Yield e] is [ast.Expr(ast.Yield(e))] and
    [YieldFrom e] is [ast.Expr(ast.YieldFrom(e))]. *)
Inductive stmt :=
  | Yield (value : expr)
  | YieldFrom (value : expr)
  | If (test : expr) (body : list stmt) (orelse : list stmt)
  | For (target : expr) (iter : expr) (body : list stmt) (orelse : list stmt)
  | Pass.

Record FunctionDef := mk_FunctionDef {
  fn_name : string;
  fn_body : list stmt
}.

(** A class body holds [ast.Pass] nodes and function definitions. *)
Inductive class_item :=
  | CPass
  | CDef (f : FunctionDef).

Record ClassDef := mk_ClassDef {
  cls_name : string;
  cls_bases : list string;
  cls_body : list class_item
}.

(** *** The node builders of [rattle/utils/parser.py] *)

Definition build_call (func : expr) (args : list expr)
    (kwargs : list (string * expr)) : expr :=
  Call func args kwargs.

Definition build_yield (value : expr) : stmt := Yield value.

(** [ast.YieldFrom] exists (Python 3.3 and later), so the first branch of
    [build_yield_from] is the one taken. *)
Definition build_yield_from (name : string) : stmt :=
  YieldFrom (build_call (Attribute (Name "self") name) [Name "context"] []).

Definition build_function (name : string) (body : list stmt) : FunctionDef :=
  mk_FunctionDef name (build_yield (Str "") :: body).

Definition get_filter_func (name : expr) : expr :=
  Subscript (Name "filters") name.

Definition get_lookup_name (names : list expr) : expr :=
  build_call (Attribute (Str ".") "join") [PyList names] [].

(** ** The expression grammar ([rattle/parser.py]) *)

Module ExprParser.

Inductive toktype :=
  | COMMA | ASSIGN | PIPE | AND | OR
  | EQUAL | NEQUAL | LT | LTE | GT | GTE | IN | NOTIN | ISNOT | IS
  | PLUS | MINUS | MUL | DIV | MOD
  | LSQB | RSQB | DOT | LPAREN | RPAREN | COLON
  | NAME | NUMBER | STRING.

#[global] Instance toktype_eq_dec : EqDecision toktype.
Proof. solve_decision. Defined.

(** A token of the lexer: [gettokentype()] and [getstr()]. *)
Record token := Token { gettokentype : toktype; getstr : string }.

Inductive assoc := left_assoc | right_assoc.

#[global] Instance assoc_eq_dec : EqDecision assoc.
Proof. solve_decision. Defined.

(** The [precedence] argument of [pg], lowest level first. *)
Definition precedence : list (assoc * list toktype) :=
  [ (left_assoc, [COMMA]);
    (right_assoc, [ASSIGN]);
    (left_assoc, [PIPE]);
    (left_assoc, [AND; OR]);
    (left_assoc, [EQUAL; NEQUAL; LT; LTE; GT; GTE; IN; NOTIN; ISNOT; IS]);
    (left_assoc, [PLUS; MINUS]);
    (left_assoc, [MUL; DIV; MOD]);
    (left_assoc, [LSQB; RSQB]);
    (left_assoc, [DOT]);
    (left_assoc, [LPAREN; RPAREN]) ].

Fixpoint level_in (tbl : list (assoc * list toktype)) (lvl : nat)
    (t : toktype) : option (assoc * nat) :=
  match tbl with
  | [] => None
  | (a, ts) :: tbl' =>
      if bool_decide (t ∈ ts) then Some (a, lvl) else level_in tbl' (S lvl) t
  end.

(** The level of a terminal, from 1; a terminal that the table does not
    list has level 0. *)
Definition prec_of (t : toktype) : assoc * nat :=
  default (right_assoc, 0%nat) (level_in precedence 1 t).

(** The parser generator gives a rule the level of its last terminal and
    settles a shift/reduce conflict between a rule of level [rule_level]
    and the lookahead [look] by their levels: the lookahead is shifted
    when its level is higher, or equal with right associativity, and the
    rule is reduced otherwise. *)
Definition shifts (rule_level : nat) (look : toktype) : bool :=
  let '(a, l) := prec_of look in
  (rule_level <? l)%nat ||
  ((rule_level =? l)%nat && bool_decide (a = right_assoc)).

Definition _binop_mapping (t : toktype) : option operator :=
  match t with
  | PLUS => Some Add
  | MINUS => Some Sub
  | MUL => Some Mult
  | DIV => Some Div
  | MOD => Some Mod
  | _ => None
  end.

Definition _cmpop_mapping (t : toktype) : option cmpop :=
  match t with
  | EQUAL => Some Eq
  | NEQUAL => Some NotEq
  | LT => Some Lt
  | LTE => Some LtE
  | GT => Some Gt
  | GTE => Some GtE
  | IN => Some In
  | NOTIN => Some NotIn
  | ISNOT => Some IsNot
  | IS => Some Is
  | _ => None
  end.

(** *** The productions *)

Definition expr_DOT_NAME (lterm : expr) (rterm : token) : expr :=
  Attribute lterm (getstr rterm).

Definition expr_binop (lterm : expr) (op : token) (rterm : expr)
    : option expr :=
  o ← _binop_mapping (gettokentype op); Some (BinOp lterm o rterm).

Definition expr_cmpop (lterm : expr) (op : token) (rterm : expr)
    : option expr :=
  o ← _cmpop_mapping (gettokentype op); Some (Compare lterm o rterm).

(** The value of a [filter] symbol: the filter function, its positional
    and its keyword arguments. *)
Definition filter_val : Type := expr * list expr * list (string * expr).

Definition expr_filter (arg : expr) (f : filter_val) : expr :=
  let '(filter, args, kwargs) := f in
  build_call filter (arg :: args) kwargs.

Definition expr_binop_paren (e : expr) : expr := e.

Definition expr_SUBSCRIPT (src subscript : expr) : expr :=
  Subscript src subscript.

Definition expr_empty_call (func : expr) : expr := build_call func [] [].
Definition expr_args_call (func : expr) (args : list expr) : expr :=
  build_call func args [].
Definition expr_kwargs_call (func : expr) (kwargs : list (string * expr))
    : expr :=
  build_call func [] kwargs.
Definition expr_full_call (func : expr) (args : list expr)
    (kwargs : list (string * expr)) : expr :=
  build_call func args kwargs.

(** The production of a call, by the shape of its argument list. *)
Definition expr_call (func : expr) (args : list expr)
    (kwargs : list (string * expr)) : expr :=
  match args, kwargs with
  | [], [] => expr_empty_call func
  | _ :: _, [] => expr_args_call func args
  | [], _ :: _ => expr_kwargs_call func kwargs
  | _ :: _, _ :: _ => expr_full_call func args kwargs
  end.

Definition filter_colon_arg (filt : list expr) (arg : expr) : filter_val :=
  (get_filter_func (get_lookup_name filt), [arg], []).
Definition filter_pipe_lookup_name (filt : list expr) : filter_val :=
  (get_filter_func (get_lookup_name filt), [], []).
Definition filter_pipe_lookup_empty_call (filt : list expr) : filter_val :=
  (get_filter_func (get_lookup_name filt), [], []).
Definition filter_pipe_lookup_args_call (filt args : list expr)
    : filter_val :=
  (get_filter_func (get_lookup_name filt), args, []).
Definition filter_pipe_lookup_kwargs_call (filt : list expr)
    (kwargs : list (string * expr)) : filter_val :=
  (get_filter_func (get_lookup_name filt), [], kwargs).
Definition filter_pipe_lookup_full_call (filt args : list expr)
    (kwargs : list (string * expr)) : filter_val :=
  (get_filter_func (get_lookup_name filt), args, kwargs).

(** The production of a filter with parentheses, by the shape of its
    argument list. *)
Definition filter_call (filt args : list expr)
    (kwargs : list (string * expr)) : filter_val :=
  match args, kwargs with
  | [], [] => filter_pipe_lookup_empty_call filt
  | _ :: _, [] => filter_pipe_lookup_args_call filt args
  | [], _ :: _ => filter_pipe_lookup_kwargs_call filt kwargs
  | _ :: _, _ :: _ => filter_pipe_lookup_full_call filt args kwargs
  end.

Definition kwarg_assignment (name : token) (e : expr) : string * expr :=
  (getstr name, e).

Definition lookup_name_NAME (t : token) : list expr := [Str (getstr t)].
Definition lookup_name_append (lookup_name : list expr) (name : token)
    : list expr :=
  lookup_name ++ [Str (getstr name)].

(** Look up a NAME in the context. *)
Definition name_NAME (t : token) : expr :=
  Subscript (Name "context") (Str (getstr t)).

Definition digit_of (c : ascii) : option Z :=
  let n := Z.of_nat (nat_of_ascii c) in
  if (48 <=? n) && (n <=? 57) then Some (n - 48) else None.

Fixpoint int_digits (cs : list ascii) (acc : Z) : option Z :=
  match cs with
  | [] => Some acc
  | c :: cs' => d ← digit_of c; int_digits cs' (10 * acc + d)
  end.

(** [int(number)] on the text of a NUMBER token (a run of decimal digits). *)
Definition py_int (s : string) : option Z :=
  match list_ascii_of_string s with
  | [] => None
  | cs => int_digits cs 0
  end.

Definition has_char (c : ascii) (s : string) : bool :=
  bool_decide (c ∈ list_ascii_of_string s).

Definition number_NUMBER (t : token) : res expr :=
  let number := getstr t in
  if has_char "." number || has_char "e" number || has_char "E" number
  then Ok (Num (NFloat number))
  else match py_int number with
       | Some n => Ok (Num (NInt n))
       | None => Err (ValueError (InvalidLiteral number))
       end.

Definition string_STRING (t : token) : expr :=
  Str (string_of_list_ascii (strip_ends (list_ascii_of_string (getstr t)))).

(** The [error] handler of [pg]. *)
Definition error {A} : res A := Err (ValueError UnexpectedToken).

(** *** The parser

    [pg] is ambiguous as a grammar ([expr : expr PLUS expr] and the like);
    the tables that the parser generator builds from it settle every
    shift/reduce conflict with [shifts]. For this grammar that is operator
    precedence parsing: after an operand, the parser goes on with the
    lookahead when [shifts] says so for the level of the rule it is in
    ([minp], 0 where no rule can be reduced) and reduces otherwise. The
    functions below run the productions in the order the reductions
    happen; [fuel] bounds the recursion. *)

Definition literal (t : token) : res expr :=
  match gettokentype t with
  | NAME => Ok (name_NAME t)
  | NUMBER => number_NUMBER t
  | STRING => Ok (string_STRING t)
  | _ => error
  end.

(** [lookup_name : NAME | lookup_name DOT NAME], after its first NAME. *)
Fixpoint parse_lookup_name (fuel : nat) (acc : list expr) (ts : list token)
    : res (list expr * list token) :=
  match fuel with
  | O => Err RecursionError
  | S f =>
      match ts with
      | Token DOT _ :: Token NAME n :: ts' =>
          parse_lookup_name f (lookup_name_append acc (Token NAME n)) ts'
      | Token DOT _ :: _ => error
      | _ => Ok (acc, ts)
      end
  end.

Definition is_operand_follower (t : toktype) : bool :=
  match t with
  | DOT | LSQB | LPAREN | PIPE => true
  | _ => bool_decide (is_Some (_binop_mapping t))
         || bool_decide (is_Some (_cmpop_mapping t))
  end.

Fixpoint parse_expr (fuel : nat) (minp : nat) (ts : list token)
    : res (expr * list token) :=
  match fuel with
  | O => Err RecursionError
  | S f =>
      match ts with
      | [] => error
      | Token LPAREN _ :: ts1 =>
          '(e, ts2) ← parse_expr f 0 ts1;
          match ts2 with
          | Token RPAREN _ :: ts3 => parse_loop f minp (expr_binop_paren e) ts3
          | _ => error
          end
      | t :: ts1 => e ← literal t; parse_loop f minp e ts1
      end
  end
with parse_loop (fuel : nat) (minp : nat) (lhs : expr) (ts : list token)
    : res (expr * list token) :=
  match fuel with
  | O => Err RecursionError
  | S f =>
      match ts with
      | [] => Ok (lhs, [])
      | t :: ts1 =>
          let ty := gettokentype t in
          if is_operand_follower ty && shifts minp ty then
            match ty with
            | DOT =>
                match ts1 with
                | Token NAME n :: ts2 =>
                    parse_loop f minp (expr_DOT_NAME lhs (Token NAME n)) ts2
                | _ => error
                end
            | LSQB =>
                '(e, ts2) ← parse_expr f 0 ts1;
                match ts2 with
                | Token RSQB _ :: ts3 =>
                    parse_loop f minp (expr_SUBSCRIPT lhs e) ts3
                | _ => error
                end
            | LPAREN =>
                '(a, k, ts2) ← parse_call f ts1;
                parse_loop f minp (expr_call lhs a k) ts2
            | PIPE =>
                '(fv, ts2) ← parse_filter f ts1;
                parse_loop f minp (expr_filter lhs fv) ts2
            | _ =>
                '(rhs, ts2) ← parse_expr f (snd (prec_of ty)) ts1;
                match expr_binop lhs t rhs, expr_cmpop lhs t rhs with
                | Some e, _ | None, Some e => parse_loop f minp e ts2
                | None, None => error
                end
            end
          else Ok (lhs, ts)
      end
  end
(** The arguments of a call, after its LPAREN, up to and with its RPAREN:
    [arg_list], [kwarg_list] or [arg_list COMMA kwarg_list]. *)
with parse_call (fuel : nat) (ts : list token)
    : res (list expr * list (string * expr) * list token) :=
  match fuel with
  | O => Err RecursionError
  | S f =>
      match ts with
      | Token RPAREN _ :: ts1 => Ok ([], [], ts1)
      | _ => parse_args f [] ts
      end
  end
with parse_args (fuel : nat) (acc : list expr) (ts : list token)
    : res (list expr * list (string * expr) * list token) :=
  match fuel with
  | O => Err RecursionError
  | S f =>
      match ts with
      | Token NAME _ :: Token ASSIGN _ :: _ => parse_kwargs f acc [] ts
      | _ =>
          '(e, ts1) ← parse_expr f 0 ts;
          match ts1 with
          | Token COMMA _ :: ts2 => parse_args f (acc ++ [e]) ts2
          | Token RPAREN _ :: ts2 => Ok (acc ++ [e], [], ts2)
          | _ => error
          end
      end
  end
with parse_kwargs (fuel : nat) (acc : list expr)
    (kacc : list (string * expr)) (ts : list token)
    : res (list expr * list (string * expr) * list token) :=
  match fuel with
  | O => Err RecursionError
  | S f =>
      match ts with
      | Token NAME n :: Token ASSIGN _ :: ts1 =>
          '(e, ts2) ← parse_expr f (snd (prec_of ASSIGN)) ts1;
          let kw := kwarg_assignment (Token NAME n) e in
          match ts2 with
          | Token COMMA _ :: ts3 => parse_kwargs f acc (kacc ++ [kw]) ts3
          | Token RPAREN _ :: ts3 => Ok (acc, kacc ++ [kw], ts3)
          | _ => error
          end
      | _ => error
      end
  end
(** [filter], after its PIPE. *)
with parse_filter (fuel : nat) (ts : list token)
    : res (filter_val * list token) :=
  match fuel with
  | O => Err RecursionError
  | S f =>
      match ts with
      | Token NAME n :: ts1 =>
          '(filt, ts2) ← parse_lookup_name f (lookup_name_NAME (Token NAME n)) ts1;
          match ts2 with
          | Token COLON _ :: t :: ts3 =>
              arg ← literal t; Ok (filter_colon_arg filt arg, ts3)
          | Token COLON _ :: [] => error
          | Token LPAREN _ :: ts3 =>
              '(a, k, ts4) ← parse_call f ts3;
              Ok (filter_call filt a k, ts4)
          | _ => Ok (filter_pipe_lookup_name filt, ts2)
          end
      | _ => error
      end
  end.

(** [parse]: one expression, and nothing after it. *)
Definition parse (ts : list token) : res expr :=
  '(e, rest) ← parse_expr (4 * List.length ts + 4) 0 ts;
  match rest with
  | [] => Ok e
  | _ :: _ => error
  end.

End ExprParser.

(** ** The expression lexer *)

Module ExprLexer.
Import ExprParser.

Definition code (c : ascii) : Z := Z.of_nat (nat_of_ascii c).

Definition is_space (c : ascii) : bool :=
  let n := code c in (n =? 32) || ((9 <=? n) && (n <=? 13)).
Definition is_digit (c : ascii) : bool :=
  let n := code c in (48 <=? n) && (n <=? 57).
Definition is_name_start (c : ascii) : bool :=
  let n := code c in
  ((65 <=? n) && (n <=? 90)) || ((97 <=? n) && (n <=? 122)) || (n =? 95).
Definition is_name_char (c : ascii) : bool := is_name_start c || is_digit c.

Fixpoint span (p : ascii -> bool) (cs : list ascii)
    : list ascii * list ascii :=
  match cs with
  | c :: cs' =>
      if p c then let '(a, b) := span p cs' in (c :: a, b) else ([], cs)
  | [] => ([], [])
  end.

Definition tok (t : toktype) (cs : list ascii) : token :=
  Token t (string_of_list_ascii cs).

Definition keyword (w : string) : toktype :=
  if bool_decide (w = "in") then IN
  else if bool_decide (w = "is") then IS
  else if bool_decide (w = "and") then AND
  else if bool_decide (w = "or") then OR
  else NAME.

Definition punct (c : ascii) : option toktype :=
  match c with
  | "+" => Some PLUS | "-" => Some MINUS | "*" => Some MUL
  | "/" => Some DIV | "%" => Some MOD | "." => Some DOT
  | "[" => Some LSQB | "]" => Some RSQB
  | "(" => Some LPAREN | ")" => Some RPAREN
  | "," => Some COMMA | "=" => Some ASSIGN | "|" => Some PIPE
  | ":" => Some COLON | "<" => Some LT | ">" => Some GT
  | _ => None
  end%char.

Definition punct2 (c d : ascii) : option toktype :=
  match c, d with
  | "=", "=" => Some EQUAL | "!", "=" => Some NEQUAL
  | "<", "=" => Some LTE | ">", "=" => Some GTE
  | _, _ => None
  end%char.

(** Modelled from the spec: the expression-mode lexer ([rattle/lexer.py],
    whose rules [lg] are not in the sources at hand). Section 4.1 gives it
    the standard rules for numbers, strings, identifiers and operators, a
    string literal being delimited by one quote style and taken verbatim
    with its quotes; section 3 lists the token kinds; [lg.ignore] in
    [rattle/parser.py] skips white space. A number is a run of digits with
    an optional fraction. *)
Fixpoint scan (fuel : nat) (cs : list ascii) : res (list token) :=
  match fuel with
  | O => Err RecursionError
  | S f =>
      match cs with
      | [] => Ok []
      | c :: cs1 =>
          if is_space c then scan f cs1
          else if is_name_start c then
            let '(w, r) := span is_name_char cs in
            ts ← scan f r;
            Ok (Token (keyword (string_of_list_ascii w))
                      (string_of_list_ascii w) :: ts)
          else if is_digit c then
            let '(d, r) := span is_digit cs in
            match r with
            | "."%char :: (d1 :: _) as r1 =>
                if is_digit d1 then
                  let '(d2, r2) := span is_digit r1 in
                  ts ← scan f r2; Ok (tok NUMBER (d ++ "."%char :: d2) :: ts)
                else ts ← scan f r; Ok (tok NUMBER d :: ts)
            | _ => ts ← scan f r; Ok (tok NUMBER d :: ts)
            end
          else if is_quote c then
            let '(body, r) := span (fun x => negb (bool_decide (x = c))) cs1 in
            match r with
            | _ :: r1 => ts ← scan f r1; Ok (tok STRING (c :: body ++ [c]) :: ts)
            | [] => Err LexingError
            end
          else
            match cs1 with
            | d :: cs2 =>
                match punct2 c d, punct c with
                | Some t, _ => ts ← scan f cs2; Ok (tok t [c; d] :: ts)
                | None, Some t => ts ← scan f cs1; Ok (tok t [c] :: ts)
                | None, None => Err LexingError
                end
            | [] =>
                match punct c with
                | Some t => Ok [tok t [c]]
                | None => Err LexingError
                end
            end
      end
  end.

(** [not in] and [is not] are one token each. *)
Fixpoint join_keywords (ts : list token) : list token :=
  match ts with
  | Token NAME "not" :: Token IN _ :: ts' =>
      Token NOTIN "not in" :: join_keywords ts'
  | Token IS _ :: Token NAME "not" :: ts' =>
      Token ISNOT "is not" :: join_keywords ts'
  | t :: ts' => t :: join_keywords ts'
  | [] => []
  end.

Definition lex (s : string) : res (list token) :=
  ts ← scan (S (String.length s)) (list_ascii_of_string s);
  Ok (join_keywords ts).

End ExprLexer.

(** [parsers.fp.parse(lexers.fl.lex(s))]. *)
Definition parse_expression (s : string) : res expr :=
  ts ← ExprLexer.lex s; ExprParser.parse ts.

Arguments parse_expression : simpl never.
Arguments split_tag_args_string : simpl never.

(** ** Python values and the evaluation of expressions *)

(** The objects that the generated code names: the context mapping, the
    filter table, the escaping function, a filter taken from the table,
    and the bound method [sep.join]. *)
Inductive builtin :=
  | BContext
  | BFilters
  | BAutoEscape
  | BFilter (name : string)
  | BJoin (sep : string).

(** The values of a context: plain data, and objects with attributes. *)
Inductive value :=
  | VNone
  | VBool (b : bool)
  | VInt (n : Z)
  | VStr (s : string)
  | VList (l : list value)
  | VDict (d : list (string * value))
  | VObj (attrs : list (string * value))
  | VBuiltin (b : builtin).

Fixpoint assoc_get {A} (k : string) (l : list (string * A)) : option A :=
  match l with
  | [] => None
  | (k', v) :: l' => if bool_decide (k = k') then Some v else assoc_get k l'
  end.

(** The collaborators of a render: the filter table of the host and its
    escaping function. *)
Record globals := mk_globals {
  filters : string -> option (list value -> list (string * value) -> res value);
  auto_escape : value -> string
}.

(** [str]: on integers and strings. *)
Definition py_str (v : value) : string :=
  match v with
  | VStr s => s
  | VInt n => pretty n
  | VNone => "None"
  | VBool true => "True"
  | VBool false => "False"
  | _ => "<object>"
  end.

Fixpoint join_strs (sep : string) (l : list value) : res string :=
  match l with
  | [] => Ok ""
  | [VStr s] => Ok s
  | VStr s :: l' => r ← join_strs sep l'; Ok (s +:+ sep +:+ r)
  | _ :: _ => Err TypeError
  end.

(** [l[i]], an index below zero counting from the end. *)
Definition py_index {A} (l : list A) (i : Z) : res A :=
  let n := Z.of_nat (List.length l) in
  let j := if i <? 0 then i + n else i in
  if (j <? 0) || (n <=? j) then Err IndexError
  else match l !! Z.to_nat j with
       | Some x => Ok x
       | None => Err IndexError
       end.

Definition truthy (v : value) : bool :=
  match v with
  | VNone => false
  | VBool b => b
  | VInt n => negb (n =? 0)
  | VStr s => negb (bool_decide (s = ""))
  | VList l => negb (bool_decide (List.length l = 0%nat))
  | VDict d => negb (bool_decide (List.length d = 0%nat))
  | VObj _ => true
  | VBuiltin _ => true
  end.

(** What [iter(v)] yields. *)
Definition iterate (v : value) : res (list value) :=
  match v with
  | VList l => Ok l
  | VStr s => Ok (map (fun c => VStr (String c EmptyString))
                      (list_ascii_of_string s))
  | VDict d => Ok (map (fun kv => VStr (fst kv)) d)
  | VNone | VBool _ | VInt _ => Err TypeError
  | VObj _ | VBuiltin _ => Err Unmodelled
  end.

Definition binop (op : operator) (a b : value) : res value :=
  match op, a, b with
  | Add, VInt x, VInt y => Ok (VInt (x + y))
  | Sub, VInt x, VInt y => Ok (VInt (x - y))
  | Mult, VInt x, VInt y => Ok (VInt (x * y))
  | Mod, VInt x, VInt y =>
      if y =? 0 then Err ZeroDivisionError else Ok (VInt (x mod y))
  | Div, VInt x, VInt y =>
      if y =? 0 then Err ZeroDivisionError else Err Unmodelled
  | Add, VStr x, VStr y => Ok (VStr (x +:+ y))
  | Add, VList x, VList y => Ok (VList (x ++ y))
  | _, _, _ => Err Unmodelled
  end.

Definition compare (op : cmpop) (a b : value) : res value :=
  match op, a, b with
  | Eq, VInt x, VInt y => Ok (VBool (x =? y))
  | NotEq, VInt x, VInt y => Ok (VBool (negb (x =? y)))
  | Lt, VInt x, VInt y => Ok (VBool (x <? y))
  | LtE, VInt x, VInt y => Ok (VBool (x <=? y))
  | Gt, VInt x, VInt y => Ok (VBool (y <? x))
  | GtE, VInt x, VInt y => Ok (VBool (y <=? x))
  | Eq, VStr x, VStr y => Ok (VBool (bool_decide (x = y)))
  | NotEq, VStr x, VStr y => Ok (VBool (negb (bool_decide (x = y))))
  | _, _, _ => Err Unmodelled
  end.

Section Eval.
Context (g : globals).

Definition getitem (ctx : gmap string value) (v i : value) : res value :=
  match v, i with
  | VBuiltin BContext, VStr k =>
      match ctx !! k with
      | Some x => Ok x
      | None => Err (KeyError k)
      end
  | VBuiltin BFilters, VStr n =>
      match filters g n with
      | Some _ => Ok (VBuiltin (BFilter n))
      | None => Err (KeyError n)
      end
  | VDict d, VStr k =>
      match assoc_get k d with
      | Some x => Ok x
      | None => Err (KeyError k)
      end
  | VList l, VInt n => py_index l n
  | VStr s, VInt n =>
      c ← py_index (list_ascii_of_string s) n; Ok (VStr (String c EmptyString))
  | (VNone | VBool _ | VInt _), _ => Err TypeError
  | _, _ => Err Unmodelled
  end.

Definition getattr (v : value) (a : string) : res value :=
  match v with
  | VObj attrs =>
      match assoc_get a attrs with
      | Some x => Ok x
      | None => Err (AttributeError a)
      end
  | VStr s => if bool_decide (a = "join") then Ok (VBuiltin (BJoin s))
              else Err Unmodelled
  | _ => Err Unmodelled
  end.

Definition call (f : value) (args : list value)
    (kwargs : list (string * value)) : res value :=
  match f with
  | VBuiltin (BFilter n) =>
      match filters g n with
      | Some fn => fn args kwargs
      | None => Err (KeyError n)
      end
  | VBuiltin BAutoEscape =>
      match args, kwargs with
      | [v], [] => Ok (VStr (auto_escape g v))
      | _, _ => Err TypeError
      end
  | VBuiltin (BJoin sep) =>
      match args, kwargs with
      | [VList l], [] => s ← join_strs sep l; Ok (VStr s)
      | _, _ => Err TypeError
      end
  | VObj _ => Err Unmodelled
  | _ => Err TypeError
  end.

Definition lookup_global (id : string) : res value :=
  if bool_decide (id = "context") then Ok (VBuiltin BContext)
  else if bool_decide (id = "filters") then Ok (VBuiltin BFilters)
  else if bool_decide (id = "auto_escape") then Ok (VBuiltin BAutoEscape)
  else Err (NameError id).

(** Evaluation reads the context and never writes it: the function of a
    call is evaluated first, then its arguments from left to right. *)
Fixpoint eval (ctx : gmap string value) (e : expr) : res value :=
  match e with
  | Num (NInt n) => Ok (VInt n)
  | Num (NFloat _) => Err Unmodelled
  | Str s => Ok (VStr s)
  | Name id => lookup_global id
  | Subscript v i => v' ← eval ctx v; i' ← eval ctx i; getitem ctx v' i'
  | Attribute v a => v' ← eval ctx v; getattr v' a
  | BinOp l op r => l' ← eval ctx l; r' ← eval ctx r; binop op l' r'
  | Compare l op r => l' ← eval ctx l; r' ← eval ctx r; compare op l' r'
  | Call f args kws =>
      f' ← eval ctx f;
      args' ← (fix go (es : list expr) : res (list value) :=
                 match es with
                 | [] => Ok []
                 | e' :: es' => v ← eval ctx e'; vs ← go es'; Ok (v :: vs)
                 end) args;
      kws' ← (fix go (ks : list (string * expr))
                : res (list (string * value)) :=
                match ks with
                | [] => Ok []
                | (k, e') :: ks' =>
                    v ← eval ctx e'; vs ← go ks'; Ok ((k, v) :: vs)
                end) kws;
      call f' args' kws'
  | PyList elts =>
      vs ← (fix go (es : list expr) : res (list value) :=
              match es with
              | [] => Ok []
              | e' :: es' => v ← eval ctx e'; vs ← go es'; Ok (v :: vs)
              end) elts;
      Ok (VList vs)
  end.

(** The positional and the keyword arguments of a call, from left to
    right: the two inner loops of [eval]. *)
Definition eval_args (ctx : gmap string value)
    : list expr -> res (list value) :=
  fix go (es : list expr) : res (list value) :=
    match es with
    | [] => Ok []
    | e' :: es' => v ← eval ctx e'; vs ← go es'; Ok (v :: vs)
    end.

Definition eval_kwargs (ctx : gmap string value)
    : list (string * expr) -> res (list (string * value)) :=
  fix go (ks : list (string * expr)) : res (list (string * value)) :=
    match ks with
    | [] => Ok []
    | (k, e') :: ks' => v ← eval ctx e'; vs ← go ks'; Ok ((k, v) :: vs)
    end.

End Eval.

(** ** Classes, generator functions and the execution of statements *)

(** A class object: its name, its namespace (the function definitions of
    its body, in order) and the class object that its base named when the
    class statement ran. *)
Inductive pyclass :=
  | PyObject
  | PyClass (name : string) (defs : list FunctionDef) (base : pyclass).

(** A later definition of a name replaces an earlier one. *)
Fixpoint class_get (defs : list FunctionDef) (n : string)
    : option FunctionDef :=
  match defs with
  | [] => None
  | f :: defs' =>
      match class_get defs' n with
      | Some f' => Some f'
      | None => if bool_decide (fn_name f = n) then Some f else None
      end
  end.

(** Attribute lookup on an instance: the class, then its bases. *)
Fixpoint find_method (c : pyclass) (n : string) : option FunctionDef :=
  match c with
  | PyObject => None
  | PyClass _ defs base =>
      match class_get defs n with
      | Some f => Some f
      | None => find_method base n
      end
  end.

Definition class_defs (body : list class_item) : list FunctionDef :=
  omap (fun i => match i with CDef f => Some f | CPass => None end) body.

(** A class statement: [object] is built in, any other base is the class
    that an earlier statement of the module bound to that name. *)
Definition exec_class (ns : list (string * pyclass)) (c : ClassDef)
    : res (list (string * pyclass)) :=
  base ← match cls_bases c with
         | [] => Ok PyObject
         | [b] =>
             if bool_decide (b = "object") then Ok PyObject
             else match assoc_get b ns with
                  | Some k => Ok k
                  | None => Err (NameError b)
                  end
         | _ => Err Unmodelled
         end;
  Ok ((cls_name c, PyClass (cls_name c) (class_defs (cls_body c)) base) :: ns).

Fixpoint exec_module (ns : list (string * pyclass)) (m : list ClassDef)
    : res (list (string * pyclass)) :=
  match m with
  | [] => Ok ns
  | c :: m' => ns' ← exec_class ns c; exec_module ns' m'
  end.

(** The state of a running generator: the context mapping, which every
    procedure of one render shares, and the fragments yielded so far. *)
Record state := mk_state {
  context : gmap string value;
  output : list string
}.

(** A generator runs to its end, or raises after the fragments it has
    yielded by then. *)
Inductive run :=
  | Done (st : state)
  | Raised (e : exn) (st : state).

Definition run_bind (r : run) (k : state -> run) : run :=
  match r with
  | Done st => k st
  | Raised e st => Raised e st
  end.

Definition lift {A} (st : state) (r : res A) (k : A -> run) : run :=
  match r with
  | Ok a => k a
  | Err e => Raised e st
  end.

Section Exec.
Context (g : globals).

(** The assignment [target = v] of a [for] statement. *)
Definition assign (target : expr) (v : value) (st : state) : run :=
  match target with
  | Subscript obj key =>
      lift st (eval g (context st) obj) (fun o =>
      lift st (eval g (context st) key) (fun k =>
      match o, k with
      | VBuiltin BContext, VStr name =>
          Done (mk_state (<[name := v]> (context st)) (output st))
      | _, _ => Raised Unmodelled st
      end))
  | _ => Raised Unmodelled st
  end.

(** The one call that the productions put under [yield from]:
    [self.name(context)]. *)
Definition self_call (e : expr) : option string :=
  match e with
  | Call (Attribute (Name "self") n) [Name "context"] [] => Some n
  | _ => None
  end.

(** A suite: its statements in order, up to the first that raises. *)
Definition run_block (exec1 : stmt -> state -> run)
    : list stmt -> state -> run :=
  fix block (ss : list stmt) (st : state) : run :=
    match ss with
    | [] => Done st
    | s :: ss' => run_bind (exec1 s st) (block ss')
    end.

(** The iterations of a [for] statement over the items of its iterable. *)
Definition run_for (iteration : value -> state -> run)
    : list value -> state -> run :=
  fix loop (vs : list value) (st : state) : run :=
    match vs with
    | [] => Done st
    | v :: vs' => run_bind (iteration v st) (loop vs')
    end.

(** One statement of a generator body, [self] being the class of the
    instance. A [for] statement assigns each item to its target and runs
    its body; its [else] suite runs when the items are exhausted, that is,
    whenever the loop is not left by [break], and no production builds a
    [break]. [fuel] bounds the nesting of statements and calls. *)
Fixpoint exec_stmt (fuel : nat) (self : pyclass) (s : stmt) (st : state)
    : run :=
  match fuel with
  | O => Raised RecursionError st
  | S f =>
      let block := run_block (exec_stmt f self) in
      match s with
      | Yield e =>
          lift st (eval g (context st) e) (fun v =>
          match v with
          | VStr frag => Done (mk_state (context st) (output st ++ [frag]))
          | _ => Raised TypeError st
          end)
      | YieldFrom e =>
          match self_call e with
          | Some n =>
              match find_method self n with
              | Some fn => block (fn_body fn) st
              | None => Raised (AttributeError n) st
              end
          | None => Raised Unmodelled st
          end
      | If test body orelse =>
          lift st (eval g (context st) test) (fun v =>
          if truthy v then block body st else block orelse st)
      | For target iter body orelse =>
          lift st (eval g (context st) iter) (fun it =>
          lift st (iterate it) (fun items =>
          run_bind
            (run_for (fun v st1 => run_bind (assign target v st1) (block body))
                     items st)
            (block orelse)))
      | Pass => Done st
      end
  end.

Definition exec_block (fuel : nat) (self : pyclass) : list stmt -> state -> run :=
  run_block (exec_stmt fuel self).

(** [self.name(context)], run to its end. *)
Definition call_method (fuel : nat) (self : pyclass) (name : string)
    (st : state) : run :=
  match find_method self name with
  | Some fn => exec_block fuel self (fn_body fn) st
  | None => Raised (AttributeError name) st
  end.

(** Modelled from the spec: the renderer (the [Template] class of the
    package is not in the sources at hand). Section 4.7: it invokes the
    root procedure with the given context; the module that the compiler
    produced is executed, the class of the template itself, [Template], is
    instantiated and the fragments of [root(context)] are collected. *)
Definition render (fuel : nat) (m : list ClassDef)
    (ctx : gmap string value) : run :=
  let st := mk_state ctx [] in
  match exec_module [] m with
  | Err e => Raised e st
  | Ok ns =>
      match assoc_get "Template" ns with
      | Some cls => call_method fuel cls "root" st
      | None => Raised (NameError "Template") st
      end
  end.

End Exec.

(** The fragments joined, as the caller joins them. *)
Definition rendered (r : run) : res string :=
  match r with
  | Done st => Ok (String.concat "" (output st))
  | Raised e _ => Err e
  end.

(** ** [ParserState] *)

(** [module_body] and the value of a [doc] symbol are lists of class
    objects. The class of the template being parsed sits in them before
    [finalize] fills it in, so they hold it by reference ([Own]); the
    classes of the templates it extends are complete ([Parent]). *)
Inductive cref :=
  | Parent (c : ClassDef)
  | Own.

(** [functions] is a dictionary in insertion order. [root_func] is a second
    reference to the object at [functions['root']] that nothing reads, and
    is left out. *)
Record ParserState := mk_ParserState {
  level : nat;
  base_class : string;
  functions : list (string * FunctionDef);
  klass : option ClassDef;
  module_body : list cref
}.

Definition ParserState_init (level : nat) : ParserState :=
  mk_ParserState level "object" [] None [].

Definition names (st : ParserState) : list string := (functions st).*1.

Definition add_function (st : ParserState) (name : string)
    (func : FunctionDef) : res ParserState :=
  if bool_decide (name ∈ names st) then Err (DuplicateBlockError name)
  else Ok (mk_ParserState (level st) (base_class st)
             (functions st ++ [(name, func)]) (klass st) (module_body st)).

Fixpoint append_body (name : string) (value : stmt)
    (fs : list (string * FunctionDef)) : option (list (string * FunctionDef)) :=
  match fs with
  | [] => None
  | (n, f) :: fs' =>
      if bool_decide (n = name)
      then Some ((n, mk_FunctionDef (fn_name f) (fn_body f ++ [value])) :: fs')
      else fs'' ← append_body name value fs'; Some ((n, f) :: fs'')
  end.

(** [append_to_block(value)], with the default [name='root']. *)
Definition append_to_block (st : ParserState) (value : stmt)
    : res ParserState :=
  match append_body "root" value (functions st) with
  | Some fs => Ok (mk_ParserState (level st) (base_class st) fs
                     (klass st) (module_body st))
  | None => Err (KeyError "root")
  end.

Definition class_name (st : ParserState) : string :=
  "Template" +:+ (if bool_decide (level st = 0%nat) then "" else pretty (level st)).

Fixpoint del_key {A} (k : string) (l : list (string * A))
    : option (list (string * A)) :=
  match l with
  | [] => None
  | (k', v) :: l' =>
      if bool_decide (k = k') then Some l'
      else l'' ← del_key k l'; Some ((k', v) :: l'')
  end.

(** [finalize]: the class object gets its base and its body. *)
Definition finalize (st : ParserState) : res ParserState :=
  match klass st with
  | None => Err (AttributeError "bases")
  | Some k =>
      if bool_decide (base_class st ≠ "object") then
        match del_key "root" (functions st) with
        | None => Err (KeyError "root")
        | Some fs =>
            Ok (mk_ParserState (level st) (base_class st) fs
                  (Some (mk_ClassDef (cls_name k) [base_class st]
                           ((CPass :: cls_body k) ++ map CDef fs.*2)))
                  (module_body st))
        end
      else
        Ok (mk_ParserState (level st) (base_class st) (functions st)
              (Some (mk_ClassDef (cls_name k) [base_class st]
                       (cls_body k ++ map CDef (functions st).*2)))
              (module_body st))
  end.

(** [build_class]: the class object and the entry function [root]. *)
Definition build_class (st : ParserState) : res ParserState :=
  let root_func := build_function "root" [] in
  let k := mk_ClassDef (class_name st) [] [] in
  add_function (mk_ParserState (level st) (base_class st) (functions st)
                  (Some k) (module_body st))
               "root" root_func.

(** The classes a list of references stands for, once the state is final. *)
Definition resolve (st : ParserState) (l : list cref) : list ClassDef :=
  omap (fun r => match r with Parent c => Some c | Own => klass st end) l.

(** ** The structure grammar ([rattle/parser/structure.py]) *)

Inductive for_else := ELSE | EMPTY.

(** A derivation of the structure grammar: the symbols of a [doc] or of an
    [inner] in order, each with the text of its CONTENT tokens. *)
Inductive node :=
  | NContent (text : string)
  | NVar (text : string)
  | NIf (cond : string) (body : list node) (orelse : option (list node))
  | NFor (args : string) (body : list node)
         (orelse : option (for_else * list node))
  | NBlock (args : string) (body : list node)
  | NExtends (args : string)
  | NComment (text : string).

(** The value of a reduced symbol: a CONTENT token, the statement of a
    [var] or a [tag], or that of a [comment]. *)
Inductive sym :=
  | SContent (text : string)
  | SParsed (v : stmt)
  | SComment (v : stmt).

Module Structure.

Definition error {A} : res A := Err (ValueError UnexpectedToken).

Definition var__varstart_CONTENT_varend (text : string) : res stmt :=
  content ← parse_expression text;
  Ok (build_yield (build_call (Name "auto_escape") [content] [])).

Definition if__impl (condition : string) (body : list stmt) : res stmt :=
  test ← parse_expression condition; Ok (If test body []).

Definition if__else_impl (condition : string) (body orelse : list stmt)
    : res stmt :=
  test ← parse_expression condition; Ok (If test body orelse).

Definition for__impl (args : string) (body : list stmt) : res stmt :=
  l ← split_tag_args_string args;
  match l with
  | [target; in_; var] =>
      if bool_decide (in_ ≠ "in") then Err (ValueError InExpected)
      else
        iterator ← parse_expression var;
        Ok (For (Subscript (Name "context") (Str target)) iterator body [])
  | _ => Err (ValueError Unpack)
  end.

Definition for__else_impl (args : string) (body orelse : list stmt)
    : res stmt :=
  l ← split_tag_args_string args;
  match l with
  | [target; in_; var] =>
      if bool_decide (in_ ≠ "in") then Err (ValueError InExpected)
      else
        iterator ← parse_expression var;
        Ok (For (Subscript (Name "context") (Str target)) iterator body orelse)
  | _ => Err (ValueError Unpack)
  end.

Definition block__impl (st : ParserState) (args : string) (body : list stmt)
    : res (stmt * ParserState) :=
  l ← split_tag_args_string args;
  match l with
  | [name] =>
      let func := build_function name body in
      st' ← add_function st name func;
      Ok (build_yield_from name, st')
  | _ => Err (ValueError Unpack)
  end.

Definition comment : stmt := build_yield (Str "").

Definition inner__CONTENT (content : string) : list stmt :=
  [build_yield (Str content)].
Definition inner__parsed (v : stmt) : list stmt := [v].
Definition inner__inner_CONTENT (inner : list stmt) (content : string)
    : list stmt :=
  inner ++ [build_yield (Str content)].
Definition inner__inner_parsed (inner : list stmt) (parsed : stmt)
    : list stmt :=
  inner ++ [parsed].
Definition inner__inner_comment (inner : list stmt) : list stmt := inner.

Definition inner_first (s : sym) : list stmt :=
  match s with
  | SContent text => inner__CONTENT text
  | SParsed v | SComment v => inner__parsed v
  end.

Definition inner_next (inner : list stmt) (s : sym) : list stmt :=
  match s with
  | SContent text => inner__inner_CONTENT inner text
  | SParsed v => inner__inner_parsed inner v
  | SComment _ => inner__inner_comment inner
  end.

Section Productions.

(** What [extends__impl] does with the file it names: open and read it,
    lex it, parse it with a state of its own at the given level and
    finalize that state; the result is the parent's list of classes. *)
Context (load_parent : string -> nat -> res (list ClassDef)).

Definition extends__impl (st : ParserState) (args : string)
    : res (stmt * ParserState) :=
  l ← split_tag_args_string args;
  match l with
  | [filename] =>
      let super_level := S (level st) in
      super_classes ← load_parent filename super_level;
      Ok (Pass,
          mk_ParserState (level st) ("Template" +:+ pretty super_level)
            (functions st) (klass st) (map Parent super_classes))
  | _ => Err (ValueError Unpack)
  end.

(** [inner : inner CONTENT] and the like: the symbols after the first. *)
Definition inner_rest (red : node -> ParserState -> res (sym * ParserState))
    : list stmt -> list node -> ParserState -> res (list stmt * ParserState) :=
  fix go (acc : list stmt) (items : list node) (st : ParserState) :=
    match items with
    | [] => Ok (acc, st)
    | n :: items' =>
        '(s, st1) ← red n st; go (inner_next acc s) items' st1
    end.

(** [inner], which has no empty production. *)
Definition inner (red : node -> ParserState -> res (sym * ParserState))
    (items : list node) (st : ParserState)
    : res (list stmt * ParserState) :=
  match items with
  | [] => error
  | n :: items' =>
      '(s, st1) ← red n st; inner_rest red (inner_first s) items' st1
  end.

(** The reductions below a symbol, in the order the parser makes them:
    bottom-up and from left to right, so the body of a tag is reduced
    before the production of the tag runs. *)
Fixpoint reduce (n : node) (st : ParserState) {struct n}
    : res (sym * ParserState) :=
  match n with
  | NContent text => Ok (SContent text, st)
  | NVar text => v ← var__varstart_CONTENT_varend text; Ok (SParsed v, st)
  | NIf cond body None =>
      '(b, st1) ← inner reduce body st;
      v ← if__impl cond b; Ok (SParsed v, st1)
  | NIf cond body (Some orelse) =>
      '(b, st1) ← inner reduce body st;
      '(o, st2) ← inner reduce orelse st1;
      v ← if__else_impl cond b o; Ok (SParsed v, st2)
  | NFor args body None =>
      '(b, st1) ← inner reduce body st;
      v ← for__impl args b; Ok (SParsed v, st1)
  | NFor args body (Some (_, orelse)) =>
      '(b, st1) ← inner reduce body st;
      '(o, st2) ← inner reduce orelse st1;
      v ← for__else_impl args b o; Ok (SParsed v, st2)
  | NBlock args body =>
      '(b, st1) ← inner reduce body st;
      '(v, st2) ← block__impl st1 args b; Ok (SParsed v, st2)
  | NExtends args =>
      '(v, st1) ← extends__impl st args; Ok (SParsed v, st1)
  | NComment _ => Ok (SComment comment, st)
  end.

(** [doc : CONTENT], [doc : var], [doc : tag], [doc : comment]. *)
Definition doc_first (st : ParserState) (s : sym)
    : res (list cref * ParserState) :=
  st1 ← build_class st;
  st2 ← append_to_block st1
         match s with
         | SContent text => build_yield (Str text)
         | SParsed v | SComment v => v
         end;
  let st3 := mk_ParserState (level st2) (base_class st2) (functions st2)
               (klass st2) (module_body st2 ++ [Own]) in
  Ok (module_body st3, st3).

(** [doc : doc CONTENT], [doc : doc var], [doc : doc tag],
    [doc : doc comment]. *)
Definition doc_next (st : ParserState) (s : sym) : res ParserState :=
  match s with
  | SContent text => append_to_block st (build_yield (Str text))
  | SParsed v => append_to_block st v
  | SComment _ => Ok st
  end.

Fixpoint doc_rest (items : list node) (st : ParserState) : res ParserState :=
  match items with
  | [] => Ok st
  | n :: items' =>
      '(s, st1) ← reduce n st; st2 ← doc_next st1 s; doc_rest items' st2
  end.

(** [parsers.sp.parse(tokens, state)]: the value of the [doc] symbol and
    the state after the last reduction. *)
Definition parse (items : list node) (st : ParserState)
    : res (list cref * ParserState) :=
  match items with
  | [] => error
  | n :: items' =>
      '(s, st1) ← reduce n st;
      '(doc, st2) ← doc_first st1 s;
      st3 ← doc_rest items' st2;
      Ok (doc, st3)
  end.

End Productions.

End Structure.

(** ** Compilation *)

(** The files a template can extend: what [open], the structure lexer and
    the structure grammar make of the file of that name. *)
Definition files : Type := string -> res (list node).

(** A template parsed at [level], its state finalized: what
    [extends__impl] does for a parent. Every [extends] hop is one more
    call, so a chain of parents that never ends exhausts the stack. *)
Fixpoint compile_at (fuel : nat) (fs : files) (level : nat)
    (items : list node) : res (list ClassDef) :=
  match fuel with
  | O => Err RecursionError
  | S f =>
      '(doc, st) ← Structure.parse
                     (fun filename lvl =>
                        tree ← fs filename; compile_at f fs lvl tree)
                     items (ParserState_init level);
      st' ← finalize st;
      Ok (resolve st' doc)
  end.

(** Modelled from the spec: the entry point of the compiler (the
    [Template] class of the package is not in the sources at hand). It
    treats the template as [extends__impl] treats a parent, at level 0. *)
Definition compile (fuel : nat) (fs : files) (items : list node)
    : res (list ClassDef) :=
  compile_at fuel fs 0 items.

(** ** The block names of a template *)

Definition is_ok {A} (r : res A) : bool :=
  match r with
  | Ok _ => true
  | Err _ => false
  end.

(** The name a [block] tag defines, when its argument is one word. *)
Definition block_name (args : string) : list string :=
  match split_tag_args_string args with
  | Ok [name] => [name]
  | _ => []
  end.

(** The names of the blocks below a symbol, in the order in which
    [block__impl] registers them: a block after the blocks of its body. *)
Fixpoint defs (n : node) : list string :=
  match n with
  | NIf _ body None => flat_map defs body
  | NIf _ body (Some orelse) => flat_map defs body ++ flat_map defs orelse
  | NFor _ body None => flat_map defs body
  | NFor _ body (Some (_, orelse)) => flat_map defs body ++ flat_map defs orelse
  | NBlock args body => flat_map defs body ++ block_name args
  | NContent _ | NVar _ | NExtends _ | NComment _ => []
  end.

(** The blocks that a template defines at its own level. *)
Definition block_names (items : list node) : list string := flat_map defs items.

(** The order in which one parse registers names: [build_class] registers
    [root] once the first symbol of the document is reduced. *)
Definition registration_order (items : list node) : list string :=
  match items with
  | [] => []
  | n :: items' => defs n ++ "root" :: flat_map defs items'
  end.

(** The first name of [l] that is in [seen] or earlier in [l]. *)
Fixpoint first_clash (seen l : list string) : option string :=
  match l with
  | [] => None
  | x :: l' =>
      if bool_decide (x ∈ seen) then Some x else first_clash (seen ++ [x]) l'
  end.

(** A symbol whose tags are all well formed, so that no production but
    [add_function] can raise: expressions parse, the arguments of [for]
    and [block] have their shape, bodies are not empty, and the file of an
    [extends] compiles. *)
Fixpoint well_formed (load_parent : string -> nat -> res (list ClassDef))
    (lvl : nat) (n : node) : bool :=
  let all := fun items =>
    negb (bool_decide (items = [])) && forallb (well_formed load_parent lvl) items in
  match n with
  | NContent _ | NComment _ => true
  | NVar text => is_ok (parse_expression text)
  | NIf cond body None => all body && is_ok (parse_expression cond)
  | NIf cond body (Some orelse) =>
      all body && all orelse && is_ok (parse_expression cond)
  | NFor args body None => all body && is_ok (Structure.for__impl args [])
  | NFor args body (Some (_, orelse)) =>
      all body && all orelse && is_ok (Structure.for__impl args [])
  | NBlock args body =>
      all body && negb (bool_decide (block_name args = []))
  | NExtends args =>
      match split_tag_args_string args with
      | Ok [filename] => is_ok (load_parent filename (S lvl))
      | _ => false
      end
  end.

(** The loader that [compile_at] hands to the productions. *)
Definition loader (fuel : nat) (fs : files) (filename : string) (lvl : nat)
    : res (list ClassDef) :=
  tree ← fs filename; compile_at fuel fs lvl tree.

(** ** The keys that a render can write *)






(** ** The statements of the lemmas on registration and on writes *)

Section RegistrationSpec.
Context (lp : string -> nat -> res (list ClassDef)).

Definition parent_name (st : ParserState) : string :=
  "Template" +:+ pretty (S (level st)).

(** Every function sits in [functions] under its own name. *)
Definition named (st : ParserState) : Prop :=
  Forall (fun kf => fn_name kf.2 = kf.1) (functions st).

(** What a run of reductions does to the state when the blocks it
    registers are [ds]: it succeeds exactly when no name clashes, unless
    some tag is ill formed ([ok] is false), and then [ds] is appended to
    the names; it fails with the first name that clashes. *)
Definition step_spec {A} (ds : list string) (ok : bool) (st : ParserState)
    (r : res (A * ParserState)) : Prop :=
  match r with
  | Ok (_, st') =>
      names st' = names st ++ ds
      ∧ level st' = level st
      ∧ klass st' = klass st
      ∧ (base_class st' = base_class st ∨ base_class st' = parent_name st)
      ∧ first_clash (names st) ds = None
      ∧ (named st -> named st')
  | Err e =>
      ok = true ->
      exists x, e = DuplicateBlockError x ∧ first_clash (names st) ds = Some x
  end.

Definition all_well_formed (lvl : nat) (items : list node) : bool :=
  negb (bool_decide (items = [])) && forallb (well_formed lp lvl) items.

Definition reduce_spec (n : node) : Prop :=
  forall st,
    step_spec (defs n) (well_formed lp (level st) n) st
      (Structure.reduce lp n st).

End RegistrationSpec.


(** *** On the expression parser *)

Module ParserSpec.
Import ExprParser.

(** More fuel does not change a result. *)
Definition mono_at (f : nat) : Prop :=
  forall f', (f <= f')%nat ->
    (forall minp ts r,
        parse_expr f minp ts = Ok r -> parse_expr f' minp ts = Ok r)
    ∧ (forall minp lhs ts r,
          parse_loop f minp lhs ts = Ok r -> parse_loop f' minp lhs ts = Ok r)
    ∧ (forall ts r, parse_call f ts = Ok r -> parse_call f' ts = Ok r)
    ∧ (forall acc ts r,
          parse_args f acc ts = Ok r -> parse_args f' acc ts = Ok r)
    ∧ (forall acc kacc ts r,
          parse_kwargs f acc kacc ts = Ok r ->
          parse_kwargs f' acc kacc ts = Ok r)
    ∧ (forall ts r, parse_filter f ts = Ok r -> parse_filter f' ts = Ok r).

Section Suffix.
(** The tokens [ext] of a filter, put after the input, and the value [fv]
    of that filter. *)
Context (ext : list token) (fv : filter_val).

(** A function that stops before the end of its input leaves [ext] too. *)
Definition grows {A} (run : list token -> res (A * list token))
    (ts : list token) : Prop :=
  forall x r, run ts = Ok (x, r) -> run (ts ++ ext) = Ok (x, r ++ ext).

(** An operand parsed under a rule of level [minp]: when it stops before
    the end of the input, or the rule is reduced before a PIPE, [ext] is
    left; when it ends the input and a PIPE is shifted, the filter is
    applied to it. *)
Definition extends_expr
    (run : nat -> nat -> list token -> res (expr * list token))
    (f minp : nat) (ts : list token) : Prop :=
  forall e r,
    run f minp ts = Ok (e, r) ->
    ((r <> [] ∨ shifts minp PIPE = false) ->
     run f minp (ts ++ ext) = Ok (e, r ++ ext))
    ∧ (r = [] -> shifts minp PIPE = true ->
       run (f + 2)%nat minp (ts ++ ext) = Ok (expr_filter e fv, [])).

Definition ext_at (f : nat) : Prop :=
  (forall minp ts, extends_expr parse_expr f minp ts)
  ∧ (forall minp lhs ts,
        extends_expr (fun f m => parse_loop f m lhs) f minp ts)
  ∧ (forall ts, grows (parse_call f) ts)
  ∧ (forall acc ts, grows (parse_args f acc) ts)
  ∧ (forall acc kacc ts, grows (parse_kwargs f acc kacc) ts)
  ∧ (forall ts, grows (parse_filter f) ts).

End Suffix.

End ParserSpec.

(** ** Templates and collaborators used as examples *)

(** Modelled from the spec: the structure lexer on a source without
    delimiters (the lexer is not in the sources at hand). Section 4.1:
    everything outside a delimiter pair is one CONTENT token, possibly
    empty; the derivation of such a source is [doc : CONTENT]. *)
Definition plain_source (s : string) : list node := [NContent s].

(** No file to extend. *)
Definition no_files : files := fun f => Err (IOError f).

(** A host with [str] as its escaping function and three filters. *)
Definition host_filters (name : string)
    : option (list value -> list (string * value) -> res value) :=
  if bool_decide (name = "inc") then
    Some (fun a _ => match a with
                     | [VInt x] => Ok (VInt (x + 1))
                     | _ => Err TypeError
                     end)
  else if bool_decide (name = "double") then
    Some (fun a _ => match a with
                     | [VInt x] => Ok (VInt (2 * x))
                     | _ => Err TypeError
                     end)
  else if bool_decide (name = "add") then
    Some (fun a _ => match a with
                     | [VInt x; VInt y] => Ok (VInt (x + y))
                     | _ => Err TypeError
                     end)
  else None.

Definition host : globals := mk_globals host_filters py_str.

(** [{% for i in items %}{{ i }}{% empty %}none{% endfor %}]. *)
Definition for_empty_template : list node :=
  [NFor " i in items " [NVar " i "] (Some (EMPTY, [NContent "none"]))].

(** What [for_empty_template] compiles to. *)
Definition for_empty_module : list ClassDef :=
  [mk_ClassDef "Template" ["object"]
     [CDef (mk_FunctionDef "root"
        [Yield (Str "");
         For (Subscript (Name "context") (Str "i"))
             (Subscript (Name "context") (Str "items"))
             [Yield (Call (Name "auto_escape")
                       [Subscript (Name "context") (Str "i")] [])]
             [Yield (Str "none")]])]].

(** A base template, [<h1>{% block title %}T{% endblock %}</h1>{% block
    body %}base{% endblock %}], stored as the file [base], and a child that
    extends it, overrides [body] and has text of its own at top level. *)
Definition base_template : list node :=
  [NContent "<h1>"; NBlock " title " [NContent "T"]; NContent "</h1>";
   NBlock " body " [NContent "base"]].

Definition base_files : files :=
  fun name => if bool_decide (name = "base") then Ok base_template
              else Err (IOError name).

Definition child_args : string := " " +:+ quoted "base" +:+ " ".

Definition child_rest : list node :=
  [NContent "junk"; NBlock " body " [NContent "child"]].

Definition child_template : list node := NExtends child_args :: child_rest.

(** What [child_template] compiles to. *)
Definition child_module : list ClassDef :=
  [mk_ClassDef "Template1" ["object"]
     [CDef (mk_FunctionDef "root"
        [Yield (Str ""); Yield (Str "<h1>");
         build_yield_from "title"; Yield (Str "</h1>");
         build_yield_from "body"]);
      CDef (mk_FunctionDef "title" [Yield (Str ""); Yield (Str "T")]);
      CDef (mk_FunctionDef "body" [Yield (Str ""); Yield (Str "base")])];
   mk_ClassDef "Template" ["Template1"]
     [CPass;
      CDef (mk_FunctionDef "body" [Yield (Str ""); Yield (Str "child")])]].

(** ** The statements of the further lemmas *)

(** *** On the splitter *)

(** No escape is pending, no quote and no parenthesis is open: the test
    after the loop. *)
Definition balanced (s : st) : bool :=
  negb (escaped s) && negb (quote s) && negb (squote s) && (parens s =? 0).

(** What the code after the loop appends for [current]. *)
Definition last_arg (s : st) : list string :=
  match current s with
  | [] => []
  | _ :: _ => [emit (current s)]
  end.

(** A character that means nothing to the splitter. *)
Definition plain (c : ascii) : bool :=
  negb (is_quote c || bool_decide (c = lparen) || bool_decide (c = rparen)
        || bool_decide (c = backslash) || bool_decide (c = space)).

(** Between parentheses and outside quotes, plain characters and spaces
    are copied. *)
Definition in_parens (c : ascii) : bool := plain c || bool_decide (c = space).

(** A word: plain characters, one at least. *)
Definition word (w : string) : Prop :=
  w <> "" ∧ forallb plain (list_ascii_of_string w) = true.

(** The state [s] with the arguments [a] found before it. *)
Definition with_args (a : list string) (s : st) : st :=
  mk_st (a ++ args s) (current s) (escaped s) (quote s) (squote s) (parens s).

(** *** On the structure grammar *)

(** Whether an [extends] tag stands below a symbol. *)
Fixpoint extends_in (n : node) : bool :=
  match n with
  | NExtends _ => true
  | NIf _ body None => existsb extends_in body
  | NIf _ body (Some orelse) =>
      existsb extends_in body || existsb extends_in orelse
  | NFor _ body None => existsb extends_in body
  | NFor _ body (Some (_, orelse)) =>
      existsb extends_in body || existsb extends_in orelse
  | NBlock _ body => existsb extends_in body
  | NContent _ | NVar _ | NComment _ => false
  end.

(** What a run of reductions does to the level, the base class and the
    list of classes of the state: with an [extends] tag in it ([ext]) the
    base class is the class of the next level, without one nothing
    changes. *)
Definition moved (ext : bool) (st st' : ParserState) : Prop :=
  level st' = level st
  ∧ if ext then base_class st' = parent_name st
    else base_class st' = base_class st ∧ module_body st' = module_body st.

Definition tracks (lp : string -> nat -> res (list ClassDef)) (n : node)
    : Prop :=
  forall st s st',
    Structure.reduce lp n st = Ok (s, st') -> moved (extends_in n) st st'.

(** A function as [build_function] makes it: its first statement yields
    the empty string. *)
Definition starts_empty (f : FunctionDef) : Prop :=
  exists body, fn_body f = build_yield (Str "") :: body.

Definition class_starts_empty (c : ClassDef) : Prop :=
  Forall starts_empty (class_defs (cls_body c)).

(** The functions of the state start as [build_function] makes them, and
    so do those of the classes of its parents. *)
Definition good_state (st : ParserState) : Prop :=
  Forall (fun kf => starts_empty kf.2) (functions st)
  ∧ Forall (fun r => match r with
                     | Parent c => class_starts_empty c
                     | Own => True
                     end) (module_body st).

Definition good_loader (lp : string -> nat -> res (list ClassDef)) : Prop :=
  forall filename lvl cs,
    lp filename lvl = Ok cs -> Forall class_starts_empty cs.

Definition keeps_good (lp : string -> nat -> res (list ClassDef)) (n : node)
    : Prop :=
  forall st s st',
    Structure.reduce lp n st = Ok (s, st') -> good_state st -> good_state st'.

(** *** On the expression grammar *)

Module GrammarSpec.
Import ExprParser ParserSpec.

(** The terminals of [_binop_mapping] and [_cmpop_mapping]. *)
Definition binary (t : toktype) : bool :=
  bool_decide (is_Some (_binop_mapping t))
  || bool_decide (is_Some (_cmpop_mapping t)).

(** The node that [expr_binop] or [expr_cmpop] builds for an operator. *)
Definition binary_node (lhs : expr) (op : token) (rhs : expr) : expr :=
  match expr_binop lhs op rhs, expr_cmpop lhs op rhs with
  | Some e, _ | None, Some e => e
  | None, None => lhs
  end.

(** The level of a token in the precedence table. *)
Definition level_of (t : token) : nat := snd (prec_of (gettokentype t)).

(** The terminals that some production of [pg] has: all but AND and OR,
    which only the precedence table names. *)
Definition in_grammar (t : toktype) : bool :=
  negb (bool_decide (t = AND) || bool_decide (t = OR)).

(** A function of the parser reads only terminals of the grammar: a token
    of its input is left in the rest or is one of them. *)
Definition leaves {A} (run : list token -> res (A * list token)) : Prop :=
  forall ts x r t,
    run ts = Ok (x, r) -> t ∈ ts ->
    t ∈ r ∨ in_grammar (gettokentype t) = true.

Definition leaves_at (f : nat) : Prop :=
  (forall minp, leaves (parse_expr f minp))
  ∧ (forall minp lhs, leaves (parse_loop f minp lhs))
  ∧ leaves (parse_call f)
  ∧ (forall acc, leaves (parse_args f acc))
  ∧ (forall acc kacc, leaves (parse_kwargs f acc kacc))
  ∧ leaves (parse_filter f).

(** A terminal at which an expression ends: none of those that the parser
    looks for after an operand or after a name. *)
Definition closes (t : toktype) : bool :=
  negb (is_operand_follower t) && negb (bool_decide (t = ASSIGN))
  && negb (bool_decide (t = COLON)).

(** The functions of the parser, at fuel [f], stop before [ext]. *)
Definition closed_at (ext : list token) (f : nat) : Prop :=
  (forall minp ts, grows ext (parse_expr f minp) ts)
  ∧ (forall minp lhs ts, grows ext (parse_loop f minp lhs) ts)
  ∧ (forall ts, grows ext (parse_call f) ts)
  ∧ (forall acc ts, grows ext (parse_args f acc) ts)
  ∧ (forall acc kacc ts, grows ext (parse_kwargs f acc kacc) ts)
  ∧ (forall ts, grows ext (parse_filter f) ts).

(** The tokens of an [arg_list]: those of its arguments, a COMMA between
    two of them. *)
Fixpoint arg_list (comma : token) (tss : list (list token)) : list token :=
  match tss with
  | [] => []
  | [ts] => ts
  | ts :: tss' => ts ++ comma :: arg_list comma tss'
  end.

(** The tokens of [.n1.n2...], after a first name. *)
Definition dotted (dot : string) (ns : list string) : list token :=
  flat_map (fun n => [Token DOT dot; Token NAME n]) ns.

End GrammarSpec.

(** * Properties *)

(** ** The tag argument splitter *)

Section SplitterFacts.

Lemma loop_app src a b s :
  loop src (a ++ b) s = (s' ← loop src a s; loop src b s').
Proof.
  revert s. induction a as [|c a IH]; intros s; simpl; [done|].
  destruct (step src s c) as [s1|e]; simpl; [apply IH|done].
Qed.

Lemma list_ascii_of_string_app a b :
  list_ascii_of_string (a +:+ b)
  = list_ascii_of_string a ++ list_ascii_of_string b.
Proof. induction a as [|c a IH]; simpl; [done|by rewrite IH]. Qed.


(** Inside a double-quoted stretch every character but the double quote
    and the backslash is copied, the space and the parentheses too. *)
Lemma loop_in_quotes src cs s :
  quote s = true -> escaped s = false ->
  dquote ∉ cs -> backslash ∉ cs ->
  loop src cs s
  = Ok (mk_st (args s) (current s ++ cs) false true (squote s) (parens s)).
Proof.
  revert s. induction cs as [|c cs IH]; intros [a cur e q sq p]; simpl;
    intros -> -> Hq Hb.
  - by rewrite app_nil_r.
  - apply not_elem_of_cons in Hq as [Hq1 Hq2].
    apply not_elem_of_cons in Hb as [Hb1 Hb2].
    unfold step; simpl.
    rewrite (bool_decide_eq_false_2 (c = dquote)) by congruence.
    assert (Hpush : forall s', quote s' = true -> escaped s' = false ->
              loop src cs (push c s')
              = Ok (mk_st (args s') (current s' ++ c :: cs) false true
                      (squote s') (parens s'))).
    { intros [a' cur' e' q' sq' p']; simpl; intros -> ->.
      unfold push; simpl. rewrite IH by done. simpl.
      by rewrite <- app_assoc. }
    repeat case_bool_decide; subst; simpl; try congruence;
      try (rewrite Hpush by done; done).
Qed.


Lemma step_backslash src s :
  escaped s = false ->
  step src s backslash
  = Ok (mk_st (args s) (current s) true (quote s) (squote s) (parens s)).
Proof. intros H. unfold step. rewrite H. reflexivity. Qed.

Lemma step_escaped src s c :
  escaped s = true ->
  step src s c
  = Ok (mk_st (args s) (current s ++ [backslash; c]) false
          (quote s) (squote s) (parens s)).
Proof. intros H. unfold step. by rewrite H. Qed.

End SplitterFacts.



(** C2, as the code has it. A backslash escapes the character after it:
    whatever that character is, it is copied into the current argument
    without splitting, quoting or counting as a parenthesis, and the
    backslash is kept in front of it. So [a\ b] is one argument, [a\ b]. *)
Theorem backslash_escape_is_kept src pre c post s :
  loop src pre init = Ok s ->
  escaped s = false ->
  loop src (pre ++ backslash :: c :: post) init
  = loop src post
      (mk_st (args s) (current s ++ [backslash; c]) false
             (quote s) (squote s) (parens s))
  ∧ split_tag_args_string "a\ b" = Ok ["a\ b"].
Proof.
  intros Hpre Hesc. split; [|reflexivity].
  rewrite loop_app, Hpre. cbn [mbind res_bind rbind loop].
  rewrite step_backslash by done. cbn [mbind res_bind rbind].
  by rewrite step_escaped.
Qed.

Lemma backslash_escape_is_kept_witness :
  loop "a\ b" (list_ascii_of_string "a" ++ backslash :: " "%char
               :: list_ascii_of_string "b") init
  = loop "a\ b" (list_ascii_of_string "b")
      (mk_st [] (list_ascii_of_string "a\ ") false false false 0).
Proof.
  exact (proj1 (backslash_escape_is_kept "a\ b" (list_ascii_of_string "a")
                  " "%char (list_ascii_of_string "b")
                  (mk_st [] (list_ascii_of_string "a") false false false 0)
                  eq_refl eq_refl)).
Defined.

(** C2 as stated fails: the escape character is not dropped. *)
Lemma backslash_not_dropped :
  split_tag_args_string "a\ b" <> Ok ["a b"].
Proof. vm_compute. congruence. Qed.

(** ** Rendering *)

Lemma lookup_global_context : lookup_global "context" = Ok (VBuiltin BContext).
Proof. reflexivity. Qed.
Lemma lookup_global_filters : lookup_global "filters" = Ok (VBuiltin BFilters).
Proof. reflexivity. Qed.
Lemma lookup_global_auto_escape :
  lookup_global "auto_escape" = Ok (VBuiltin BAutoEscape).
Proof. reflexivity. Qed.

(** Evaluation of the generated code, one step of computation after the
    other, the names of the collaborators resolved on the way. *)
Ltac py_step :=
  cbn -[insert lookup lookup_global];
  rewrite ?lookup_global_context, ?lookup_global_filters,
    ?lookup_global_auto_escape;
  cbn -[insert lookup lookup_global].

(** [render] on a module whose class [Template] and whose [root] are
    known. *)
Lemma render_unfold g fuel m ns cls fn (ctx : gmap string value) :
  exec_module [] m = Ok ns ->
  assoc_get "Template" ns = Some cls ->
  find_method cls "root" = Some fn ->
  render g fuel m ctx = exec_block g fuel cls (fn_body fn) (mk_state ctx []).
Proof.
  intros Hm Hns Hfn. unfold render, call_method. by rewrite Hm, Hns, Hfn.
Qed.

Lemma run_block_cons e s ss st :
  run_block e (s :: ss) st = run_bind (e s st) (run_block e ss).
Proof. reflexivity. Qed.

Lemma exec_yield g f self e st frag :
  eval g (context st) e = Ok (VStr frag) ->
  exec_stmt g (S f) self (Yield e) st
  = Done (mk_state (context st) (output st ++ [frag])).
Proof. intros H. cbn [exec_stmt]. by rewrite H. Qed.

Lemma exec_for g f self target iter body orelse st v items :
  eval g (context st) iter = Ok v ->
  iterate v = Ok items ->
  exec_stmt g (S f) self (For target iter body orelse) st
  = run_bind
      (run_for (fun v st1 => run_bind (assign g target v st1)
                               (run_block (exec_stmt g f self) body))
               items st)
      (run_block (exec_stmt g f self) orelse).
Proof. intros H1 H2. cbn [exec_stmt]. by rewrite H1; cbn [lift]; rewrite H2. Qed.

Lemma compile_for_empty n fs :
  compile (S n) fs for_empty_template = Ok for_empty_module.
Proof. reflexivity. Qed.

(** The loop of [for_empty_module]: every item is stored under [i] and
    its escaped text is yielded. *)
Lemma for_empty_loop g self k vs st :
  run_for
    (fun v st1 =>
       run_bind (assign g (Subscript (Name "context") (Str "i")) v st1)
         (run_block (exec_stmt g (S k) self)
            [Yield (Call (Name "auto_escape")
                      [Subscript (Name "context") (Str "i")] [])]))
    vs st
  = Done (mk_state (foldl (fun c v => <["i" := v]> c) (context st) vs)
            (output st ++ map (auto_escape g) vs)).
Proof.
  revert st. induction vs as [|v vs IH]; intros [ctx out]; cbn [run_for].
  - cbn. by rewrite app_nil_r.
  - py_step. rewrite lookup_insert_eq. py_step.
    rewrite IH. cbn -[insert]. by rewrite <- app_assoc.
Qed.

(** What [for_empty_module] renders: the items in order, and then the
    fragment of the [empty] branch, whatever the number of items. *)
Lemma render_for_empty g k vs (ctx : gmap string value) :
  ctx !! "items" = Some (VList vs) ->
  render g (S (S k)) for_empty_module ctx
  = Done (mk_state (foldl (fun c v => <["i" := v]> c) ctx vs)
            ("" :: map (auto_escape g) vs ++ ["none"])).
Proof.
  intros Hitems. erewrite render_unfold by reflexivity.
  unfold exec_block. cbn [fn_body]. rewrite run_block_cons.
  erewrite exec_yield by reflexivity. cbn [run_bind context output].
  rewrite run_block_cons.
  erewrite exec_for;
    [|cbn -[lookup]; rewrite lookup_global_context; cbn -[lookup];
      by rewrite Hitems|reflexivity].
  rewrite for_empty_loop. cbn [run_bind run_block context output].
  erewrite exec_yield by reflexivity. reflexivity.
Qed.

(** C1 at a list of two items: [{% for i in items %}{{ i }}{% empty
    %}none{% endfor %}] renders [none] for no item, as claimed, but also
    after the items of a list that is not empty, [12none] for the items 1
    and 2: the branch is the [orelse] suite of a Python [for] statement,
    which runs whenever the loop ends without [break]. *)
Theorem for_empty_branch_runs_after_items :
  compile 1 no_files for_empty_template = Ok for_empty_module
  ∧ rendered (render host 2 for_empty_module {["items" := VList []]})
    = Ok "none"
  ∧ rendered (render host 2 for_empty_module
                {["items" := VList [VInt 1; VInt 2]]})
    = Ok "12none".
Proof.
  split; [reflexivity|].
  split; erewrite render_for_empty by (by vm_compute); reflexivity.
Qed.

(** C9. A source without delimiters is one CONTENT token; the template
    compiles, and for every context its fragments are the empty leading
    fragment of [build_function] and the source itself, which join to the
    source unchanged; the context is left as it was. *)
Theorem plain_source_renders_unchanged
    (g : globals) (fs : files) (ctx : gmap string value) (s : string)
    (n k : nat) :
  exists m,
    compile (S n) fs (plain_source s) = Ok m
    ∧ render g (S k) m ctx = Done (mk_state ctx [""; s])
    ∧ rendered (render g (S k) m ctx) = Ok s.
Proof.
  exists [mk_ClassDef "Template" ["object"]
            [CDef (mk_FunctionDef "root" [Yield (Str ""); Yield (Str s)])]].
  assert (H : render g (S k)
                [mk_ClassDef "Template" ["object"]
                   [CDef (mk_FunctionDef "root" [Yield (Str ""); Yield (Str s)])]]
                ctx
              = Done (mk_state ctx [""; s])).
  { erewrite render_unfold by reflexivity. reflexivity. }
  split; [reflexivity|]. split; [exact H|]. rewrite H. reflexivity.
Qed.


(** ** The registration of blocks *)

Lemma first_clash_app seen l1 l2 :
  first_clash seen (l1 ++ l2)
  = match first_clash seen l1 with
    | Some x => Some x
    | None => first_clash (seen ++ l1) l2
    end.
Proof.
  revert seen. induction l1 as [|x l1 IH]; intros seen; simpl.
  - by rewrite app_nil_r.
  - case_bool_decide; [done|]. rewrite IH. by rewrite <- app_assoc.
Qed.

Lemma first_clash_none seen l :
  first_clash seen l = None <-> NoDup l ∧ (forall x, x ∈ l -> x ∉ seen).
Proof.
  revert seen. induction l as [|x l IH]; intros seen; simpl.
  - split; [intros _; split; [constructor|set_solver]|done].
  - case_bool_decide as Hx.
    + split; [done|]. intros [_ H]. exfalso. apply (H x); [left|done].
    + rewrite IH. rewrite NoDup_cons. split.
      * intros [Hnd Hdisj]. split; [split; [|done]|].
        -- intros Hin. apply (Hdisj x Hin). apply elem_of_app. right. by left.
        -- intros y Hy. apply elem_of_cons in Hy as [->|Hy]; [done|].
           intros Hin. apply (Hdisj y Hy). apply elem_of_app. by left.
      * intros [[Hx' Hnd] Hdisj]. split; [done|].
        intros y Hy Hin. apply elem_of_app in Hin as [Hin|Hin].
        -- apply (Hdisj y); [by right|done].
        -- apply list_elem_of_singleton in Hin. by subst.
Qed.

(** Induction on derivations, with the hypothesis for every symbol of a
    body. *)
Lemma node_induction (P : node -> Prop) :
  (forall t, P (NContent t)) ->
  (forall t, P (NVar t)) ->
  (forall c b o, Forall P b ->
     match o with Some ob => Forall P ob | None => True end -> P (NIf c b o)) ->
  (forall a b o, Forall P b ->
     match o with Some (_, ob) => Forall P ob | None => True end ->
     P (NFor a b o)) ->
  (forall a b, Forall P b -> P (NBlock a b)) ->
  (forall a, P (NExtends a)) ->
  (forall t, P (NComment t)) ->
  forall n, P n.
Proof.
  intros HC HV HI HF HB HE HM. fix IH 1.
  assert (Hall : forall l, Forall P l).
  { fix IHl 1. intros [|n l]; constructor; [apply IH|apply IHl]. }
  intros [t|t|c b o|a b o|a b|a|t].
  - apply HC.
  - apply HV.
  - apply HI; [apply Hall|]. destruct o; [apply Hall|done].
  - apply HF; [apply Hall|]. destruct o as [[? ?]|]; [apply Hall|done].
  - apply HB. apply Hall.
  - apply HE.
  - apply HM.
Qed.

Section Registration.
Context (lp : string -> nat -> res (list ClassDef)).

Lemma step_spec_bind {A B} ds1 ds2 ok1 ok2 st
    (m : res (A * ParserState)) (k : A * ParserState -> res (B * ParserState)) :
  step_spec ds1 ok1 st m ->
  (forall a st1, m = Ok (a, st1) -> level st1 = level st ->
     step_spec ds2 ok2 st1 (k (a, st1))) ->
  step_spec (ds1 ++ ds2) (ok1 && ok2) st (m ≫= k).
Proof.
  intros Hm Hk. destruct m as [[a st1]|e]; cbn.
  - destruct Hm as (Hn & Hl & Hk1 & Hb & Hc & Hnamed).
    specialize (Hk a st1 eq_refl Hl).
    unfold step_spec in *. destruct (k (a, st1)) as [[b st2]|e].
    + destruct Hk as (Hn2 & Hl2 & Hk2 & Hb2 & Hc2 & Hnamed2).
      rewrite first_clash_app, Hc, <- Hn, Hc2, Hn2, Hn.
      unfold parent_name in *. rewrite Hl in Hb2.
      split; [by rewrite app_assoc|]. split; [congruence|].
      split; [congruence|]. split; [|split; [done|auto]].
      destruct Hb as [Hb|Hb], Hb2 as [Hb2|Hb2]; rewrite Hb2; auto.
    + intros Hok. apply andb_true_iff in Hok as [_ Hok].
      destruct (Hk Hok) as (x & -> & Hx). exists x. split; [done|].
      by rewrite first_clash_app, Hc, <- Hn.
  - intros Hok. apply andb_true_iff in Hok as [Hok _].
    destruct (Hm Hok) as (x & -> & Hx). exists x. split; [done|].
    by rewrite first_clash_app, Hx.
Qed.

(** A production that does not touch the state. *)
Lemma step_spec_pure_if {A B} (r : res A) (f : A -> B) ok st :
  (ok = true -> is_ok r = true) ->
  step_spec [] ok st (a ← r; Ok (f a, st)).
Proof.
  intros H. destruct r as [a|e]; cbn.
  - rewrite app_nil_r. repeat split; auto.
  - intros Hok. by specialize (H Hok).
Qed.

Lemma step_spec_weaken {A} ds ds' ok ok' st (r : res (A * ParserState)) :
  ds = ds' -> (ok' = true -> ok = true) ->
  step_spec ds ok st r -> step_spec ds' ok' st r.
Proof.
  intros <- Hok H. destruct r as [[a st1]|e]; [done|].
  intros H'. apply H. auto.
Qed.

Lemma is_ok_var t :
  is_ok (Structure.var__varstart_CONTENT_varend t) = is_ok (parse_expression t).
Proof.
  unfold Structure.var__varstart_CONTENT_varend. by destruct (parse_expression t).
Qed.

Lemma is_ok_if__impl c b :
  is_ok (Structure.if__impl c b) = is_ok (parse_expression c).
Proof. unfold Structure.if__impl. by destruct (parse_expression c). Qed.

Lemma is_ok_if__else_impl c b o :
  is_ok (Structure.if__else_impl c b o) = is_ok (parse_expression c).
Proof. unfold Structure.if__else_impl. by destruct (parse_expression c). Qed.

Lemma is_ok_for__impl a b :
  is_ok (Structure.for__impl a b) = is_ok (Structure.for__impl a []).
Proof.
  unfold Structure.for__impl.
  destruct (split_tag_args_string a) as [[|t [|i [|v [|? ?]]]]|e]; cbn; try done.
  case_bool_decide; [done|]. by destruct (parse_expression v).
Qed.

Lemma is_ok_for__else_impl a b o :
  is_ok (Structure.for__else_impl a b o) = is_ok (Structure.for__impl a []).
Proof.
  unfold Structure.for__else_impl, Structure.for__impl.
  destruct (split_tag_args_string a) as [[|t [|i [|v [|? ?]]]]|e]; cbn; try done.
  case_bool_decide; [done|]. by destruct (parse_expression v).
Qed.

Lemma add_function_spec st name f :
  fn_name f = name ->
  step_spec [name] true st (st' ← add_function st name f; Ok (tt, st')).
Proof.
  intros Hf. unfold add_function, step_spec. case_bool_decide as Hin; cbn.
  - intros _. exists name. by rewrite bool_decide_eq_true_2.
  - rewrite bool_decide_eq_false_2 by done.
    unfold names, named; cbn. rewrite fmap_app. repeat split; auto.
    intros H. apply Forall_app. split; [done|]. by constructor.
Qed.

Lemma block_spec st args b :
  step_spec (block_name args) (negb (bool_decide (block_name args = [])))
    st (Structure.block__impl st args b).
Proof.
  unfold Structure.block__impl, block_name.
  destruct (split_tag_args_string args) as [[|name [|? ?]]|e];
    cbn [mbind res_bind rbind].
  - intros H. by rewrite bool_decide_eq_true_2 in H.
  - pose proof (add_function_spec st name (build_function name b) eq_refl) as H.
    destruct (add_function st name (build_function name b)) as [st'|e];
      cbn in *; [done|]. intros _. by apply H.
  - intros H. by rewrite bool_decide_eq_true_2 in H.
  - intros H. by rewrite bool_decide_eq_true_2 in H.
Qed.

Lemma extends_spec st args :
  step_spec []
    match split_tag_args_string args with
    | Ok [filename] => is_ok (lp filename (S (level st)))
    | _ => false
    end
    st (Structure.extends__impl lp st args).
Proof.
  unfold Structure.extends__impl.
  destruct (split_tag_args_string args) as [[|f [|? ?]]|e]; cbn; try done.
  destruct (lp f (S (level st))) as [cs|e]; cbn; [|done].
  rewrite app_nil_r. repeat split; auto.
Qed.

Ltac andb_solver :=
  unfold all_well_formed; rewrite ?andb_true_iff; tauto.

Lemma inner_rest_spec items :
  Forall (reduce_spec lp) items ->
  forall acc st,
    step_spec (flat_map defs items)
      (forallb (well_formed lp (level st)) items) st
      (Structure.inner_rest (Structure.reduce lp) acc items st).
Proof.
  induction 1 as [|n items Hn _ IH]; intros acc st; cbn.
  - rewrite app_nil_r. repeat split; auto.
  - apply step_spec_bind; [apply Hn|].
    intros s st1 _ Hl. rewrite <- Hl. apply IH.
Qed.

Lemma inner_spec items :
  Forall (reduce_spec lp) items ->
  forall st,
    step_spec (flat_map defs items) (all_well_formed lp (level st) items) st
      (Structure.inner (Structure.reduce lp) items st).
Proof.
  intros H st. unfold all_well_formed. destruct H as [|n items Hn H].
  - rewrite bool_decide_eq_true_2 by done. cbn. done.
  - rewrite bool_decide_eq_false_2 by done.
    cbn [Structure.inner flat_map forallb negb andb].
    apply step_spec_bind; [apply Hn|].
    intros s st1 _ Hl. rewrite <- Hl. by apply inner_rest_spec.
Qed.

Lemma inner_spec_at items lvl st :
  Forall (reduce_spec lp) items ->
  level st = lvl ->
  step_spec (flat_map defs items) (all_well_formed lp lvl items) st
    (Structure.inner (Structure.reduce lp) items st).
Proof. intros H <-. by apply inner_spec. Qed.

(** The reductions below a symbol register its blocks in order; with
    well-formed tags they fail only at the first name that clashes. *)
Lemma reduce_registers n : reduce_spec lp n.
Proof.
  induction n as [t|t|c b o Hb Ho|a b o Hb Ho|a b Hb|a|t] using node_induction;
    intros st; cbn [Structure.reduce defs well_formed].
  - cbn. rewrite app_nil_r. repeat split; auto.
  - apply step_spec_pure_if. by rewrite is_ok_var.
  - destruct o as [ob|].
    + eapply (step_spec_weaken _ _
                (all_well_formed lp (level st) b
                 && (all_well_formed lp (level st) ob
                     && is_ok (parse_expression c)))).
      3:{ apply step_spec_bind; [by apply inner_spec|].
          intros b' st1 _ Hl. apply step_spec_bind; [by apply inner_spec_at|].
          intros o' st2 _ _. apply step_spec_pure_if.
          by rewrite is_ok_if__else_impl. }
      { by rewrite ?app_nil_r. }
      andb_solver.
    + eapply (step_spec_weaken _ _
                (all_well_formed lp (level st) b && is_ok (parse_expression c))).
      3:{ apply step_spec_bind; [by apply inner_spec|].
          intros b' st1 _ Hl. apply step_spec_pure_if.
          by rewrite is_ok_if__impl. }
      { apply app_nil_r. }
      andb_solver.
  - destruct o as [[kw ob]|].
    + eapply (step_spec_weaken _ _
                (all_well_formed lp (level st) b
                 && (all_well_formed lp (level st) ob
                     && is_ok (Structure.for__impl a [])))).
      3:{ apply step_spec_bind; [by apply inner_spec|].
          intros b' st1 _ Hl. apply step_spec_bind; [by apply inner_spec_at|].
          intros o' st2 _ _. apply step_spec_pure_if.
          by rewrite is_ok_for__else_impl. }
      { by rewrite ?app_nil_r. }
      andb_solver.
    + eapply (step_spec_weaken _ _
                (all_well_formed lp (level st) b
                 && is_ok (Structure.for__impl a []))).
      3:{ apply step_spec_bind; [by apply inner_spec|].
          intros b' st1 _ Hl. apply step_spec_pure_if.
          by rewrite (is_ok_for__impl a b'). }
      { by rewrite ?app_nil_r. }
      andb_solver.
  - eapply (step_spec_weaken _ _
              (all_well_formed lp (level st) b
               && (negb (bool_decide (block_name a = [])) && true))).
    3:{ apply step_spec_bind; [by apply inner_spec|].
        intros b' st1 _ Hl. apply step_spec_bind; [apply block_spec|].
        intros v st2 _ _. by apply (step_spec_pure_if (Ok v) SParsed). }
    { by rewrite ?app_nil_r. }
    andb_solver.
  - eapply (step_spec_weaken _ _ (_ && true)).
    3:{ apply step_spec_bind; [apply extends_spec|].
        intros v st1 _ _. by apply (step_spec_pure_if (Ok v) SParsed). }
    { done. }
    andb_solver.
  - cbn. rewrite app_nil_r. repeat split; auto.
Qed.

Lemma names_append_body name v fs fs' :
  append_body name v fs = Some fs' ->
  fs'.*1 = fs.*1 ∧ (Forall (fun kf => fn_name kf.2 = kf.1) fs ->
                     Forall (fun kf => fn_name kf.2 = kf.1) fs').
Proof.
  revert fs'. induction fs as [|[k f] fs IH]; intros fs'; cbn; [done|].
  case_bool_decide as Hk.
  - intros [= <-]. cbn. split; [done|]. intros Hall. inversion Hall; subst.
    by constructor.
  - destruct (append_body name v fs) as [fs''|]; cbn; [|done].
    intros [= <-]. destruct (IH _ eq_refl) as [IH1 IH2]. cbn.
    split; [by rewrite IH1|]. intros Hall. inversion Hall; subst.
    constructor; auto.
Qed.

Lemma append_body_is_Some name v fs :
  name ∈ fs.*1 -> is_Some (append_body name v fs).
Proof.
  induction fs as [|[k f] fs IH]; cbn; [by intros ?%elem_of_nil|].
  intros Hin. case_bool_decide as Hk; [done|].
  apply elem_of_cons in Hin as [->|Hin]; [done|].
  destruct (IH Hin) as [fs' ->]. done.
Qed.

(** [append_to_block] needs the function [root], and [build_class] has
    registered it by then. *)
Lemma append_to_block_spec st v :
  "root" ∈ names st ->
  step_spec [] true st (st' ← append_to_block st v; Ok (tt, st')).
Proof.
  intros Hin. unfold append_to_block.
  destruct (append_body_is_Some "root" v (functions st) Hin) as [fs' Hfs].
  rewrite Hfs. cbn. apply names_append_body in Hfs as [H1 H2].
  unfold names, named. cbn. rewrite app_nil_r. repeat split; auto.
Qed.

Lemma doc_next_spec st s :
  "root" ∈ names st ->
  step_spec [] true st (st' ← Structure.doc_next st s; Ok (tt, st')).
Proof.
  intros Hin. destruct s as [t|v|v]; cbn [Structure.doc_next];
    [by apply append_to_block_spec..|].
  cbn. rewrite app_nil_r. repeat split; auto.
Qed.

Lemma doc_rest_spec items :
  forall st,
    "root" ∈ names st ->
    step_spec (flat_map defs items)
      (forallb (well_formed lp (level st)) items) st
      (st' ← Structure.doc_rest lp items st; Ok (tt, st')).
Proof.
  induction items as [|n items IH]; intros st Hin; cbn.
  - rewrite app_nil_r. repeat split; auto.
  - pose proof (reduce_registers n st) as Hn.
    destruct (Structure.reduce lp n st) as [[s st1]|e]; cbn.
    2:{ intros Hok. apply andb_true_iff in Hok as [Hok _].
        destruct (Hn Hok) as (x & -> & Hx). exists x.
        by rewrite first_clash_app, Hx. }
    destruct Hn as (Hn & Hl & Hk & Hb & Hc & Hnamed).
    assert (Hin1 : "root" ∈ names st1).
    { rewrite Hn. apply elem_of_app. by left. }
    pose proof (doc_next_spec st1 s Hin1) as Hd.
    destruct (Structure.doc_next st1 s) as [st2|e]; cbn in Hd |- *.
    2:{ intros _. destruct (Hd eq_refl) as (x & _ & Hx). done. }
    destruct Hd as (Hn2 & Hl2 & Hk2 & Hb2 & _ & Hnamed2).
    rewrite app_nil_r in Hn2.
    assert (Hin2 : "root" ∈ names st2) by by rewrite Hn2.
    specialize (IH st2 Hin2). rewrite Hl2, Hl in IH.
    destruct (Structure.doc_rest lp items st2) as [st3|e]; cbn in IH |- *.
    + destruct IH as (Hn3 & Hl3 & Hk3 & Hb3 & Hc3 & Hnamed3).
      rewrite first_clash_app, Hc, <- Hn, <- Hn2, Hc3, Hn3, Hn2, Hn.
      unfold parent_name in *. rewrite Hl2, Hl in Hb3. rewrite Hl in Hb2.
      split; [by rewrite app_assoc|]. split; [congruence|].
      split; [congruence|]. split; [|auto].
      destruct Hb as [Hb|Hb], Hb2 as [Hb2|Hb2], Hb3 as [Hb3|Hb3];
        rewrite Hb3; auto; rewrite Hb2; auto.
    + intros Hok. apply andb_true_iff in Hok as [_ Hok].
      destruct (IH Hok) as (x & -> & Hx). exists x. split; [done|].
      by rewrite first_clash_app, Hc, <- Hn, <- Hn2.
Qed.

Lemma doc_first_spec st s :
  match Structure.doc_first st s with
  | Ok (doc, st') =>
      ("root" ∉ names st)
      ∧ doc = module_body st ++ [Own]
      ∧ names st' = names st ++ ["root"]
      ∧ level st' = level st
      ∧ klass st' = Some (mk_ClassDef (class_name st) [] [])
      ∧ base_class st' = base_class st
      ∧ (named st -> named st')
  | Err e => e = DuplicateBlockError "root" ∧ "root" ∈ names st
  end.
Proof.
  unfold Structure.doc_first, build_class, add_function.
  cbn [names functions]. case_bool_decide as Hin; cbn [mbind res_bind rbind];
    [done|].
  unfold append_to_block. cbn [functions level base_class klass module_body].
  match goal with |- context [append_body "root" ?v ?fs] =>
    destruct (append_body_is_Some "root" v fs) as [fs' Hfs] end.
  { rewrite fmap_app. apply elem_of_app. right. by left. }
  rewrite Hfs. cbn. apply names_append_body in Hfs as [H1 H2].
  unfold names, named. cbn. rewrite H1, fmap_app. repeat split; auto.
  intros Hall. apply H2. apply Forall_app. split; [done|]. by constructor.
Qed.

(** One parse, from the initial state of a level: the names it registers
    are those of [registration_order], and with well-formed tags it fails
    only at the first of them that clashes. *)
Lemma parse_spec lvl n r :
  match Structure.parse lp (n :: r) (ParserState_init lvl) with
  | Ok (doc, st) =>
      names st = registration_order (n :: r)
      ∧ first_clash [] (registration_order (n :: r)) = None
      ∧ level st = lvl
      ∧ klass st = Some (mk_ClassDef (class_name (ParserState_init lvl)) [] [])
      ∧ named st
      ∧ exists s st1,
          Structure.reduce lp n (ParserState_init lvl) = Ok (s, st1)
          ∧ doc = module_body st1 ++ [Own]
          ∧ (base_class st = base_class st1
             ∨ base_class st = parent_name (ParserState_init lvl))
  | Err e =>
      forallb (well_formed lp lvl) (n :: r) = true ->
      exists x, e = DuplicateBlockError x
                ∧ first_clash [] (registration_order (n :: r)) = Some x
  end.
Proof.
  set (st0 := ParserState_init lvl).
  cbn [Structure.parse registration_order forallb].
  pose proof (reduce_registers n st0) as Hn. unfold step_spec in Hn.
  change (names st0) with (@nil string) in Hn. cbn [app] in Hn.
  destruct (Structure.reduce lp n st0) as [[s st1]|e]; cbn [mbind res_bind rbind].
  2:{ intros Hok. apply andb_true_iff in Hok as [Hok _].
      destruct (Hn Hok) as (x & -> & Hx). exists x.
      by rewrite first_clash_app, Hx. }
  destruct Hn as (Hn & Hl & Hk & Hb & Hc & Hnamed).
  pose proof (doc_first_spec st1 s) as Hd.
  destruct (Structure.doc_first st1 s) as [[doc st2]|e];
    cbn [mbind res_bind rbind].
  2:{ intros _. destruct Hd as [-> Hin]. exists "root". split; [done|].
      rewrite first_clash_app, Hc. cbn [app first_clash].
      rewrite <- Hn. by rewrite bool_decide_eq_true_2. }
  destruct Hd as (Hnin & -> & Hn2 & Hl2 & Hk2 & Hb2 & Hnamed2).
  assert (Hin2 : "root" ∈ names st2).
  { rewrite Hn2. apply elem_of_app. right. by left. }
  pose proof (doc_rest_spec r st2 Hin2) as Hr.
  assert (Hfc : first_clash [] (defs n ++ "root" :: flat_map defs r)
                = first_clash (names st2) (flat_map defs r)).
  { rewrite first_clash_app, Hc. cbn [app first_clash].
    rewrite <- Hn, bool_decide_eq_false_2 by done. by rewrite Hn2. }
  rewrite Hfc.
  destruct (Structure.doc_rest lp r st2) as [st3|e]; cbn in Hr |- *.
  - destruct Hr as (Hn3 & Hl3 & Hk3 & Hb3 & Hc3 & Hnamed3).
    split; [by rewrite Hn3, Hn2, Hn, <- app_assoc|]. split; [done|].
    split; [by rewrite Hl3, Hl2, Hl|].
    split; [rewrite Hk3, Hk2; unfold class_name; by rewrite Hl|].
    split; [apply Hnamed3, Hnamed2, Hnamed; constructor|].
    exists s, st1. split; [done|]. split; [done|].
    unfold parent_name in *. rewrite Hl2, Hl in Hb3.
    destruct Hb3 as [->| ->]; auto.
  - intros Hok. apply andb_true_iff in Hok as [_ Hok].
    rewrite Hl2, Hl in Hr. by apply Hr.
Qed.

End Registration.

Lemma first_clash_prefix p x s :
  NoDup p -> x ∈ p -> first_clash [] (p ++ x :: s) = Some x.
Proof.
  intros Hnd Hx. rewrite first_clash_app.
  assert (first_clash [] p = None) as ->.
  { apply first_clash_none. split; [done|]. intros y _ Hy. inversion Hy. }
  cbn. by rewrite bool_decide_eq_true_2.
Qed.

(** A name that [build_class] registers between the blocks does not hide
    the clash of two blocks. *)
Lemma first_clash_insert A B P x s root :
  A ++ B = P ++ x :: s ->
  NoDup P -> x ∈ P -> root ∉ P ->
  first_clash [] (A ++ root :: B) = Some x.
Proof.
  intros Heq Hnd Hx Hroot.
  apply app_eq_inv in Heq as [(k & -> & Hk)|(k & -> & ->)].
  - destruct k as [|y k]; cbn in Hk.
    + subst B. rewrite app_nil_r.
      replace (P ++ root :: x :: s) with ((P ++ [root]) ++ x :: s)
        by (by rewrite <- app_assoc).
      apply first_clash_prefix.
      * apply NoDup_app. split; [done|]. split; [|apply NoDup_singleton].
        intros y Hy ->%list_elem_of_singleton. done.
      * apply elem_of_app. by left.
    + injection Hk as <- ->. rewrite <- app_assoc. cbn.
      by apply first_clash_prefix.
  - replace (A ++ root :: k ++ x :: s) with ((A ++ root :: k) ++ x :: s)
      by (by rewrite <- app_assoc).
    apply NoDup_app in Hnd as (HA & Hdisj & Hk).
    apply first_clash_prefix.
    + apply NoDup_app. split; [done|]. split.
      * intros y Hy [->|Hy']%elem_of_cons.
        -- apply Hroot. apply elem_of_app. by left.
        -- by apply (Hdisj y).
      * apply NoDup_cons. split; [|done].
        intros Hin. apply Hroot. apply elem_of_app. by right.
    + apply elem_of_app in Hx as [Hx|Hx]; apply elem_of_app;
        [by left|right; by right].
Qed.

(** The one block named [root] clashes with the root function. *)
Lemma first_clash_root A B :
  "root" ∈ A ++ B -> NoDup (A ++ B) ->
  first_clash [] (A ++ "root" :: B) = Some "root".
Proof.
  intros Hin Hnd. apply NoDup_app in Hnd as (HA & Hdisj & HB).
  destruct (decide ("root" ∈ A)) as [HinA|HninA].
  - by apply first_clash_prefix.
  - apply elem_of_app in Hin as [Hin|Hin]; [done|].
    apply list_elem_of_split_l in Hin as (b1 & b2 & -> & Hb1).
    replace (A ++ "root" :: b1 ++ "root" :: b2)
      with ((A ++ "root" :: b1) ++ "root" :: b2) by (by rewrite <- app_assoc).
    apply first_clash_prefix.
    + apply NoDup_app. split; [done|]. split.
      * intros y Hy [->|Hy']%elem_of_cons; [done|].
        apply (Hdisj y Hy). apply elem_of_app. by left.
      * apply NoDup_cons. split; [done|].
        by apply NoDup_app in HB as (? & _ & _).
    + apply elem_of_app. right. by left.
Qed.

Lemma compile_at_unfold f fs lvl items :
  compile_at (S f) fs lvl items
  = ('(doc, st) ← Structure.parse (loader f fs) items (ParserState_init lvl);
     st' ← finalize st; Ok (resolve st' doc)).
Proof. reflexivity. Qed.

(** With well-formed tags, compilation fails with the first name that
    clashes in the order of registration. *)
Lemma compile_at_clash f fs lvl items x :
  forallb (well_formed (loader f fs) lvl) items = true ->
  first_clash [] (registration_order items) = Some x ->
  compile_at (S f) fs lvl items = Err (DuplicateBlockError x).
Proof.
  intros Hwf Hx. rewrite compile_at_unfold.
  destruct items as [|n r]; [done|].
  pose proof (parse_spec (loader f fs) lvl n r) as H.
  destruct (Structure.parse _ _ _) as [[doc st]|e]; cbn.
  - destruct H as (_ & Hnone & _). congruence.
  - destruct (H Hwf) as (y & -> & Hy). congruence.
Qed.

(** A template that compiles has registered distinct names: its blocks
    have distinct names, and none is named [root]. *)
Lemma compile_at_distinct f fs lvl items m :
  compile_at f fs lvl items = Ok m ->
  NoDup (block_names items) ∧ "root" ∉ block_names items.
Proof.
  destruct f as [|f]; [done|]. rewrite compile_at_unfold.
  destruct items as [|n r]; [done|].
  pose proof (parse_spec (loader f fs) lvl n r) as H.
  destruct (Structure.parse _ _ _) as [[doc st]|e]; cbn; [|done].
  intros _. destruct H as (_ & Hnone & _).
  apply first_clash_none in Hnone as [Hnd _].
  cbn [registration_order] in Hnd. unfold block_names. cbn [flat_map].
  rewrite <- Permutation_middle in Hnd. by apply NoDup_cons in Hnd as [? ?].
Qed.

(** C6. A template that defines two blocks of one name [x] at its level
    never compiles. When its tags are well formed, so that no other
    production raises first, and the names registered before the second
    [x] are distinct and none of them the reserved [root], the failure is
    the duplicate-block error that names [x], which [add_function] raises
    when the second block is registered. *)
Theorem duplicate_block_is_rejected f fs items l1 l2 l3 x :
  block_names items = l1 ++ x :: l2 ++ x :: l3 ->
  (forall m, compile f fs items <> Ok m)
  ∧ (forallb (well_formed (loader f fs) 0) items = true ->
     NoDup (l1 ++ x :: l2) ->
     "root" ∉ l1 ++ x :: l2 ->
     compile (S f) fs items = Err (DuplicateBlockError x)).
Proof.
  intros Hnames. split.
  - intros m Hm. apply compile_at_distinct in Hm as [Hnd _].
    rewrite Hnames in Hnd. apply NoDup_app in Hnd as (_ & _ & Hnd).
    apply NoDup_cons in Hnd as [Hx _]. apply Hx.
    apply elem_of_app. right. by left.
  - intros Hwf Hnd Hroot. apply compile_at_clash; [done|].
    destruct items as [|n r]; [by destruct l1|].
    cbn [registration_order]. unfold block_names in Hnames. cbn in Hnames.
    apply (first_clash_insert _ _ (l1 ++ x :: l2) x l3); try done.
    + by rewrite Hnames, <- app_assoc.
    + apply elem_of_app. right. by left.
Qed.

Lemma duplicate_block_is_rejected_witness :
  compile 1 no_files
    [NBlock "x" [NContent "a"]; NContent "-"; NBlock "x" [NContent "b"]]
  = Err (DuplicateBlockError "x").
Proof.
  apply (duplicate_block_is_rejected 0 no_files _ [] [] [] "x").
  - by vm_compute.
  - by vm_compute.
  - apply NoDup_singleton.
  - by intros ?%list_elem_of_singleton.
Defined.

(** C10. A template that defines a block named [root] never compiles:
    [build_class] registers the root function under the name [root] in the
    dictionary of the blocks. When its tags are well formed and its block
    names are distinct (one block named [root], and no other clash), the
    failure is the duplicate-block error that names [root], raised at the
    second registration of that name. *)
Theorem root_block_is_rejected f fs items :
  "root" ∈ block_names items ->
  (forall m, compile f fs items <> Ok m)
  ∧ (forallb (well_formed (loader f fs) 0) items = true ->
     NoDup (block_names items) ->
     compile (S f) fs items = Err (DuplicateBlockError "root")).
Proof.
  intros Hin. split.
  - intros m Hm. by apply compile_at_distinct in Hm as [_ Hroot].
  - intros Hwf Hnd. apply compile_at_clash; [done|].
    destruct items as [|n r]; [by apply elem_of_nil in Hin|].
    cbn [registration_order]. by apply first_clash_root.
Qed.

Lemma root_block_is_rejected_witness :
  compile 1 no_files [NContent "a"; NBlock "root" [NContent "b"]]
  = Err (DuplicateBlockError "root")
  ∧ compile 1 no_files [NBlock "root" [NContent "b"]]
    = Err (DuplicateBlockError "root").
Proof.
  split.
  - apply (root_block_is_rejected 0 no_files
             [NContent "a"; NBlock "root" [NContent "b"]]).
    + by left.
    + by vm_compute.
    + apply NoDup_singleton.
  - apply (root_block_is_rejected 0 no_files [NBlock "root" [NContent "b"]]).
    + by left.
    + by vm_compute.
    + apply NoDup_singleton.
Defined.

(** ** What a render writes into the context *)

Section Frame.
Context (g : globals) (k : string).










End Frame.




(** ** The expression parser under more fuel and more input *)

Module ParserFacts.
Import ExprParser ParserSpec.

Ltac triv := solve [cbn; intros; first [assumption | discriminate]].

Lemma parse_lookup_name_mono f f' acc ts r :
  (f <= f')%nat -> parse_lookup_name f acc ts = Ok r -> parse_lookup_name f' acc ts = Ok r.
Proof.
  revert f' acc ts. induction f as [|f IH]; intros f' acc ts Hle; [done|].
  destruct f' as [|f']; [lia|]. cbn.
  destruct ts as [|[[] s] ts]; try done.
  destruct ts as [|[[] s'] ts]; try done.
  apply IH. lia.
Qed.

(** More fuel does not change a result of the parser. *)
Lemma parse_fuel_mono f : mono_at f.
Proof.
  induction f as [|f IH]; intros f' Hle.
  { repeat split; intros; discriminate. }
  destruct f' as [|f']; [lia|].
  assert (Hle' : (f <= f')%nat) by lia. specialize (IH f' Hle').
  destruct IH as (IHe & IHl & IHc & IHa & IHk & IHf).
  repeat split.
  - intros minp ts r. cbn [parse_expr].
    destruct ts as [|t ts]; [triv|].
    destruct t as [ty s]. destruct ty; cbn [mbind res_bind rbind];
    try (destruct (literal _) as [e|]; cbn [mbind res_bind rbind]; [apply IHl|triv]).
    destruct (parse_expr f 0 ts) as [[e ts2]|] eqn:E; [|triv].
    rewrite (IHe _ _ _ E). cbn.
    destruct ts2 as [|[[] ?] ?]; try triv. apply IHl.
  - intros minp lhs ts r. cbn [parse_loop].
    destruct ts as [|[ty s] ts]; [triv|]. cbn [gettokentype].
    destruct (is_operand_follower ty && shifts minp ty); [|triv].
    destruct ty; cbn [mbind res_bind rbind];
      try (destruct (parse_expr f _ ts) as [[rhs ts2]|] eqn:E; [|triv];
           rewrite (IHe _ _ _ E); cbn [mbind res_bind rbind];
           unfold expr_binop, expr_cmpop; cbn; first [apply IHl|triv]).
    + (* PIPE *)
      destruct (parse_filter f ts) as [[fv ts2]|] eqn:E; [|triv].
      rewrite (IHf _ _ E). cbn. apply IHl.
    + (* LSQB *)
      destruct (parse_expr f 0 ts) as [[e ts2]|] eqn:E; [|triv].
      rewrite (IHe _ _ _ E). cbn.
      destruct ts2 as [|[[] ?] ?]; try triv. apply IHl.
    + (* DOT *)
      destruct ts as [|[[] ?] ?]; try triv. apply IHl.
    + (* LPAREN *)
      destruct (parse_call f ts) as [[[a k] ts2]|] eqn:E; [|triv].
      rewrite (IHc _ _ E). cbn. apply IHl.
  - intros ts r. cbn [parse_call].
    destruct ts as [|[[] ?] ?]; try triv; apply IHa.
  - intros acc ts r. cbn [parse_args].
    assert (Hexpr : (parse_expr f 0 ts ≫= λ '(e, ts1),
              match ts1 with
              | {| gettokentype := COMMA |} :: ts2 => parse_args f (acc ++ [e]) ts2
              | {| gettokentype := RPAREN |} :: ts2 => Ok (acc ++ [e], [], ts2)
              | _ => error
              end) = Ok r ->
            (parse_expr f' 0 ts ≫= λ '(e, ts1),
              match ts1 with
              | {| gettokentype := COMMA |} :: ts2 => parse_args f' (acc ++ [e]) ts2
              | {| gettokentype := RPAREN |} :: ts2 => Ok (acc ++ [e], [], ts2)
              | _ => error
              end) = Ok r).
    { destruct (parse_expr f 0 ts) as [[e ts2]|] eqn:E; [|triv].
      rewrite (IHe _ _ _ E). cbn.
      destruct ts2 as [|[[] ?] ?]; try triv. apply IHa. }
    destruct ts as [|[[] ?] ts]; try exact Hexpr.
    destruct ts as [|[[] ?] ts]; try exact Hexpr.
    apply IHk.
  - intros acc kacc ts r. cbn [parse_kwargs].
    destruct ts as [|[[] ?] ts]; try triv.
    destruct ts as [|[[] ?] ts]; try triv.
    destruct (parse_expr f _ ts) as [[e ts2]|] eqn:E; [|triv].
    rewrite (IHe _ _ _ E). cbn.
    destruct ts2 as [|[[] ?] ?]; try triv. apply IHk.
  - intros ts r. cbn [parse_filter].
    destruct ts as [|[[] ?] ts]; try triv.
    destruct (parse_lookup_name f _ ts) as [[filt ts2]|] eqn:E; [|triv].
    rewrite (parse_lookup_name_mono f f' _ _ _ Hle' E). cbn.
    destruct ts2 as [|[[] ?] ts2]; try triv.
    destruct (parse_call f ts2) as [[[a k] ts4]|] eqn:E2; [|triv].
    by rewrite (IHc _ _ E2).
Qed.

Section Ext.
Context (p : string) (tl : list token) (fv : filter_val).
Context (Hfilter : forall f, parse_filter (S (S f)) tl = Ok (fv, [])).
Abbreviation ext := (Token PIPE p :: tl).

Lemma parse_lookup_name_ext f acc ts filt r :
  parse_lookup_name f acc ts = Ok (filt, r) ->
  parse_lookup_name f acc (ts ++ ext) = Ok (filt, r ++ ext).
Proof.
  revert acc ts. induction f as [|f IH]; intros acc ts; [done|]. cbn.
  destruct ts as [|[[] s] ts]; cbn; try (intros [= <- <-]; done).
  destruct ts as [|[[] s'] ts]; cbn; try triv.
  apply IH.
Qed.

(** The parser on an input followed by the tokens of a filter. *)
Lemma parse_expr_suffix f : ext_at ext fv f.
Proof.
  induction f as [|f (IHe & IHl & IHc & IHa & IHk & IHf)].
  { repeat split; intros; discriminate. }
  assert (Hmono := parse_fuel_mono f (f + 2)%nat ltac:(lia)).
  destruct Hmono as (Me & Ml & Mc & Ma & Mk & Mf).
  split; [|split; [|split; [|split; [|split]]]].
  - (* parse_expr *)
    intros minp ts e r. replace (S f + 2)%nat with (S (f + 2)) by lia.
    cbn [parse_expr].
    destruct ts as [|[ty s] ts]; [triv|].
    destruct ty; cbn [app mbind res_bind rbind];
      try (destruct (literal _) as [e0|]; cbn [mbind res_bind rbind];
           [apply IHl|triv]).
    (* LPAREN *)
    destruct (parse_expr f 0 ts) as [[e1 ts2]|] eqn:E; [|triv].
    cbn [mbind res_bind rbind].
    destruct ts2 as [|[ty2 s2] ts3]; [triv|].
    assert (E' : parse_expr f 0 (ts ++ ext)
                 = Ok (e1, ({| gettokentype := ty2; getstr := s2 |} :: ts3) ++ ext)).
    { apply (IHe 0%nat ts e1 _ E). by left. }
    rewrite E', (Me _ _ _ E'). cbn [mbind res_bind rbind app].
    destruct ty2; try triv. apply IHl.
  - (* parse_loop *)
    intros minp lhs ts e r. replace (S f + 2)%nat with (S (f + 2)) by lia.
    cbn [parse_loop].
    destruct ts as [|[ty s] ts1].
    { intros [= <- <-]. split.
      - intros [?|Hs]; [done|]. cbn. by rewrite Hs.
      - intros _ Hs. replace (f + 2)%nat with (S (S f)) by lia.
        cbn [app parse_loop gettokentype]. rewrite Hs. cbn [andb is_operand_follower].
        rewrite Hfilter. cbn [mbind res_bind rbind]. reflexivity. }
    cbn [gettokentype app].
    destruct (is_operand_follower ty && shifts minp ty) eqn:Hcond.
    2:{ intros [= <- <-]. split; [done|done]. }
    destruct ty; try (cbn in Hcond; discriminate Hcond);
      cbn [mbind res_bind rbind];
      try (destruct (parse_expr f _ ts1) as [[rhs ts2]|] eqn:E; [|triv];
           match type of E with
           | parse_expr f ?lvl ts1 = _ =>
               assert (E' : parse_expr f lvl (ts1 ++ ext) = Ok (rhs, ts2 ++ ext))
                 by (apply (IHe lvl ts1 rhs _ E); by right)
           end;
           rewrite E', (Me _ _ _ E'); cbn [mbind res_bind rbind];
           unfold expr_binop, expr_cmpop; cbn; apply IHl).
    + (* PIPE *)
      destruct (parse_filter f ts1) as [[fv' ts2]|] eqn:E; [|triv].
      pose proof (IHf _ _ _ E) as E'.
      rewrite E', (Mf _ _ E'). cbn [mbind res_bind rbind]. apply IHl.
    + (* LSQB *)
      destruct (parse_expr f 0 ts1) as [[e1 ts2]|] eqn:E; [|triv].
      cbn [mbind res_bind rbind].
      destruct ts2 as [|[ty2 s2] ts3]; [triv|].
      assert (E' : parse_expr f 0 (ts1 ++ ext)
                   = Ok (e1, ({| gettokentype := ty2; getstr := s2 |} :: ts3) ++ ext)).
      { apply (IHe 0%nat ts1 e1 _ E). by left. }
      rewrite E', (Me _ _ _ E'). cbn [mbind res_bind rbind app].
      destruct ty2; try triv. apply IHl.
    + (* DOT *)
      destruct ts1 as [|[[] ?] ?]; cbn [app]; try triv. apply IHl.
    + (* LPAREN *)
      destruct (parse_call f ts1) as [[[a k] ts2]|] eqn:E; [|triv].
      pose proof (IHc _ _ _ E) as E'.
      rewrite E', (Mc _ _ E'). cbn [mbind res_bind rbind]. apply IHl.
  - (* parse_call *)
    intros ts x r. cbn [parse_call].
    destruct ts as [|[[] ?] ts1]; cbn [app]; try apply (IHa [] (_ :: _)).
    + apply (IHa [] []).
    + by intros [= <- <-].
  - (* parse_args *)
    intros acc ts. cbn [parse_args].
    assert (Hexpr : forall ts0,
              grows ext (fun ts => parse_expr f 0 ts ≫= λ '(e, ts1),
                match ts1 with
                | {| gettokentype := COMMA |} :: ts2 => parse_args f (acc ++ [e]) ts2
                | {| gettokentype := RPAREN |} :: ts2 => Ok (acc ++ [e], [], ts2)
                | _ => error
                end) ts0).
    { intros ts0 x r.
      destruct (parse_expr f 0 ts0) as [[e ts1]|] eqn:E; [|triv].
      cbn [mbind res_bind rbind].
      destruct ts1 as [|[ty1 s1] ts2]; [triv|].
      assert (E' : parse_expr f 0 (ts0 ++ ext)
                   = Ok (e, ({| gettokentype := ty1; getstr := s1 |} :: ts2) ++ ext)).
      { apply (IHe 0%nat ts0 e _ E). by left. }
      rewrite E'. cbn [mbind res_bind rbind app].
      destruct ty1; try triv; [apply IHa|by intros [= <- <-]]. }
    destruct ts as [|[[] ?] ts]; try exact (Hexpr _).
    destruct ts as [|[[] ?] ts]; try exact (Hexpr _).
    apply (IHk acc [] (_ :: _ :: _)).
  - (* parse_kwargs *)
    intros acc kacc ts x r. cbn [parse_kwargs].
    destruct ts as [|[[] ?] ts]; try triv.
    destruct ts as [|[[] ?] ts]; try triv.
    cbn [app].
    destruct (parse_expr f _ ts) as [[e ts1]|] eqn:E; [|triv].
    cbn [mbind res_bind rbind].
    destruct ts1 as [|[ty1 s1] ts2]; [triv|].
    match type of E with
    | parse_expr f ?lvl ts = _ =>
        assert (E' : parse_expr f lvl (ts ++ ext)
                   = Ok (e, ({| gettokentype := ty1; getstr := s1 |} :: ts2) ++ ext))
          by (apply (IHe lvl ts e _ E); by left)
    end.
    rewrite E'. cbn [mbind res_bind rbind app].
    destruct ty1; try triv; [apply IHk|by intros [= <- <-]].
  - (* parse_filter *)
    intros ts x r. cbn [parse_filter].
    destruct ts as [|[[] ?] ts]; try triv. cbn [app].
    destruct (parse_lookup_name f _ ts) as [[filt ts2]|] eqn:E; [|triv].
    rewrite (parse_lookup_name_ext _ _ _ _ _ E). cbn [mbind res_bind rbind].
    destruct ts2 as [|[[] ?] ts2]; cbn [app]; try (by intros [= <- <-]).
    + (* LPAREN *)
      destruct (parse_call f ts2) as [[[a k] ts4]|] eqn:E2; [|triv].
      rewrite (IHc _ _ _ E2). cbn. by intros [= <- <-].
    + (* COLON *)
      destruct ts2 as [|t ts3]; [triv|]. cbn [app].
      destruct (literal t); cbn; [by intros [= <- <-]|triv].
Qed.

(** A filter after an expression applies to the whole expression. *)
Lemma parse_pipe ts x :
  parse ts = Ok x ->
  parse (ts ++ ext) = Ok (expr_filter x fv).
Proof.
  unfold parse.
  destruct (parse_expr (4 * List.length ts + 4) 0 ts) as [[e r]|] eqn:E; [|triv].
  cbn [mbind res_bind rbind]. destruct r as [|? ?]; [|triv]. intros [= <-].
  destruct (parse_expr_suffix (4 * List.length ts + 4)) as (He & _).
  destruct (He 0%nat ts e [] E) as [_ H2].
  specialize (H2 eq_refl eq_refl).
  destruct (parse_fuel_mono (4 * List.length ts + 4 + 2)%nat (4 * List.length (ts ++ ext) + 4)%nat
              ltac:(rewrite length_app; cbn [List.length]; lia)) as (Me & _).
  by rewrite (Me _ _ _ H2).
Qed.

End Ext.

Lemma parse_pipe_name ts x p f :
  parse ts = Ok x ->
  parse (ts ++ [Token PIPE p; Token NAME f])
  = Ok (expr_filter x (filter_pipe_lookup_name [Str f])).
Proof. apply parse_pipe. intros n. reflexivity. Qed.

Lemma parse_pipe_colon ts x p f c t a :
  parse ts = Ok x ->
  literal t = Ok a ->
  parse (ts ++ [Token PIPE p; Token NAME f; Token COLON c; t])
  = Ok (expr_filter x (filter_colon_arg [Str f] a)).
Proof.
  intros Hx Ha. apply parse_pipe; [|done]. intros n. cbn. by rewrite Ha.
Qed.

End ParserFacts.

(** ** Filters *)

Lemma eval_call g ctx f args kws :
  eval g ctx (Call f args kws)
  = (f' ← eval g ctx f;
     a ← eval_args g ctx args;
     k ← eval_kwargs g ctx kws;
     call g f' a k).
Proof. reflexivity. Qed.

(** The function of a filter, [filters[name]], for a name of one part. *)
Lemma eval_filter_func g ctx name fn :
  filters g name = Some fn ->
  eval g ctx (get_filter_func (get_lookup_name [Str name]))
  = Ok (VBuiltin (BFilter name)).
Proof.
  intros Hfn. unfold get_filter_func, get_lookup_name, build_call.
  cbn -[lookup_global getattr]. rewrite lookup_global_filters.
  change (getattr (VStr ".") "join") with (Ok (VBuiltin (BJoin "."))).
  cbn. by rewrite Hfn.
Qed.

Lemma eval_expr_filter g ctx x name fn args kwargs :
  filters g name = Some fn ->
  eval g ctx (ExprParser.expr_filter x
                (get_filter_func (get_lookup_name [Str name]), args, kwargs))
  = (v ← eval g ctx x;
     vs ← eval_args g ctx args;
     ks ← eval_kwargs g ctx kwargs;
     fn (v :: vs) ks).
Proof.
  intros Hfn. unfold ExprParser.expr_filter, build_call.
  rewrite eval_call, (eval_filter_func g ctx name fn Hfn).
  cbn [mbind res_bind rbind eval_args].
  destruct (eval g ctx x) as [v|e]; cbn [mbind res_bind rbind]; [|done].
  destruct (eval_args g ctx args) as [vs|e]; cbn [mbind res_bind rbind]; [|done].
  destruct (eval_kwargs g ctx kwargs) as [ks|e]; cbn [mbind res_bind rbind];
    [|done].
  cbn. by rewrite Hfn.
Qed.

(** C5. The production [expr : expr filter] builds the call of the filter
    with the expression on its left as first positional argument, and the
    parser applies it from left to right. For every expression [x], given
    by any tokens [ts] that parse to it, every context and all filters [f]
    and [h] of the table: [x | f | h] is parsed as the call of [h] on the
    call of [f] on [x] and evaluates as [h(f(x))]; [x | f: a], for a
    literal [a], is parsed as the call of [f] on [x] and [a] and evaluates
    as [f(x, a)]; and a filter with arguments in parentheses evaluates as
    [f(x, args, kwargs)]. *)
Theorem filters_thread_their_left_operand
    (g : globals) (ctx : gmap string value)
    (ts : list ExprParser.token) (x : expr)
    (t : ExprParser.token) (a : expr)
    (args : list expr) (kwargs : list (string * expr))
    (f h : string) (ff fh : list value -> list (string * value) -> res value)
    (p q c : string) :
  filters g f = Some ff ->
  filters g h = Some fh ->
  ExprParser.parse ts = Ok x ->
  ExprParser.literal t = Ok a ->
  ExprParser.parse
    (ts ++ [ExprParser.Token ExprParser.PIPE p;
            ExprParser.Token ExprParser.NAME f;
            ExprParser.Token ExprParser.PIPE q;
            ExprParser.Token ExprParser.NAME h])
  = Ok (ExprParser.expr_filter
          (ExprParser.expr_filter x
             (ExprParser.filter_pipe_lookup_name [Str f]))
          (ExprParser.filter_pipe_lookup_name [Str h]))
  ∧ eval g ctx (ExprParser.expr_filter
                  (ExprParser.expr_filter x
                     (ExprParser.filter_pipe_lookup_name [Str f]))
                  (ExprParser.filter_pipe_lookup_name [Str h]))
    = (v ← eval g ctx x; w ← ff [v] []; fh [w] [])
  ∧ ExprParser.parse
      (ts ++ [ExprParser.Token ExprParser.PIPE p;
              ExprParser.Token ExprParser.NAME f;
              ExprParser.Token ExprParser.COLON c; t])
    = Ok (ExprParser.expr_filter x (ExprParser.filter_colon_arg [Str f] a))
  ∧ eval g ctx (ExprParser.expr_filter x
                  (ExprParser.filter_colon_arg [Str f] a))
    = (v ← eval g ctx x; w ← eval g ctx a; ff [v; w] [])
  ∧ eval g ctx (ExprParser.expr_filter x
                  (ExprParser.filter_pipe_lookup_full_call [Str f] args kwargs))
    = (v ← eval g ctx x;
       vs ← eval_args g ctx args;
       ks ← eval_kwargs g ctx kwargs;
       ff (v :: vs) ks)
  ∧ parse_expression "x | f: 1"
    = Ok (ExprParser.expr_filter
            (ExprParser.name_NAME (ExprParser.Token ExprParser.NAME "x"))
            (ExprParser.filter_colon_arg [Str "f"] (Num (NInt 1)))).
Proof.
  intros Hf Hh Hx Ha. split; [|split; [|split; [|split; [|split]]]].
  - change (ts ++ [ExprParser.Token ExprParser.PIPE p;
                   ExprParser.Token ExprParser.NAME f;
                   ExprParser.Token ExprParser.PIPE q;
                   ExprParser.Token ExprParser.NAME h])
      with (ts ++ [ExprParser.Token ExprParser.PIPE p;
                   ExprParser.Token ExprParser.NAME f]
               ++ [ExprParser.Token ExprParser.PIPE q;
                   ExprParser.Token ExprParser.NAME h]).
    rewrite app_assoc.
    by apply ParserFacts.parse_pipe_name, ParserFacts.parse_pipe_name.
  - unfold ExprParser.filter_pipe_lookup_name.
    rewrite (eval_expr_filter g ctx _ h fh [] [] Hh).
    rewrite (eval_expr_filter g ctx x f ff [] [] Hf).
    cbn [eval_args eval_kwargs mbind res_bind rbind].
    destruct (eval g ctx x) as [v|e]; cbn [mbind res_bind rbind]; [|done].
    by destruct (ff [v] []).
  - by apply ParserFacts.parse_pipe_colon.
  - unfold ExprParser.filter_colon_arg.
    rewrite (eval_expr_filter g ctx x f ff [a] [] Hf).
    cbn [eval_args eval_kwargs mbind res_bind rbind].
    destruct (eval g ctx x) as [v|e]; cbn [mbind res_bind rbind]; [|done].
    by destruct (eval g ctx a).
  - unfold ExprParser.filter_pipe_lookup_full_call.
    by rewrite (eval_expr_filter g ctx x f ff args kwargs Hf).
  - by vm_compute.
Qed.

Lemma filters_thread_their_left_operand_witness :
  eval host {["x" := VInt 20]}
    (ExprParser.expr_filter
       (ExprParser.expr_filter (Subscript (Name "context") (Str "x"))
          (ExprParser.filter_pipe_lookup_name [Str "inc"]))
       (ExprParser.filter_pipe_lookup_name [Str "double"]))
  = Ok (VInt 42).
Proof.
  refine (eq_trans
            (proj1 (proj2
               (filters_thread_their_left_operand host {["x" := VInt 20]}
                  [ExprParser.Token ExprParser.NAME "x"]
                  (Subscript (Name "context") (Str "x"))
                  (ExprParser.Token ExprParser.NUMBER "1") (Num (NInt 1))
                  [] [] "inc" "double" _ _ "|" "|" ":"
                  eq_refl eq_refl eq_refl eq_refl))) _).
  by vm_compute.
Defined.

(** ** Inheritance *)




Lemma class_defs_CDef fns : class_defs (map CDef fns) = fns.
Proof. induction fns as [|f fns IH]; cbn; [done|]. by f_equal. Qed.

Lemma named_values (fs : list (string * FunctionDef)) :
  Forall (fun kf => fn_name kf.2 = kf.1) fs -> map fn_name fs.*2 = fs.*1.
Proof. induction 1 as [|[k f] fs H _ IH]; cbn in *; [done|]. by f_equal. Qed.








Lemma compile_child_template :
  compile 2 base_files child_template = Ok child_module.
Proof. by vm_compute. Qed.

(** ** The tag argument splitter: composition, words and errors *)

Lemma step_src src src' s c s' :
  step src s c = Ok s' -> step src' s c = Ok s'.
Proof.
  unfold step. repeat case_match; congruence.
Qed.

Lemma loop_src src src' cs s s' :
  loop src cs s = Ok s' -> loop src' cs s = Ok s'.
Proof.
  revert s. induction cs as [|c cs IH]; intros s; cbn; [done|].
  destruct (step src s c) as [s1|e] eqn:Hs; cbn; [|done].
  rewrite (step_src _ src' _ _ _ Hs). cbn. apply IH.
Qed.

Lemma step_parens src s c s' :
  step src s c = Ok s' -> 0 <= parens s -> 0 <= parens s'.
Proof.
  unfold step. destruct s as [a cur e q sq p]; cbn.
  repeat case_match; intros [= <-]; cbn; lia.
Qed.

Lemma loop_parens src cs s s' :
  loop src cs s = Ok s' -> 0 <= parens s -> 0 <= parens s'.
Proof.
  revert s. induction cs as [|c cs IH]; intros s; cbn; [by intros [= <-]|].
  destruct (step src s c) as [s1|e] eqn:Hs; cbn; [|done].
  intros H Hp. apply (IH _ H). by apply (step_parens _ _ _ _ Hs).
Qed.

Lemma finish_spec src s :
  0 <= parens s ->
  match finish src s with
  | Ok a => balanced s = true ∧ a = args s ++ last_arg s
  | Err e => balanced s = false ∧ exists v, e = ValueError v
  end.
Proof.
  intros Hp. unfold finish, balanced, last_arg.
  destruct s as [a cur e q sq p]; cbn in *.
  destruct e, q, sq; cbn; eauto.
  - destruct (0 <? p) eqn:H0; eauto.
  - destruct (p =? 0) eqn:Hp0; cbn.
    + destruct cur; split; by rewrite ?app_nil_r.
    + destruct (0 <? p) eqn:H0; eauto. lia.
Qed.

Lemma loop_raises_value_error src cs s e :
  loop src cs s = Err e -> exists v, e = ValueError v.
Proof.
  revert s. induction cs as [|c cs IH]; intros s; cbn; [done|].
  destruct (step src s c) as [s1|e'] eqn:Hs; cbn; [apply IH|].
  intros [= ->]. revert Hs. unfold step. repeat case_match; try done.
  intros [= <-]. eauto.
Qed.

(** The state in which the loop ended, for a string that splits. *)
Lemma split_ok_state s a :
  split_tag_args_string s = Ok a ->
  exists st, loop s (list_ascii_of_string s) init = Ok st
             ∧ balanced st = true ∧ a = args st ++ last_arg st.
Proof.
  unfold split_tag_args_string.
  destruct (loop s (list_ascii_of_string s) init) as [st|e] eqn:Hl; cbn;
    [|done].
  pose proof (finish_spec s st (loop_parens _ _ _ _ Hl ltac:(done))) as H.
  intros Hf. rewrite Hf in H. by exists st.
Qed.

Lemma step_with_args src a s c :
  step src (with_args a s) c = (s' ← step src s c; Ok (with_args a s')).
Proof.
  unfold step, with_args, push. destruct s as [a0 cur e q sq p]; cbn.
  repeat case_match; cbn; rewrite <- ?app_assoc; try done.
Qed.

Lemma loop_with_args src a cs s :
  loop src cs (with_args a s) = (s' ← loop src cs s; Ok (with_args a s')).
Proof.
  revert s. induction cs as [|c cs IH]; intros s; cbn; [done|].
  rewrite step_with_args. destruct (step src s c) as [s1|e]; cbn; [apply IH|done].
Qed.

Lemma finish_with_args src a s :
  finish src (with_args a s) = (r ← finish src s; Ok (a ++ r)).
Proof.
  unfold finish, with_args. destruct s as [a0 cur e q sq p]; cbn.
  repeat case_match; cbn; rewrite <- ?app_assoc; try done.
Qed.

(** At a space outside quotes and parentheses the current argument, if
    any, is closed. *)
Lemma step_space src s :
  balanced s = true ->
  step src s space = Ok (with_args (args s ++ last_arg s) init).
Proof.
  unfold balanced, step, with_args, last_arg.
  destruct s as [a cur e q sq p]; cbn.
  destruct e, q, sq; cbn; try done. intros ->%Z.eqb_eq.
  rewrite !bool_decide_eq_false_2 by done.
  rewrite bool_decide_eq_true_2 by done.
  destruct cur; cbn; by rewrite ?app_nil_r.
Qed.

(** The arguments of two strings put side by side, a space between
    them. *)
Lemma split_app s1 s2 a1 a2 :
  split_tag_args_string s1 = Ok a1 ->
  split_tag_args_string s2 = Ok a2 ->
  split_tag_args_string (s1 +:+ " " +:+ s2) = Ok (a1 ++ a2).
Proof.
  intros H1 H2.
  destruct (split_ok_state s1 a1 H1) as (st1 & Hl1 & Hb1 & ->).
  unfold split_tag_args_string in H2 |- *.
  destruct (loop s2 (list_ascii_of_string s2) init) as [st2|e] eqn:Hl2;
    cbn in H2; [|done].
  rewrite !list_ascii_of_string_app, loop_app.
  set (src := s1 +:+ " " +:+ s2).
  rewrite (loop_src _ src _ _ _ Hl1). cbn [mbind res_bind rbind].
  change (list_ascii_of_string " ") with [space]. cbn [app loop].
  rewrite step_space by done. cbn [mbind res_bind rbind].
  rewrite loop_with_args, (loop_src _ src _ _ _ Hl2). cbn [mbind res_bind rbind].
  rewrite finish_with_args.
  pose proof (finish_spec s2 st2 (loop_parens _ _ _ _ Hl2 ltac:(done))) as Hf2.
  rewrite H2 in Hf2. destruct Hf2 as [Hb2 ->].
  pose proof (finish_spec src st2 (loop_parens _ _ _ _ Hl2 ltac:(done))) as Hf.
  destruct (finish src st2) as [a|e]; cbn.
  - destruct Hf as [_ ->]. done.
  - destruct Hf as [Hf _]. congruence.
Qed.

(** A plain character is copied, whatever the state. *)
Lemma step_plain src s c :
  escaped s = false -> plain c = true -> step src s c = Ok (push c s).
Proof.
  unfold plain, is_quote, step. intros -> H.
  apply negb_true_iff in H. repeat apply orb_false_iff in H as [H ?].
  by repeat case_bool_decide.
Qed.

Lemma loop_plain src cs s :
  escaped s = false -> forallb plain cs = true ->
  loop src cs s
  = Ok (mk_st (args s) (current s ++ cs) false (quote s) (squote s) (parens s)).
Proof.
  revert s. induction cs as [|c cs IH]; intros [a cur e q sq p]; cbn;
    intros -> H.
  - by rewrite app_nil_r.
  - apply andb_true_iff in H as [Hc Hcs].
    rewrite step_plain by done. cbn. rewrite IH by done. cbn.
    by rewrite <- app_assoc.
Qed.

Lemma wrapped_plain c cs : plain c = true -> wrapped (c :: cs) = false.
Proof.
  unfold wrapped, plain. intros H. apply negb_true_iff in H.
  do 4 apply orb_false_iff in H as [H _].
  destruct (last (c :: cs)); [|done]. by rewrite H, andb_false_r.
Qed.

(** A word of plain characters is one argument. *)
Lemma split_word w :
  w <> "" -> forallb plain (list_ascii_of_string w) = true ->
  split_tag_args_string w = Ok [w].
Proof.
  intros Hw Hp. unfold split_tag_args_string.
  rewrite loop_plain by done. cbn [mbind res_bind rbind].
  destruct (list_ascii_of_string w) as [|c cs] eqn:Hcs.
  - destruct w; [done|discriminate Hcs].
  - cbn in Hp. apply andb_true_iff in Hp as [Hc _].
    unfold finish, emit.
    cbn [init args current escaped quote squote parens app negb andb Z.eqb].
    rewrite wrapped_plain by done.
    by rewrite <- Hcs, string_of_list_ascii_of_string.
Qed.

(** The state after a string that splits. *)
Lemma split_loop s a src :
  split_tag_args_string s = Ok a ->
  exists st, loop src (list_ascii_of_string s) init = Ok st
             ∧ balanced st = true ∧ a = args st ++ last_arg st.
Proof.
  intros H. destruct (split_ok_state s a H) as (st & Hl & Hb & ->). exists st.
  by rewrite (loop_src _ src _ _ _ Hl).
Qed.

Lemma balanced_inv s :
  balanced s = true ->
  escaped s = false ∧ quote s = false ∧ squote s = false ∧ parens s = 0.
Proof.
  unfold balanced. destruct (escaped s), (quote s), (squote s); cbn; try done.
  by intros ->%Z.eqb_eq.
Qed.

(** X4. A closing parenthesis outside quotes, when none is open, raises
    at once: after any string that splits, whatever follows the
    parenthesis, the splitter raises the ValueError of a closing un-open
    parenthesis, with the whole input in its message. *)
Theorem closing_unopened_parenthesis_raises (pre post : string)
    (a : list string) :
  split_tag_args_string pre = Ok a ->
  split_tag_args_string (pre +:+ ")" +:+ post)
  = Err (ValueError (ClosingUnopenParen (pre +:+ ")" +:+ post))).
Proof.
  intros H. unfold split_tag_args_string.
  rewrite !list_ascii_of_string_app, loop_app.
  set (src := pre +:+ ")" +:+ post).
  destruct (split_loop pre a src H) as (st & -> & Hb & _).
  apply balanced_inv in Hb as (He & Hq & Hsq & Hp).
  cbn [mbind res_bind rbind]. change (list_ascii_of_string ")") with [rparen].
  cbn [app loop]. unfold step at 1. rewrite He, Hq, Hsq, Hp.
  by rewrite !bool_decide_eq_false_2, bool_decide_eq_true_2 by done.
Qed.

Lemma loop_in_squotes src cs s :
  squote s = true -> escaped s = false ->
  squote_c ∉ cs -> backslash ∉ cs ->
  loop src cs s
  = Ok (mk_st (args s) (current s ++ cs) false (quote s) true (parens s)).
Proof.
  revert s. induction cs as [|c cs IH]; intros [a cur e q sq p]; simpl;
    intros -> -> Hq Hb.
  - by rewrite app_nil_r.
  - apply not_elem_of_cons in Hq as [Hq1 Hq2].
    apply not_elem_of_cons in Hb as [Hb1 Hb2].
    unfold step; simpl.
    rewrite (bool_decide_eq_false_2 (c = squote_c)) by congruence.
    rewrite (bool_decide_eq_false_2 (c = backslash)) by congruence.
    rewrite andb_false_r.
    assert (Hpush : loop src cs (push c (mk_st a cur false q true p))
                    = Ok (mk_st a (cur ++ c :: cs) false q true p)).
    { unfold push; simpl. rewrite IH by done. simpl. by rewrite <- app_assoc. }
    by repeat case_bool_decide.
Qed.

Lemma loop_in_parens src cs s :
  escaped s = false -> quote s = false -> squote s = false -> 0 < parens s ->
  forallb in_parens cs = true ->
  loop src cs s
  = Ok (mk_st (args s) (current s ++ cs) false false false (parens s)).
Proof.
  revert s. induction cs as [|c cs IH]; intros [a cur e q sq p]; simpl;
    intros -> -> -> Hp H.
  - by rewrite app_nil_r.
  - apply andb_true_iff in H as [Hc Hcs].
    assert (Hs : step src (mk_st a cur false false false p) c
                 = Ok (mk_st a (cur ++ [c]) false false false p)).
    { apply orb_true_iff in Hc as [Hc|Hc].
      - by rewrite step_plain.
      - apply bool_decide_eq_true in Hc as ->. unfold step; simpl.
        rewrite ?bool_decide_eq_false_2, ?bool_decide_eq_true_2 by done.
        by destruct (Z.eqb_spec p 0); [lia|]. }
    rewrite Hs. simpl. rewrite IH by done. simpl. by rewrite <- app_assoc.
Qed.

(** X5. Input that ends inside a quote, inside a parenthesis or on a
    backslash raises: after any string that splits, an opening double
    quote with no double quote after it raises the error of the un-closed
    double quote, a single quote that of the un-closed single quote, an
    opening parenthesis followed by plain characters and spaces that of
    one parenthesis still open, and a last backslash that of the un-used
    escaping. *)
Theorem unclosed_input_raises (pre : string) (a : list string)
    (u v w : string) :
  split_tag_args_string pre = Ok a ->
  dquote ∉ list_ascii_of_string u -> backslash ∉ list_ascii_of_string u ->
  squote_c ∉ list_ascii_of_string v -> backslash ∉ list_ascii_of_string v ->
  forallb in_parens (list_ascii_of_string w) = true ->
  split_tag_args_string (pre +:+ String dquote u)
  = Err (ValueError (UnclosedDoubleQuote (pre +:+ String dquote u)))
  ∧ split_tag_args_string (pre +:+ String squote_c v)
    = Err (ValueError (UnclosedSingleQuote (pre +:+ String squote_c v)))
  ∧ split_tag_args_string (pre +:+ String lparen w)
    = Err (ValueError (UnclosedParen 1 (pre +:+ String lparen w)))
  ∧ split_tag_args_string (pre +:+ String backslash "")
    = Err (ValueError (UnusedEscaping (pre +:+ String backslash ""))).
Proof.
  intros H Hu1 Hu2 Hv1 Hv2 Hw.
  assert (Hgen : forall tl,
    exists st, loop (pre +:+ tl) (list_ascii_of_string pre) init = Ok st
      ∧ escaped st = false ∧ quote st = false ∧ squote st = false
      ∧ parens st = 0).
  { intros tl. destruct (split_loop pre a (pre +:+ tl) H) as (st & Hl & Hb & _).
    exists st. split; [done|]. by apply balanced_inv. }
  unfold split_tag_args_string. repeat split.
  - destruct (Hgen (String dquote u)) as (st & Hl & He & Hq & Hsq & Hp).
    rewrite list_ascii_of_string_app, loop_app, Hl.
    cbn [mbind res_bind rbind list_ascii_of_string loop].
    unfold step at 1. rewrite He, Hsq, Hq.
    rewrite bool_decide_eq_true_2 by done. cbn [mbind res_bind rbind negb].
    rewrite loop_in_quotes by done. cbn [mbind res_bind rbind].
    reflexivity.
  - destruct (Hgen (String squote_c v)) as (st & Hl & He & Hq & Hsq & Hp).
    rewrite list_ascii_of_string_app, loop_app, Hl.
    cbn [mbind res_bind rbind list_ascii_of_string loop].
    unfold step at 1. rewrite He, Hsq, Hq.
    rewrite bool_decide_eq_false_2, bool_decide_eq_true_2 by done.
    cbn [mbind res_bind rbind negb].
    rewrite loop_in_squotes by done. cbn [mbind res_bind rbind].
    reflexivity.
  - destruct (Hgen (String lparen w)) as (st & Hl & He & Hq & Hsq & Hp).
    rewrite list_ascii_of_string_app, loop_app, Hl.
    cbn [mbind res_bind rbind list_ascii_of_string loop].
    unfold step at 1. rewrite He, Hsq, Hq, Hp.
    rewrite !bool_decide_eq_false_2, bool_decide_eq_true_2 by done.
    cbn [mbind res_bind rbind negb andb].
    rewrite loop_in_parens by done. cbn [mbind res_bind rbind].
    reflexivity.
  - destruct (Hgen (String backslash "")) as (st & Hl & He & Hq & Hsq & Hp).
    rewrite list_ascii_of_string_app, loop_app, Hl.
    cbn [mbind res_bind rbind list_ascii_of_string loop app].
    rewrite step_backslash by done. cbn [mbind res_bind rbind].
    unfold finish. cbn. rewrite Hq, Hsq, Hp. reflexivity.
Qed.

(** X1. The arguments of two strings put side by side with a space
    between them are the arguments of the first followed by those of the
    second; so a space before or after a string that splits changes
    nothing. *)
Theorem split_concatenates_arguments (s1 s2 : string) (a1 a2 : list string) :
  split_tag_args_string s1 = Ok a1 ->
  split_tag_args_string s2 = Ok a2 ->
  split_tag_args_string (s1 +:+ " " +:+ s2) = Ok (a1 ++ a2)
  ∧ split_tag_args_string (" " +:+ s1) = Ok a1
  ∧ split_tag_args_string (s1 +:+ " ") = Ok a1.
Proof.
  intros H1 H2. split; [by apply split_app|]. split.
  - by apply (split_app "" s1 [] a1).
  - rewrite <- (app_nil_r a1). by apply (split_app s1 "" a1 []).
Qed.

Lemma split_concatenates_arguments_witness :
  split_tag_args_string ("x in" +:+ " " +:+ quoted "a b")
  = Ok (["x"; "in"] ++ ["a b"])
  ∧ split_tag_args_string (" " +:+ "x in") = Ok ["x"; "in"]
  ∧ split_tag_args_string ("x in" +:+ " ") = Ok ["x"; "in"].
Proof.
  apply (split_concatenates_arguments "x in" (quoted "a b")
           ["x"; "in"] ["a b"]); reflexivity.
Defined.

(** X2. Splitting inverts joining: words of plain characters (no quote,
    parenthesis, backslash or space), joined by single spaces, split into
    the same words. *)
Theorem split_inverts_join_on_words (ws : list string) :
  Forall word ws ->
  split_tag_args_string (String.concat " " ws) = Ok ws.
Proof.
  induction 1 as [|w ws [Hw Hp] Hws IH]; [done|].
  destruct ws as [|w' ws]; [by apply split_word|].
  change (String.concat " " (w :: w' :: ws))
    with (w +:+ " " +:+ String.concat " " (w' :: ws)).
  apply (split_app w _ [w]); [by apply split_word|done].
Qed.

Lemma split_inverts_join_on_words_witness :
  split_tag_args_string (String.concat " " ["item"; "in"; "items"])
  = Ok ["item"; "in"; "items"].
Proof.
  apply split_inverts_join_on_words.
  repeat (constructor; [split; [discriminate|reflexivity]|]). constructor.
Defined.

(** X3. The splitter returns a list only when the input ends with no
    escape pending, no quote open and no parenthesis open, and then the
    list is the arguments closed so far and the current one, if any; in
    every other case it raises a ValueError. The last [else] branch never
    falls through to [return args] with the current argument dropped. *)
Theorem split_returns_only_when_balanced (s : string) :
  match split_tag_args_string s with
  | Ok a =>
      exists st, loop s (list_ascii_of_string s) init = Ok st
                 ∧ balanced st = true ∧ a = args st ++ last_arg st
  | Err e => exists v, e = ValueError v
  end.
Proof.
  destruct (split_tag_args_string s) as [a|e] eqn:Hs.
  - by apply split_ok_state.
  - revert Hs. unfold split_tag_args_string.
    destruct (loop s (list_ascii_of_string s) init) as [st|e'] eqn:Hl; cbn.
    + pose proof (finish_spec s st (loop_parens _ _ _ _ Hl ltac:(done))) as H.
      intros Hf. rewrite Hf in H. by destruct H.
    + intros [= <-]. by eapply loop_raises_value_error.
Qed.

Lemma closing_unopened_parenthesis_raises_witness :
  split_tag_args_string ("f(a)" +:+ ")" +:+ " b")
  = Err (ValueError (ClosingUnopenParen ("f(a)" +:+ ")" +:+ " b"))).
Proof.
  apply (closing_unopened_parenthesis_raises "f(a)" " b" ["f(a)"]).
  reflexivity.
Defined.

Lemma unclosed_input_raises_witness :
  split_tag_args_string ("x in" +:+ String dquote "a b")
  = Err (ValueError (UnclosedDoubleQuote ("x in" +:+ String dquote "a b")))
  ∧ split_tag_args_string ("x in" +:+ String squote_c "c d")
    = Err (ValueError (UnclosedSingleQuote ("x in" +:+ String squote_c "c d")))
  ∧ split_tag_args_string ("x in" +:+ String lparen "e f")
    = Err (ValueError (UnclosedParen 1 ("x in" +:+ String lparen "e f")))
  ∧ split_tag_args_string ("x in" +:+ String backslash "")
    = Err (ValueError (UnusedEscaping ("x in" +:+ String backslash ""))).
Proof.
  apply (unclosed_input_raises "x in" ["x"; "in"] "a b" "c d" "e f");
    first [reflexivity | apply (bool_decide_unpack _); by vm_compute].
Defined.

(** ** The arguments of the tags *)

(** X6. The arguments of a [for] tag are three and those of a [block]
    tag one: when the splitter makes another number of arguments of the
    text of a [for] tag, the template fails with the ValueError of the
    tuple assignment; with three arguments whose second is not [in] it
    fails with the ValueError that asks for [in], before the third is
    parsed; and a [block] tag whose text makes another number of
    arguments than one fails with the ValueError of the tuple
    assignment. *)
Theorem tag_arguments_are_counted
    (f : nat) (fs : files) (args : string) (l : list string) (b : string) :
  split_tag_args_string args = Ok l ->
  (List.length l <> 3%nat ->
   compile (S f) fs [NFor args [NContent b] None] = Err (ValueError Unpack))
  ∧ (forall t i v,
       l = [t; i; v] -> i <> "in" ->
       compile (S f) fs [NFor args [NContent b] None]
       = Err (ValueError InExpected))
  ∧ (List.length l <> 1%nat ->
     compile (S f) fs [NBlock args [NContent b]] = Err (ValueError Unpack)).
Proof.
  intros Hsplit. unfold compile. rewrite !compile_at_unfold.
  cbn [Structure.parse Structure.reduce Structure.inner Structure.inner_rest
       mbind res_bind rbind Structure.inner_first].
  unfold Structure.for__impl, Structure.block__impl. rewrite Hsplit.
  cbn [mbind res_bind rbind].
  split; [|split].
  - intros Hlen. by destruct l as [|t [|i [|v [|? ?]]]].
  - intros t i v -> Hi. by rewrite bool_decide_eq_true_2.
  - intros Hlen. by destruct l as [|t [|? ?]].
Qed.

Lemma tag_arguments_are_counted_witness :
  compile 1 no_files [NFor "x of items" [NContent "b"] None]
  = Err (ValueError InExpected).
Proof.
  destruct (tag_arguments_are_counted 0 no_files "x of items"
              ["x"; "of"; "items"] "b" eq_refl) as (_ & H2 & _).
  apply (H2 "x" "of" "items"); [reflexivity|discriminate].
Defined.

(** ** The structure grammar: comments, classes and leading fragments *)

(** ** Comments *)

Lemma doc_rest_app lp a b st :
  Structure.doc_rest lp (a ++ b) st
  = (st' ← Structure.doc_rest lp a st; Structure.doc_rest lp b st').
Proof.
  revert st. induction a as [|n a IH]; intros st; cbn; [done|].
  destruct (Structure.reduce lp n st) as [[s st1]|e]; cbn; [|done].
  destruct (Structure.doc_next st1 s) as [st2|e]; cbn; [apply IH|done].
Qed.

Lemma inner_rest_app red acc a b st :
  Structure.inner_rest red acc (a ++ b) st
  = ('(acc', st') ← Structure.inner_rest red acc a st;
     Structure.inner_rest red acc' b st').
Proof.
  revert acc st. induction a as [|n a IH]; intros acc st; cbn; [done|].
  destruct (red n st) as [[s st1]|e]; cbn; [apply IH|done].
Qed.

(** X7. A comment compiles to nothing. After the first symbol of a
    document or of the body of a tag it is dropped: the template compiles
    as it does without the comment. As first symbol it compiles as an
    empty text does, to one [yield] of the empty string. The text of the
    comment is never used. *)
Theorem comment_compiles_to_nothing
    (f : nat) (fs : files) (lvl : nat)
    (lp : string -> nat -> res (list ClassDef)) (st : ParserState)
    (n : node) (r1 r2 : list node) (c : string) :
  compile_at f fs lvl (n :: r1 ++ NComment c :: r2)
  = compile_at f fs lvl (n :: r1 ++ r2)
  ∧ Structure.inner (Structure.reduce lp) (n :: r1 ++ NComment c :: r2) st
    = Structure.inner (Structure.reduce lp) (n :: r1 ++ r2) st
  ∧ compile_at f fs lvl (NComment c :: r2)
    = compile_at f fs lvl (NContent "" :: r2)
  ∧ Structure.inner (Structure.reduce lp) (NComment c :: r2) st
    = Structure.inner (Structure.reduce lp) (NContent "" :: r2) st.
Proof.
  split; [|split; [|split]].
  - destruct f as [|f]; [done|]. rewrite !compile_at_unfold.
    cbn [Structure.parse].
    destruct (Structure.reduce _ n _) as [[s st1]|e];
      cbn [mbind res_bind rbind]; [|done].
    destruct (Structure.doc_first st1 s) as [[doc st2]|e];
      cbn [mbind res_bind rbind]; [|done].
    rewrite !doc_rest_app.
    by destruct (Structure.doc_rest _ r1 st2) as [st3|e].
  - cbn [Structure.inner].
    destruct (Structure.reduce lp n st) as [[s st1]|e];
      cbn [mbind res_bind rbind]; [|done].
    rewrite !inner_rest_app.
    by destruct (Structure.inner_rest _ _ r1 st1) as [[acc st2]|e].
  - destruct f as [|f]; done.
  - done.
Qed.

(** ** The base class and the list of classes *)

Section Tracking.
Context (lp : string -> nat -> res (list ClassDef)).

Lemma moved_refl st : moved false st st.
Proof. by repeat split. Qed.

Lemma moved_trans e1 e2 a b c :
  moved e1 a b -> moved e2 b c -> moved (e1 || e2) a c.
Proof.
  unfold moved, parent_name. intros [Hl1 H1] [Hl2 H2].
  split; [congruence|].
  destruct e1, e2; cbn; rewrite ?Hl1 in H2; try done.
  - destruct H2 as [-> _]. done.
  - destruct H1 as [? ?], H2 as [? ?]. split; congruence.
Qed.

Lemma add_function_moved st name f st' :
  add_function st name f = Ok st' -> moved false st st'.
Proof.
  unfold add_function. case_bool_decide; [done|]. intros [= <-].
  by repeat split.
Qed.

Lemma append_to_block_moved st v st' :
  append_to_block st v = Ok st' -> moved false st st'.
Proof.
  unfold append_to_block. destruct (append_body _ _ _); [|done].
  intros [= <-]. by repeat split.
Qed.

Lemma inner_rest_moved items :
  Forall (tracks lp) items ->
  forall acc st a st',
    Structure.inner_rest (Structure.reduce lp) acc items st = Ok (a, st') ->
    moved (existsb extends_in items) st st'.
Proof.
  induction 1 as [|n items Hn _ IH]; intros acc st a st'; cbn.
  - intros [= _ <-]. apply moved_refl.
  - destruct (Structure.reduce lp n st) as [[s st1]|e] eqn:Hred; cbn; [|done].
    intros H. eapply moved_trans; [by eapply Hn|by eapply IH].
Qed.

Lemma inner_moved items :
  Forall (tracks lp) items ->
  forall st a st',
    Structure.inner (Structure.reduce lp) items st = Ok (a, st') ->
    moved (existsb extends_in items) st st'.
Proof.
  intros H st a st'. destruct H as [|n items Hn H]; cbn; [done|].
  destruct (Structure.reduce lp n st) as [[s st1]|e] eqn:Hred; cbn; [|done].
  intros Hr. eapply moved_trans; [by eapply Hn|by eapply inner_rest_moved].
Qed.

Lemma reduce_tracks n : tracks lp n.
Proof.
  induction n as [t|t|c b o Hb Ho|a b o Hb Ho|a b Hb|a|t] using node_induction;
    intros st s st'; cbn [Structure.reduce extends_in].
  - intros [= _ <-]. apply moved_refl.
  - destruct (Structure.var__varstart_CONTENT_varend t); cbn; [|done].
    intros [= _ <-]. apply moved_refl.
  - destruct o as [ob|].
    + destruct (Structure.inner _ b st) as [[b' st1]|e] eqn:H1; cbn; [|done].
      destruct (Structure.inner _ ob st1) as [[o' st2]|e] eqn:H2; cbn; [|done].
      destruct (Structure.if__else_impl c b' o'); cbn; [|done].
      intros [= _ <-].
      eapply moved_trans; [by eapply inner_moved|by eapply inner_moved].
    + destruct (Structure.inner _ b st) as [[b' st1]|e] eqn:H1; cbn; [|done].
      destruct (Structure.if__impl c b'); cbn; [|done].
      intros [= _ <-]. by eapply inner_moved.
  - destruct o as [[kw ob]|].
    + destruct (Structure.inner _ b st) as [[b' st1]|e] eqn:H1; cbn; [|done].
      destruct (Structure.inner _ ob st1) as [[o' st2]|e] eqn:H2; cbn; [|done].
      destruct (Structure.for__else_impl a b' o'); cbn; [|done].
      intros [= _ <-].
      eapply moved_trans; [by eapply inner_moved|by eapply inner_moved].
    + destruct (Structure.inner _ b st) as [[b' st1]|e] eqn:H1; cbn; [|done].
      destruct (Structure.for__impl a b'); cbn; [|done].
      intros [= _ <-]. by eapply inner_moved.
  - destruct (Structure.inner _ b st) as [[b' st1]|e] eqn:H1; cbn; [|done].
    unfold Structure.block__impl.
    destruct (split_tag_args_string a) as [[|name [|? ?]]|e]; cbn; try done.
    destruct (add_function st1 name _) as [st2|e] eqn:H2; cbn; [|done].
    intros [= _ <-].
    rewrite <- (orb_false_r (existsb extends_in b)).
    eapply moved_trans; [by eapply inner_moved|by eapply add_function_moved].
  - unfold Structure.extends__impl.
    destruct (split_tag_args_string a) as [[|name [|? ?]]|e]; cbn; try done.
    destruct (lp name (S (level st))); cbn; [|done].
    intros [= _ <-]. by split.
  - intros [= _ <-]. apply moved_refl.
Qed.

Lemma doc_rest_moved items st st' :
  Structure.doc_rest lp items st = Ok st' ->
  moved (existsb extends_in items) st st'.
Proof.
  revert st. induction items as [|n items IH]; intros st; cbn.
  - intros [= <-]. apply moved_refl.
  - destruct (Structure.reduce lp n st) as [[s st1]|e] eqn:Hred; cbn; [|done].
    destruct (Structure.doc_next st1 s) as [st2|e] eqn:Hnext; cbn; [|done].
    intros H. eapply moved_trans; [by eapply reduce_tracks|].
    rewrite <- (orb_false_l (existsb extends_in items)).
    eapply moved_trans; [|by apply IH].
    destruct s; cbn in Hnext; try (by eapply append_to_block_moved).
    injection Hnext as <-. apply moved_refl.
Qed.

Lemma doc_first_moved st s doc st' :
  Structure.doc_first st s = Ok (doc, st') ->
  level st' = level st ∧ base_class st' = base_class st
  ∧ doc = module_body st ++ [Own].
Proof.
  intros H. pose proof (doc_first_spec st s) as Hs. rewrite H in Hs.
  by destruct Hs as (_ & -> & _ & -> & _ & -> & _).
Qed.

(** The base class and the value of the [doc] symbol after a parse. *)
Lemma parse_moved lvl n r doc st :
  Structure.parse lp (n :: r) (ParserState_init lvl) = Ok (doc, st) ->
  base_class st = (if existsb extends_in (n :: r)
                   then parent_name (ParserState_init lvl) else "object")
  ∧ (extends_in n = false -> doc = [Own]).
Proof.
  cbn [Structure.parse].
  destruct (Structure.reduce lp n _) as [[s st1]|e] eqn:Hred; cbn; [|done].
  destruct (Structure.doc_first st1 s) as [[doc' st2]|e] eqn:Hfirst; cbn; [|done].
  destruct (Structure.doc_rest lp r st2) as [st3|e] eqn:Hrest; cbn; [|done].
  intros [= <- <-].
  apply reduce_tracks in Hred as [Hl1 Hred].
  apply doc_first_moved in Hfirst as (Hl2 & Hb2 & ->).
  apply doc_rest_moved in Hrest as [Hl3 Hrest].
  unfold parent_name in *. rewrite Hl2, Hl1 in Hrest. cbn [existsb].
  change (level (ParserState_init lvl)) with lvl in *.
  change (base_class (ParserState_init lvl)) with "object" in *.
  split.
  - destruct (extends_in n), (existsb extends_in r); cbn; try done.
    + destruct Hrest as [-> _]. congruence.
    + destruct Hrest as [-> _], Hred as [? _]. congruence.
  - intros Hn. rewrite Hn in Hred. by destruct Hred as [_ ->].
Qed.

End Tracking.

(** ** Class names *)

Lemma pretty_N_go_length x s :
  (String.length s <= String.length (pretty_N_go x s))%nat.
Proof.
  revert s. induction (N.lt_wf_0 x) as [x _ IH]; intros s.
  assert (x = 0 ∨ 0 < x)%N as [->|?] by lia; [by rewrite pretty_N_go_0|].
  rewrite pretty_N_go_step by done.
  etrans; [|by eapply IH, N.div_lt]. simpl. lia.
Qed.

Lemma pretty_S_nonempty (n : nat) : pretty (S n) <> "".
Proof.
  unfold pretty, pretty_nat, pretty, pretty_N.
  case_decide as H; [lia|]. rewrite pretty_N_go_step by lia.
  intros Heq. pose proof (pretty_N_go_length (N.of_nat (S n) `div` 10)
    (String (pretty_N_char (N.of_nat (S n) `mod` 10)) "")) as Hlen.
  rewrite Heq in Hlen. simpl in Hlen. lia.
Qed.

Lemma class_name_S lvl :
  class_name (ParserState_init (S lvl)) = "Template" +:+ pretty (S lvl).
Proof. done. Qed.

Lemma class_name_inj a b :
  class_name (ParserState_init a) = class_name (ParserState_init b) -> a = b.
Proof.
  unfold class_name. cbn [level ParserState_init]. intros H.
  apply (inj (String.app "Template")) in H.
  destruct a as [|a], b as [|b]; cbn in H; try done.
  - by destruct (pretty_S_nonempty b).
  - by destruct (pretty_S_nonempty a).
  - by apply (inj pretty) in H.
Qed.

(** X8. The base class that [extends__impl] names, [Template] followed
    by the level of the parent, is the name that [class_name] gives the
    class of the state of that level, and of no other level: the names of
    the classes of different levels differ. *)
Theorem extends_names_the_class_of_the_parent
    (lp : string -> nat -> res (list ClassDef)) (st : ParserState)
    (args : string) (s : stmt) (st' : ParserState) :
  Structure.extends__impl lp st args = Ok (s, st') ->
  base_class st' = class_name (ParserState_init (S (level st)))
  ∧ forall l, class_name (ParserState_init l) = base_class st' ->
              l = S (level st).
Proof.
  unfold Structure.extends__impl.
  destruct (split_tag_args_string args) as [[|name [|? ?]]|e]; cbn; try done.
  destruct (lp name (S (level st))); cbn; [|done].
  intros [= _ <-]. cbn [base_class]. split; [done|].
  intros l Hl. by apply class_name_inj.
Qed.

Lemma extends_names_the_class_of_the_parent_witness :
  base_class (mk_ParserState 0 "Template1" [] None [])
  = class_name (ParserState_init 1)
  ∧ forall l,
      class_name (ParserState_init l)
      = base_class (mk_ParserState 0 "Template1" [] None []) ->
      l = 1%nat.
Proof.
  apply (extends_names_the_class_of_the_parent (fun _ _ => Ok [])
           (ParserState_init 0) "base" Pass).
  by vm_compute.
Defined.

(** ** The classes of a template *)

Lemma parent_name_not_object st : parent_name st <> "object".
Proof. done. Qed.

(** X9. A template without [extends] compiles to one class: it is named
    after the level, its base is [object] and its body holds one function
    for every registered name, in the order of registration (a block
    after the blocks of its body, [root] after the blocks of the first
    symbol), all of them distinct. *)
Theorem template_without_extends_is_one_class
    (f : nat) (fs : files) (lvl : nat) (items : list node)
    (m : list ClassDef) :
  existsb extends_in items = false ->
  compile_at f fs lvl items = Ok m ->
  exists fns,
    m = [mk_ClassDef (class_name (ParserState_init lvl)) ["object"]
           (map CDef fns)]
    ∧ map fn_name fns = registration_order items
    ∧ NoDup (registration_order items).
Proof.
  intros Hext. destruct f as [|f]; [done|]. rewrite compile_at_unfold.
  destruct items as [|n r]; [done|].
  pose proof (parse_spec (loader f fs) lvl n r) as H.
  destruct (Structure.parse _ _ _) as [[doc st]|e] eqn:Hparse;
    cbn [mbind res_bind rbind]; [|done].
  destruct H as (Hn & Hc & Hl & Hk & Hnamed & _).
  apply parse_moved in Hparse as [Hb Hdoc]. rewrite Hext in Hb.
  cbn [existsb] in Hext. apply orb_false_iff in Hext as [Hn0 _].
  rewrite (Hdoc Hn0). unfold finalize. rewrite Hk, Hb.
  rewrite bool_decide_eq_false_2 by (by intros []).
  cbn. intros [= <-]. exists (functions st).*2.
  split; [done|]. split.
  - rewrite named_values by done. exact Hn.
  - by apply first_clash_none in Hc as [? _].
Qed.

Lemma template_without_extends_is_one_class_witness :
  exists fns,
    for_empty_module
    = [mk_ClassDef (class_name (ParserState_init 0)) ["object"]
         (map CDef fns)]
    ∧ map fn_name fns = registration_order for_empty_template
    ∧ NoDup (registration_order for_empty_template).
Proof.
  apply (template_without_extends_is_one_class 1 no_files 0
           for_empty_template for_empty_module);
    [reflexivity|exact (compile_for_empty 0 no_files)].
Defined.




(** ** The leading fragment of every function *)

Section Leading.
Context (lp : string -> nat -> res (list ClassDef)).
Context (Hlp : good_loader lp).

Lemma append_body_starts name v fs fs' :
  append_body name v fs = Some fs' ->
  Forall (fun kf => starts_empty kf.2) fs ->
  Forall (fun kf => starts_empty kf.2) fs'.
Proof.
  revert fs'. induction fs as [|[k f] fs IH]; intros fs'; cbn; [done|].
  case_bool_decide.
  - intros [= <-] Hall. inversion Hall as [|? ? [b Hb] Hfs]; subst.
    constructor; [|done]. exists (b ++ [v]). cbn in *. by rewrite Hb.
  - destruct (append_body name v fs) as [fs''|]; cbn; [|done].
    intros [= <-] Hall. inversion Hall; subst. constructor; auto.
Qed.

Lemma del_key_starts {A} (P : string * A -> Prop) k l l' :
  del_key k l = Some l' -> Forall P l -> Forall P l'.
Proof.
  revert l'. induction l as [|[k' v] l IH]; intros l'; cbn; [done|].
  case_bool_decide.
  - intros [= <-] Hall. by inversion Hall.
  - destruct (del_key k l) as [l''|]; cbn; [|done].
    intros [= <-] Hall. inversion Hall; subst. constructor; auto.
Qed.

Lemma add_function_good st name body st' :
  add_function st name (build_function name body) = Ok st' ->
  good_state st -> good_state st'.
Proof.
  unfold add_function. case_bool_decide; [done|]. intros [= <-] [H1 H2].
  split; [|done]. cbn. apply Forall_app. split; [done|].
  constructor; [|done]. by exists body.
Qed.

Lemma append_to_block_good st v st' :
  append_to_block st v = Ok st' -> good_state st -> good_state st'.
Proof.
  unfold append_to_block.
  destruct (append_body _ _ _) as [fs'|] eqn:Hfs; [|done].
  intros [= <-] [H1 H2]. split; [|done]. by eapply append_body_starts.
Qed.

Lemma inner_rest_good items :
  Forall (keeps_good lp) items ->
  forall acc st a st',
    Structure.inner_rest (Structure.reduce lp) acc items st = Ok (a, st') ->
    good_state st -> good_state st'.
Proof.
  induction 1 as [|n items Hn _ IH]; intros acc st a st'; cbn.
  - by intros [= _ <-].
  - destruct (Structure.reduce lp n st) as [[s st1]|e] eqn:Hred; cbn; [|done].
    intros H Hg. eapply IH; [exact H|]. by eapply Hn.
Qed.

Lemma inner_good items :
  Forall (keeps_good lp) items ->
  forall st a st',
    Structure.inner (Structure.reduce lp) items st = Ok (a, st') ->
    good_state st -> good_state st'.
Proof.
  intros H st a st'. destruct H as [|n items Hn H]; cbn; [done|].
  destruct (Structure.reduce lp n st) as [[s st1]|e] eqn:Hred; cbn; [|done].
  intros Hr Hg. eapply inner_rest_good; [done|exact Hr|]. by eapply Hn.
Qed.

Lemma reduce_good n : keeps_good lp n.
Proof.
  induction n as [t|t|c b o Hb Ho|a b o Hb Ho|a b Hb|a|t] using node_induction;
    intros st s st'; cbn [Structure.reduce].
  - by intros [= _ <-].
  - destruct (Structure.var__varstart_CONTENT_varend t); cbn; [|done].
    by intros [= _ <-].
  - destruct o as [ob|].
    + destruct (Structure.inner _ b st) as [[b' st1]|e] eqn:H1; cbn; [|done].
      destruct (Structure.inner _ ob st1) as [[o' st2]|e] eqn:H2; cbn; [|done].
      destruct (Structure.if__else_impl c b' o'); cbn; [|done].
      intros [= _ <-] Hg.
      exact (inner_good ob Ho _ _ _ H2 (inner_good b Hb _ _ _ H1 Hg)).
    + destruct (Structure.inner _ b st) as [[b' st1]|e] eqn:H1; cbn; [|done].
      destruct (Structure.if__impl c b'); cbn; [|done].
      intros [= _ <-] Hg. exact (inner_good b Hb _ _ _ H1 Hg).
  - destruct o as [[kw ob]|].
    + destruct (Structure.inner _ b st) as [[b' st1]|e] eqn:H1; cbn; [|done].
      destruct (Structure.inner _ ob st1) as [[o' st2]|e] eqn:H2; cbn; [|done].
      destruct (Structure.for__else_impl a b' o'); cbn; [|done].
      intros [= _ <-] Hg.
      exact (inner_good ob Ho _ _ _ H2 (inner_good b Hb _ _ _ H1 Hg)).
    + destruct (Structure.inner _ b st) as [[b' st1]|e] eqn:H1; cbn; [|done].
      destruct (Structure.for__impl a b'); cbn; [|done].
      intros [= _ <-] Hg. exact (inner_good b Hb _ _ _ H1 Hg).
  - destruct (Structure.inner _ b st) as [[b' st1]|e] eqn:H1; cbn; [|done].
    unfold Structure.block__impl.
    destruct (split_tag_args_string a) as [[|name [|? ?]]|e]; cbn; try done.
    destruct (add_function st1 name _) as [st2|e] eqn:H2; cbn; [|done].
    intros [= _ <-] Hg.
    exact (add_function_good _ _ _ _ H2 (inner_good b Hb _ _ _ H1 Hg)).
  - unfold Structure.extends__impl.
    destruct (split_tag_args_string a) as [[|name [|? ?]]|e]; cbn; try done.
    destruct (lp name (S (level st))) as [cs|e] eqn:Hcs; cbn; [|done].
    intros [= _ <-] [H1 H2]. split; [done|]. cbn.
    apply Forall_fmap. apply (Hlp _ _ _ Hcs).
  - by intros [= _ <-].
Qed.

Lemma doc_rest_good items st st' :
  Structure.doc_rest lp items st = Ok st' -> good_state st -> good_state st'.
Proof.
  revert st. induction items as [|n items IH]; intros st; cbn.
  - by intros [= <-].
  - destruct (Structure.reduce lp n st) as [[s st1]|e] eqn:Hred; cbn; [|done].
    destruct (Structure.doc_next st1 s) as [st2|e] eqn:Hnext; cbn; [|done].
    intros H Hg. apply (IH _ H).
    pose proof (reduce_good n _ _ _ Hred Hg) as Hg1.
    destruct s; cbn in Hnext; try (by eapply append_to_block_good).
    by injection Hnext as <-.
Qed.

Lemma doc_first_good st s doc st' :
  Structure.doc_first st s = Ok (doc, st') -> good_state st -> good_state st'.
Proof.
  unfold Structure.doc_first, build_class.
  destruct (add_function _ "root" _) as [st1|e] eqn:H1; cbn; [|done].
  destruct (append_to_block st1 _) as [st2|e] eqn:H2; cbn; [|done].
  intros [= _ <-] Hg.
  pose proof (add_function_good _ _ _ _ H1 Hg) as Hg1.
  destruct (append_to_block_good _ _ _ H2 Hg1) as [H3 H4].
  split; [done|]. cbn. apply Forall_app. split; [done|]. by constructor.
Qed.

End Leading.

Lemma resolve_good st l :
  Forall (fun r => match r with
                   | Parent c => class_starts_empty c
                   | Own => True
                   end) l ->
  (forall k, klass st = Some k -> class_starts_empty k) ->
  Forall class_starts_empty (resolve st l).
Proof.
  intros Hl Hk. induction Hl as [|[c|] l Hc _ IH]; cbn;
    [constructor|by constructor|].
  unfold resolve in IH.
  destruct (klass st) as [k|]; [|exact IH]. constructor; auto.
Qed.

Lemma values_start (fs : list (string * FunctionDef)) :
  Forall (fun kf => starts_empty kf.2) fs ->
  Forall starts_empty (class_defs (map CDef fs.*2)).
Proof. rewrite class_defs_CDef. intros H. by apply Forall_fmap. Qed.

Lemma compile_at_good f :
  forall fs lvl items m,
    compile_at f fs lvl items = Ok m -> Forall class_starts_empty m.
Proof.
  induction f as [|f IH]; intros fs lvl items m; [done|].
  rewrite compile_at_unfold.
  assert (Hlp : good_loader (loader f fs)).
  { intros filename l cs. unfold loader.
    destruct (fs filename) as [tree|e]; cbn; [apply IH|done]. }
  destruct items as [|n r]; [done|].
  pose proof (parse_spec (loader f fs) lvl n r) as H.
  destruct (Structure.parse _ _ _) as [[doc st]|e] eqn:Hparse;
    cbn [mbind res_bind rbind]; [|done].
  destruct H as (_ & _ & _ & Hk & _).
  cbn [Structure.parse] in Hparse.
  destruct (Structure.reduce _ n _) as [[s st1]|e] eqn:Hred;
    cbn [mbind res_bind rbind] in Hparse; [|done].
  destruct (Structure.doc_first st1 s) as [[doc' st2]|e] eqn:Hfirst;
    cbn [mbind res_bind rbind] in Hparse; [|done].
  destruct (Structure.doc_rest _ r st2) as [st3|e] eqn:Hrest;
    cbn [mbind res_bind rbind] in Hparse; [|done].
  injection Hparse as -> ->.
  assert (Hg1 : good_state st1).
  { apply (reduce_good _ Hlp n _ _ _ Hred). by split. }
  pose proof (doc_first_good _ _ _ _ Hfirst Hg1) as Hg2.
  pose proof (doc_rest_good _ Hlp _ _ _ Hrest Hg2) as [Hg3 _].
  apply doc_first_moved in Hfirst as (_ & _ & ->).
  unfold finalize. rewrite Hk. case_bool_decide.
  - destruct (del_key "root" (functions st)) as [fs'|] eqn:Hdel; cbn; [|done].
    intros [= <-]. apply resolve_good.
    + apply Forall_app. split; [apply Hg1|by constructor].
    + cbn. intros k [= <-]. unfold class_starts_empty. cbn [cls_body app].
      change (class_defs (CPass :: map CDef fs'.*2))
        with (class_defs (map CDef fs'.*2)).
      apply values_start. by eapply del_key_starts.
  - cbn. intros [= <-]. apply resolve_good.
    + apply Forall_app. split; [apply Hg1|by constructor].
    + cbn. intros k [= <-]. unfold class_starts_empty. cbn [cls_body app].
      by apply values_start.
Qed.

(** X11. Every function of every class of a compiled module, those of
    the parents included, starts with the statement that yields the empty
    string, which [build_function] puts first: later statements are
    appended after it and [finalize] keeps the bodies. *)
Theorem every_function_starts_with_the_empty_fragment
    (f : nat) (fs : files) (lvl : nat) (items : list node)
    (m : list ClassDef) :
  compile_at f fs lvl items = Ok m ->
  forall c fn,
    c ∈ m -> CDef fn ∈ cls_body c ->
    exists body, fn_body fn = Yield (Str "") :: body.
Proof.
  intros Hm c fn Hc Hfn.
  pose proof (compile_at_good f fs lvl items m Hm) as Hall.
  rewrite Forall_forall in Hall. specialize (Hall c Hc).
  unfold class_starts_empty in Hall. rewrite Forall_forall in Hall.
  apply Hall. unfold class_defs. apply list_elem_of_omap.
  by exists (CDef fn).
Qed.

Lemma every_function_starts_with_the_empty_fragment_witness :
  exists body,
    fn_body (mk_FunctionDef "body" [Yield (Str ""); Yield (Str "child")])
    = Yield (Str "") :: body.
Proof.
  apply (every_function_starts_with_the_empty_fragment 2 base_files 0
           child_template child_module compile_child_template
           (mk_ClassDef "Template" ["Template1"]
              [CPass;
               CDef (mk_FunctionDef "body"
                       [Yield (Str ""); Yield (Str "child")])]));
    repeat constructor.
Defined.

(** ** Failing parents, and what the tags render *)

(** X12. A template that starts with [extends] fails as the loading of
    its parent fails: a file that cannot be opened or a parent that does
    not compile gives its own error, whatever follows the tag. *)
Theorem extends_fails_as_its_parent_does
    (f : nat) (fs : files) (lvl : nat) (path args : string)
    (rest : list node) (e : exn) :
  split_tag_args_string args = Ok [path] ->
  loader f fs path (S lvl) = Err e ->
  compile_at (S f) fs lvl (NExtends args :: rest) = Err e.
Proof.
  intros Hsplit Hload. rewrite compile_at_unfold.
  cbn [Structure.parse Structure.reduce]. unfold Structure.extends__impl.
  rewrite Hsplit. cbn [mbind res_bind rbind level ParserState_init].
  by rewrite Hload.
Qed.

Lemma extends_fails_as_its_parent_does_witness :
  compile_at 1 no_files 0 [NExtends "missing"; NContent "x"]
  = Err (IOError "missing").
Proof.
  apply (extends_fails_as_its_parent_does 0 no_files 0 "missing");
    reflexivity.
Defined.

(** X13. A template that extends its own file never compiles: every
    [extends] parses the file once more, one level up, and the recursion
    ends only when the stack is exhausted, whatever depth it has. *)
Theorem template_that_extends_itself_never_compiles
    (f : nat) (fs : files) (lvl : nat) (path args : string)
    (rest : list node) :
  split_tag_args_string args = Ok [path] ->
  fs path = Ok (NExtends args :: rest) ->
  compile_at f fs lvl (NExtends args :: rest) = Err RecursionError.
Proof.
  intros Hsplit Hfs. revert lvl. induction f as [|f IH]; intros lvl; [done|].
  rewrite compile_at_unfold.
  cbn [Structure.parse Structure.reduce]. unfold Structure.extends__impl.
  rewrite Hsplit. cbn [mbind res_bind rbind level ParserState_init].
  change (loader f fs path (S lvl))
    with (tree ← fs path; compile_at f fs (S lvl) tree).
  rewrite Hfs. cbn [mbind res_bind rbind]. by rewrite IH.
Qed.

Lemma template_that_extends_itself_never_compiles_witness :
  compile_at 7 (fun _ => Ok [NExtends "self"; NContent "x"]) 0
    [NExtends "self"; NContent "x"]
  = Err RecursionError.
Proof.
  apply (template_that_extends_itself_never_compiles 7
           (fun _ => Ok [NExtends "self"; NContent "x"]) 0 "self");
    reflexivity.
Defined.

Lemma compile_var f fs text e :
  parse_expression text = Ok e ->
  compile (S f) fs [NVar text]
  = Ok [mk_ClassDef "Template" ["object"]
          [CDef (mk_FunctionDef "root"
             [Yield (Str "");
              Yield (Call (Name "auto_escape") [e] [])])]].
Proof.
  intros H. unfold compile. rewrite compile_at_unfold.
  cbn [Structure.parse Structure.reduce].
  unfold Structure.var__varstart_CONTENT_varend. rewrite H. reflexivity.
Qed.

(** X14. The value of a variable tag always goes through the escaping
    function: [{{ e }}] renders the empty leading fragment and the escaped
    value of [e]; when the evaluation of [e] raises, the render raises
    that error after the leading fragment. *)
Theorem variables_are_escaped
    (g : globals) (fs : files) (f k : nat) (text : string) (e : expr)
    (ctx : gmap string value) :
  parse_expression text = Ok e ->
  exists m,
    compile (S f) fs [NVar text] = Ok m
    ∧ render g (S k) m ctx
      = match eval g ctx e with
        | Ok v => Done (mk_state ctx [""; auto_escape g v])
        | Err x => Raised x (mk_state ctx [""])
        end.
Proof.
  intros H. eexists. split; [by apply compile_var|].
  erewrite render_unfold by reflexivity.
  unfold exec_block. cbn [fn_body]. rewrite run_block_cons.
  erewrite exec_yield by reflexivity. cbn [run_bind context output app].
  rewrite run_block_cons. cbn [exec_stmt context].
  rewrite eval_call. cbn [eval]. rewrite lookup_global_auto_escape.
  cbn [mbind res_bind rbind eval_args eval_kwargs].
  destruct (eval g ctx e) as [v|x]; reflexivity.
Qed.

Lemma variables_are_escaped_witness :
  exists m,
    compile 1 no_files [NVar " x "] = Ok m
    ∧ render host 1 m {["x" := VInt 3]}
      = match eval host {["x" := VInt 3]}
                (Subscript (Name "context") (Str "x")) with
        | Ok v => Done (mk_state {["x" := VInt 3]} [""; auto_escape host v])
        | Err x => Raised x (mk_state {["x" := VInt 3]} [""])
        end.
Proof.
  apply (variables_are_escaped host no_files 0 0 " x "). by vm_compute.
Defined.

Lemma compile_if_else f fs cond e a b :
  parse_expression cond = Ok e ->
  compile (S f) fs [NIf cond [NContent a] (Some [NContent b])]
  = Ok [mk_ClassDef "Template" ["object"]
          [CDef (mk_FunctionDef "root"
             [Yield (Str ""); If e [Yield (Str a)] [Yield (Str b)]])]].
Proof.
  intros H. unfold compile. rewrite compile_at_unfold.
  cbn [Structure.parse Structure.reduce Structure.inner Structure.inner_rest
       mbind res_bind rbind Structure.inner_first].
  unfold Structure.if__else_impl. rewrite H. reflexivity.
Qed.

Lemma compile_if f fs cond e a :
  parse_expression cond = Ok e ->
  compile (S f) fs [NIf cond [NContent a] None]
  = Ok [mk_ClassDef "Template" ["object"]
          [CDef (mk_FunctionDef "root"
             [Yield (Str ""); If e [Yield (Str a)] []])]].
Proof.
  intros H. unfold compile. rewrite compile_at_unfold.
  cbn [Structure.parse Structure.reduce Structure.inner Structure.inner_rest
       mbind res_bind rbind Structure.inner_first].
  unfold Structure.if__impl. rewrite H. reflexivity.
Qed.

(** X15. An [if] tag renders the branch that its test selects: the body
    when the value of the test is true in the sense of Python, the [else]
    branch, or nothing when there is none, otherwise; when the test
    raises, the render raises that error. *)
Theorem if_renders_the_branch_of_its_test
    (g : globals) (fs : files) (f k : nat) (cond : string) (e : expr)
    (a b : string) (ctx : gmap string value) :
  parse_expression cond = Ok e ->
  (exists m,
     compile (S f) fs [NIf cond [NContent a] (Some [NContent b])] = Ok m
     ∧ render g (S (S k)) m ctx
       = match eval g ctx e with
         | Ok v => Done (mk_state ctx [""; if truthy v then a else b])
         | Err x => Raised x (mk_state ctx [""])
         end)
  ∧ (exists m,
       compile (S f) fs [NIf cond [NContent a] None] = Ok m
       ∧ render g (S (S k)) m ctx
         = match eval g ctx e with
           | Ok v => Done (mk_state ctx ("" :: if truthy v then [a] else []))
           | Err x => Raised x (mk_state ctx [""])
           end).
Proof.
  intros H. split.
  - eexists. split; [by apply compile_if_else|].
    erewrite render_unfold by reflexivity.
    unfold exec_block. cbn [fn_body]. rewrite run_block_cons.
    erewrite exec_yield by reflexivity. cbn [run_bind context output app].
    rewrite run_block_cons. cbn [exec_stmt context].
    destruct (eval g ctx e) as [v|x]; [|reflexivity].
    cbn [lift]. by destruct (truthy v).
  - eexists. split; [by apply compile_if|].
    erewrite render_unfold by reflexivity.
    unfold exec_block. cbn [fn_body]. rewrite run_block_cons.
    erewrite exec_yield by reflexivity. cbn [run_bind context output app].
    rewrite run_block_cons. cbn [exec_stmt context].
    destruct (eval g ctx e) as [v|x]; [|reflexivity].
    cbn [lift]. by destruct (truthy v).
Qed.

Lemma if_renders_the_branch_of_its_test_witness :
  exists m,
    compile 1 no_files [NIf " x " [NContent "yes"] (Some [NContent "no"])]
    = Ok m
    ∧ render host 2 m {["x" := VInt 0]}
      = match eval host {["x" := VInt 0]}
                (Subscript (Name "context") (Str "x")) with
        | Ok v =>
            Done (mk_state {["x" := VInt 0]}
                    [""; if truthy v then "yes" else "no"])
        | Err x => Raised x (mk_state {["x" := VInt 0]} [""])
        end.
Proof.
  apply (if_renders_the_branch_of_its_test host no_files 0 0 " x "
           (Subscript (Name "context") (Str "x")) "yes" "no").
  by vm_compute.
Defined.

Lemma compile_for f fs args target var e b :
  split_tag_args_string args = Ok [target; "in"; var] ->
  parse_expression var = Ok e ->
  compile (S f) fs [NFor args [NContent b] None]
  = Ok [mk_ClassDef "Template" ["object"]
          [CDef (mk_FunctionDef "root"
             [Yield (Str "");
              For (Subscript (Name "context") (Str target)) e
                  [Yield (Str b)] []])]].
Proof.
  intros Hs He. unfold compile. rewrite compile_at_unfold.
  cbn [Structure.parse Structure.reduce Structure.inner Structure.inner_rest
       mbind res_bind rbind Structure.inner_first].
  unfold Structure.for__impl. rewrite Hs. cbn [mbind res_bind rbind].
  rewrite bool_decide_eq_false_2 by (by intros []).
  rewrite He. reflexivity.
Qed.

(** The iterations of a loop whose body yields one fragment: the items
    are stored under the target one after the other. *)
Lemma for_loop_of_text g self k target b vs st :
  run_for
    (fun v st1 =>
       run_bind (assign g (Subscript (Name "context") (Str target)) v st1)
         (run_block (exec_stmt g (S k) self) [Yield (Str b)]))
    vs st
  = Done (mk_state (foldl (fun c v => <[target := v]> c) (context st) vs)
            (output st ++ map (fun _ => b) vs)).
Proof.
  revert st. induction vs as [|v vs IH]; intros [ctx out]; cbn [run_for].
  - cbn. by rewrite app_nil_r.
  - py_step. rewrite IH. cbn -[insert]. by rewrite <- app_assoc.
Qed.

(** X16. A [for] tag evaluates its iterable once, then renders its body
    once for every item, in order, each item stored under the target name
    before the body runs; a value that cannot be iterated raises. *)
Theorem for_renders_its_body_for_every_item
    (g : globals) (fs : files) (f k : nat) (args target var : string)
    (e : expr) (b : string) (it : value) (ctx : gmap string value) :
  split_tag_args_string args = Ok [target; "in"; var] ->
  parse_expression var = Ok e ->
  eval g ctx e = Ok it ->
  exists m,
    compile (S f) fs [NFor args [NContent b] None] = Ok m
    ∧ render g (S (S k)) m ctx
      = match iterate it with
        | Ok vs =>
            Done (mk_state (foldl (fun c v => <[target := v]> c) ctx vs)
                    ("" :: map (fun _ => b) vs))
        | Err x => Raised x (mk_state ctx [""])
        end.
Proof.
  intros Hs He Hit. eexists. split; [by eapply compile_for|].
  erewrite render_unfold by reflexivity.
  unfold exec_block. cbn [fn_body]. rewrite run_block_cons.
  erewrite exec_yield by reflexivity. cbn [run_bind context output app].
  rewrite run_block_cons.
  destruct (iterate it) as [vs|x] eqn:Hvs.
  - erewrite exec_for by done. rewrite for_loop_of_text. reflexivity.
  - cbn [exec_stmt context]. rewrite Hit. cbn [lift]. by rewrite Hvs.
Qed.

Lemma for_renders_its_body_for_every_item_witness :
  exists m,
    compile 1 no_files [NFor " i in items " [NContent "*"] None] = Ok m
    ∧ render host 2 m {["items" := VList [VInt 1; VInt 2]]}
      = match iterate (VList [VInt 1; VInt 2]) with
        | Ok vs =>
            Done (mk_state
                    (foldl (fun c v => <["i" := v]> c)
                       {["items" := VList [VInt 1; VInt 2]]} vs)
                    ("" :: map (fun _ => "*") vs))
        | Err x =>
            Raised x (mk_state {["items" := VList [VInt 1; VInt 2]]} [""])
        end.
Proof.
  apply (for_renders_its_body_for_every_item host no_files 0 0
           " i in items " "i" "items"
           (Subscript (Name "context") (Str "items")));
    by vm_compute.
Defined.





(** ** The expression grammar: operators, brackets and arguments *)

Module GrammarFacts.
Import ExprParser ParserSpec GrammarSpec ParserFacts.

Lemma parse_expr_literal f minp t e ts :
  literal t = Ok e ->
  parse_expr (S f) minp (t :: ts) = parse_loop f minp e ts.
Proof.
  intros H. cbn [parse_expr]. destruct t as [[] s]; try discriminate H;
    by rewrite H.
Qed.

Lemma parse_loop_nil f minp lhs : parse_loop (S f) minp lhs [] = Ok (lhs, []).
Proof. done. Qed.

Lemma binary_follower ty : binary ty = true -> is_operand_follower ty = true.
Proof. by destruct ty. Qed.

Lemma shifts_binary minp ty :
  binary ty = true -> shifts minp ty = (minp <? snd (prec_of ty))%nat.
Proof.
  intros H. unfold shifts.
  destruct ty; try discriminate H;
    match goal with
    | |- context [prec_of ?t] =>
        let v := eval vm_compute in (prec_of t) in change (prec_of t) with v
    end;
    cbn [snd]; rewrite bool_decide_eq_false_2 by done;
    by rewrite andb_false_r, orb_false_r.
Qed.

Lemma parse_loop_binary f minp lhs op ts :
  binary (gettokentype op) = true ->
  parse_loop (S f) minp lhs (op :: ts)
  = if (minp <? level_of op)%nat then
      '(rhs, ts2) ← parse_expr f (level_of op) ts;
      parse_loop f minp (binary_node lhs op rhs) ts2
    else Ok (lhs, op :: ts).
Proof.
  intros H. cbn [parse_loop]. rewrite (binary_follower _ H), (shifts_binary _ _ H).
  unfold level_of. cbn [andb].
  destruct (minp <? snd (prec_of (gettokentype op)))%nat; [|done].
  destruct op as [ty s]. destruct ty; try discriminate H; cbn [gettokentype];
    f_equal.
Qed.

Lemma level_binary_pos op :
  binary (gettokentype op) = true -> (0 <? level_of op)%nat = true.
Proof.
  destruct op as [ty s]. unfold level_of. cbn [gettokentype]. intros H.
  destruct ty; try discriminate H; by vm_compute.
Qed.

(** X18. Two binary operators in a row group by their levels in the
    precedence table of [pg]: with literal operands, [a o1 b o2 c] is
    [a o1 (b o2 c)] when the level of [o2] is above that of [o1] and
    [(a o1 b) o2 c] otherwise; every level is left associative; a
    comparison is a binary operator like another and is never chained. *)
Theorem binary_operators_follow_the_table
    (ta o1 tb o2 tc : token) (a b c : expr) :
  literal ta = Ok a -> literal tb = Ok b -> literal tc = Ok c ->
  binary (gettokentype o1) = true -> binary (gettokentype o2) = true ->
  parse [ta; o1; tb; o2; tc]
  = Ok (if (level_of o1 <? level_of o2)%nat
        then binary_node a o1 (binary_node b o2 c)
        else binary_node (binary_node a o1 b) o2 c).
Proof.
  intros Ha Hb Hc H1 H2. unfold parse.
  change (4 * List.length [ta; o1; tb; o2; tc] + 4)%nat with 24%nat.
  rewrite (parse_expr_literal _ _ _ _ _ Ha).
  rewrite (parse_loop_binary _ _ _ _ _ H1), (level_binary_pos _ H1).
  rewrite (parse_expr_literal _ _ _ _ _ Hb).
  rewrite (parse_loop_binary _ _ _ _ _ H2).
  destruct (level_of o1 <? level_of o2)%nat.
  - rewrite (parse_expr_literal _ _ _ _ _ Hc), parse_loop_nil.
    cbn [mbind res_bind rbind]. rewrite parse_loop_nil.
    cbn [mbind res_bind rbind]. by rewrite parse_loop_nil.
  - cbn [mbind res_bind rbind].
    rewrite (parse_loop_binary _ _ _ _ _ H2), (level_binary_pos _ H2).
    rewrite (parse_expr_literal _ _ _ _ _ Hc), parse_loop_nil.
    cbn [mbind res_bind rbind]. by rewrite parse_loop_nil.
Qed.

Lemma binary_operators_follow_the_table_witness :
  parse [Token NUMBER "1"; Token MINUS "-"; Token NUMBER "2";
         Token MINUS "-"; Token NUMBER "3"]
  = Ok (BinOp (BinOp (Num (NInt 1)) Sub (Num (NInt 2))) Sub (Num (NInt 3)))
  ∧ parse [Token NUMBER "1"; Token LT "<"; Token NUMBER "2";
           Token PLUS "+"; Token NUMBER "3"]
    = Ok (Compare (Num (NInt 1)) Lt
            (BinOp (Num (NInt 2)) Add (Num (NInt 3)))).
Proof.
  split.
  - refine (binary_operators_follow_the_table
              (Token NUMBER "1") (Token MINUS "-") (Token NUMBER "2")
              (Token MINUS "-") (Token NUMBER "3")
              (Num (NInt 1)) (Num (NInt 2)) (Num (NInt 3)) _ _ _ _ _);
      reflexivity.
  - refine (binary_operators_follow_the_table
              (Token NUMBER "1") (Token LT "<") (Token NUMBER "2")
              (Token PLUS "+") (Token NUMBER "3")
              (Num (NInt 1)) (Num (NInt 2)) (Num (NInt 3)) _ _ _ _ _);
      reflexivity.
Defined.

Lemma parse_lookup_name_leaves f acc : leaves (parse_lookup_name f acc).
Proof.
  revert acc. induction f as [|f IH]; intros acc ts x r t; [done|]. cbn.
  destruct ts as [|[[] s] ts]; try (intros [= <- <-]; by left).
  destruct ts as [|[[] s'] ts]; try triv.
  intros E Hin.
  apply elem_of_cons in Hin as [->|Hin]; [by right|].
  apply elem_of_cons in Hin as [->|Hin]; [by right|].
  by apply (IH _ _ _ _ _ E).
Qed.

(** In sequence: what the first function leaves, the second reads. *)
Lemma leaves_then {A} (run : list token -> res (A * list token))
    ts x ts' (r : list token) t :
  leaves run -> run ts = Ok (x, ts') ->
  (t ∈ ts' -> t ∈ r ∨ in_grammar (gettokentype t) = true) ->
  t ∈ ts -> t ∈ r ∨ in_grammar (gettokentype t) = true.
Proof.
  intros Hrun E Hnext Hin. destruct (Hrun _ _ _ _ E Hin) as [?|?]; auto.
Qed.

Lemma parse_reads_the_grammar f : leaves_at f.
Proof.
  induction f as [|f (IHe & IHl & IHc & IHa & IHk & IHf)].
  { repeat split; repeat intro; discriminate. }
  split; [|split; [|split; [|split; [|split]]]].
  - (* parse_expr *)
    intros minp ts e r t. cbn [parse_expr].
    destruct ts as [|[ty s] ts]; [triv|].
    destruct ty; cbn [mbind res_bind rbind];
      try (destruct (literal _) as [e0|] eqn:Hl; cbn [mbind res_bind rbind];
           [|triv];
           intros E Hin; apply elem_of_cons in Hin as [->|Hin];
           [first [by right|discriminate Hl]|];
           by apply (IHl _ _ _ _ _ _ E)).
    destruct (parse_expr f 0 ts) as [[e1 ts2]|] eqn:E1; [|triv].
    cbn [mbind res_bind rbind].
    destruct ts2 as [|[[] s2] ts3]; try triv.
    intros E Hin. apply elem_of_cons in Hin as [->|Hin]; [by right|].
    apply (leaves_then _ _ _ _ _ _ (IHe 0%nat) E1); [|done].
    intros Hin2. apply elem_of_cons in Hin2 as [->|Hin2]; [by right|].
    by apply (IHl _ _ _ _ _ _ E).
  - (* parse_loop *)
    intros minp lhs ts e r t. cbn [parse_loop].
    destruct ts as [|[ty s] ts1]; [by intros [= <- <-]; left|].
    cbn [gettokentype].
    destruct (is_operand_follower ty && shifts minp ty) eqn:Hcond;
      [|by intros [= <- <-]; left].
    destruct ty; try (cbn in Hcond; discriminate Hcond);
      cbn [mbind res_bind rbind];
      try (destruct (parse_expr f _ ts1) as [[rhs ts2]|] eqn:E1; [|triv];
           cbn [mbind res_bind rbind];
           unfold expr_binop, expr_cmpop; cbn [gettokentype mbind option_bind
             _binop_mapping _cmpop_mapping];
           intros E Hin; apply elem_of_cons in Hin as [->|Hin]; [by right|];
           apply (leaves_then _ _ _ _ _ _ (IHe _) E1); [|done];
           by apply (IHl _ _ _ _ _ _ E)).
    + (* PIPE *)
      destruct (parse_filter f ts1) as [[fv ts2]|] eqn:E1; [|triv].
      cbn [mbind res_bind rbind].
      intros E Hin. apply elem_of_cons in Hin as [->|Hin]; [by right|].
      apply (leaves_then _ _ _ _ _ _ IHf E1); [|done].
      by apply (IHl _ _ _ _ _ _ E).
    + (* LSQB *)
      destruct (parse_expr f 0 ts1) as [[e1 ts2]|] eqn:E1; [|triv].
      cbn [mbind res_bind rbind].
      destruct ts2 as [|[[] s2] ts3]; try triv.
      intros E Hin. apply elem_of_cons in Hin as [->|Hin]; [by right|].
      apply (leaves_then _ _ _ _ _ _ (IHe 0%nat) E1); [|done].
      intros Hin2. apply elem_of_cons in Hin2 as [->|Hin2]; [by right|].
      by apply (IHl _ _ _ _ _ _ E).
    + (* DOT *)
      destruct ts1 as [|[[] ?] ?]; try triv.
      intros E Hin. apply elem_of_cons in Hin as [->|Hin]; [by right|].
      apply elem_of_cons in Hin as [->|Hin]; [by right|].
      by apply (IHl _ _ _ _ _ _ E).
    + (* LPAREN *)
      destruct (parse_call f ts1) as [[[a k] ts2]|] eqn:E1; [|triv].
      cbn [mbind res_bind rbind].
      intros E Hin. apply elem_of_cons in Hin as [->|Hin]; [by right|].
      apply (leaves_then _ _ _ _ _ _ IHc E1); [|done].
      by apply (IHl _ _ _ _ _ _ E).
  - (* parse_call *)
    intros ts x r t. cbn [parse_call].
    destruct ts as [|[[] ?] ts1]; try apply IHa.
    intros [= <- <-] Hin.
    apply elem_of_cons in Hin as [->|Hin]; [by right|by left].
  - (* parse_args *)
    intros acc ts x r t. cbn [parse_args].
    assert (Hexpr :
      (parse_expr f 0 ts ≫= λ '(e, ts1),
         match ts1 with
         | {| gettokentype := COMMA |} :: ts2 => parse_args f (acc ++ [e]) ts2
         | {| gettokentype := RPAREN |} :: ts2 => Ok (acc ++ [e], [], ts2)
         | _ => error
         end) = Ok (x, r) ->
      t ∈ ts -> t ∈ r ∨ in_grammar (gettokentype t) = true).
    { destruct (parse_expr f 0 ts) as [[e ts1]|] eqn:E1; [|triv].
      cbn [mbind res_bind rbind].
      destruct ts1 as [|[[] s1] ts2]; try triv.
      - intros E Hin. apply (leaves_then _ _ _ _ _ _ (IHe 0%nat) E1); [|done].
        intros Hin2. apply elem_of_cons in Hin2 as [->|Hin2]; [by right|].
        by apply (IHa _ _ _ _ _ E).
      - intros [= <- <-] Hin.
        apply (leaves_then _ _ _ _ _ _ (IHe 0%nat) E1); [|done].
        intros Hin2. apply elem_of_cons in Hin2 as [->|Hin2]; [by right|by left]. }
    destruct ts as [|[[] ?] ts']; try exact Hexpr.
    destruct ts' as [|[[] ?] ts'']; try exact Hexpr.
    apply IHk.
  - (* parse_kwargs *)
    intros acc kacc ts x r t. cbn [parse_kwargs].
    destruct ts as [|[[] ?] ts]; try triv.
    destruct ts as [|[[] ?] ts]; try triv.
    destruct (parse_expr f _ ts) as [[e ts1]|] eqn:E1; [|triv].
    cbn [mbind res_bind rbind].
    destruct ts1 as [|[[] s1] ts2]; try triv.
    + intros E Hin. apply elem_of_cons in Hin as [->|Hin]; [by right|].
      apply elem_of_cons in Hin as [->|Hin]; [by right|].
      apply (leaves_then _ _ _ _ _ _ (IHe _) E1); [|done].
      intros Hin2. apply elem_of_cons in Hin2 as [->|Hin2]; [by right|].
      by apply (IHk _ _ _ _ _ _ E).
    + intros [= <- <-] Hin. apply elem_of_cons in Hin as [->|Hin]; [by right|].
      apply elem_of_cons in Hin as [->|Hin]; [by right|].
      apply (leaves_then _ _ _ _ _ _ (IHe _) E1); [|done].
      intros Hin2. apply elem_of_cons in Hin2 as [->|Hin2]; [by right|by left].
  - (* parse_filter *)
    intros ts x r t. cbn [parse_filter].
    destruct ts as [|[[] ?] ts]; try triv.
    destruct (parse_lookup_name f _ ts) as [[filt ts2]|] eqn:E1; [|triv].
    cbn [mbind res_bind rbind].
    intros E Hin. apply elem_of_cons in Hin as [->|Hin]; [by right|].
    apply (leaves_then _ _ _ _ _ _ (parse_lookup_name_leaves f _) E1); [|done].
    clear Hin. intros Hin.
    destruct ts2 as [|[[] ?] ts2]; try (injection E as <- <-; by left).
    + (* LPAREN *)
      destruct (parse_call f ts2) as [[[a k] ts4]|] eqn:E2; [|triv].
      cbn [mbind res_bind rbind] in E. injection E as <- <-.
      apply elem_of_cons in Hin as [->|Hin]; [by right|].
      by apply (IHc _ _ _ _ E2).
    + (* COLON *)
      destruct ts2 as [|t2 ts3]; [triv|].
      destruct (literal t2) eqn:Hl; cbn [mbind res_bind rbind] in E; [|triv].
      injection E as <- <-.
      apply elem_of_cons in Hin as [->|Hin]; [by right|].
      apply elem_of_cons in Hin as [->|Hin]; [|by left].
      right. destruct t2 as [[] ?]; first [done|discriminate Hl].
Qed.

(** X19. The precedence table names AND and OR, but no production has
    them: a list of tokens that parses holds neither. *)
Theorem parser_never_accepts_and_or (ts : list token) (e : expr) :
  parse ts = Ok e ->
  Forall (fun t => gettokentype t <> AND ∧ gettokentype t <> OR) ts.
Proof.
  unfold parse.
  destruct (parse_expr _ 0 ts) as [[e' r]|] eqn:E; [|triv].
  cbn [mbind res_bind rbind]. destruct r as [|? ?]; [|triv]. intros _.
  apply Forall_forall. intros t Hin.
  destruct (parse_reads_the_grammar (4 * List.length ts + 4)) as (He & _).
  destruct (He _ _ _ _ _ E Hin) as [Hnil|Hg]; [by apply elem_of_nil in Hnil|].
  unfold in_grammar in Hg. apply negb_true_iff, orb_false_iff in Hg as [H1 H2].
  by apply bool_decide_eq_false in H1, H2.
Qed.

Lemma parser_never_accepts_and_or_witness :
  Forall (fun t => gettokentype t <> AND ∧ gettokentype t <> OR)
    [Token NAME "x"; Token PLUS "+"; Token NUMBER "1"].
Proof.
  refine (parser_never_accepts_and_or _
            (BinOp (name_NAME (Token NAME "x")) Add (Num (NInt 1))) _).
  by vm_compute.
Defined.

Lemma parse_args_nil f acc r : parse_args f acc [] <> Ok r.
Proof. destruct f as [|[|f]]; done. Qed.

Section Closer.
Context (c : token) (tl : list token).
Context (Hc : closes (gettokentype c) = true).

Lemma parse_lookup_name_closer f acc ts :
  grows (c :: tl) (parse_lookup_name f acc) ts.
Proof.
  revert acc ts. induction f as [|f IH]; intros acc ts x r; [done|]. cbn.
  destruct ts as [|[[] s] ts]; cbn [app]; try (intros [= <- <-]; done).
  - intros [= <- <-]. destruct c as [[] ?]; try discriminate Hc; done.
  - destruct ts as [|[[] s'] ts]; cbn [app]; try triv. apply IH.
Qed.

(** The parser on an input followed by a closing token. *)
Lemma parse_before_closer f : closed_at (c :: tl) f.
Proof.
  induction f as [|f (IHe & IHl & IHc & IHa & IHk & IHf)].
  { repeat split; repeat intro; discriminate. }
  split; [|split; [|split; [|split; [|split]]]].
  - (* parse_expr *)
    intros minp ts e r. cbn [parse_expr].
    destruct ts as [|[ty s] ts]; [triv|].
    destruct ty; cbn [app mbind res_bind rbind];
      try (destruct (literal _) as [e0|]; cbn [mbind res_bind rbind];
           [apply IHl|triv]).
    destruct (parse_expr f 0 ts) as [[e1 ts2]|] eqn:E; [|triv].
    rewrite (IHe _ _ _ _ E). cbn [mbind res_bind rbind].
    destruct ts2 as [|[[] s2] ts3]; cbn [app]; try triv. apply IHl.
  - (* parse_loop *)
    intros minp lhs ts e r. cbn [parse_loop].
    destruct ts as [|[ty s] ts1].
    { intros [= <- <-]. cbn [app].
      destruct c as [[] ?]; try discriminate Hc; done. }
    cbn [gettokentype app].
    destruct (is_operand_follower ty && shifts minp ty) eqn:Hcond;
      [|by intros [= <- <-]].
    destruct ty; try (cbn in Hcond; discriminate Hcond);
      cbn [mbind res_bind rbind];
      try (destruct (parse_expr f _ ts1) as [[rhs ts2]|] eqn:E; [|triv];
           rewrite (IHe _ _ _ _ E); cbn [mbind res_bind rbind];
           unfold expr_binop, expr_cmpop; cbn; apply IHl).
    + (* PIPE *)
      destruct (parse_filter f ts1) as [[fv' ts2]|] eqn:E; [|triv].
      rewrite (IHf _ _ _ E). cbn [mbind res_bind rbind]. apply IHl.
    + (* LSQB *)
      destruct (parse_expr f 0 ts1) as [[e1 ts2]|] eqn:E; [|triv].
      rewrite (IHe _ _ _ _ E). cbn [mbind res_bind rbind].
      destruct ts2 as [|[[] s2] ts3]; cbn [app]; try triv. apply IHl.
    + (* DOT *)
      destruct ts1 as [|[[] ?] ?]; cbn [app]; try triv. apply IHl.
    + (* LPAREN *)
      destruct (parse_call f ts1) as [[[a k] ts2]|] eqn:E; [|triv].
      rewrite (IHc _ _ _ E). cbn [mbind res_bind rbind]. apply IHl.
  - (* parse_call *)
    intros ts x r. cbn [parse_call].
    destruct ts as [|[[] ?] ts1]; cbn [app]; try apply (IHa [] (_ :: _)).
    + intros E. by destruct (parse_args_nil f [] _ E).
    + by intros [= <- <-].
  - (* parse_args *)
    intros acc ts. cbn [parse_args].
    assert (Hexpr : forall ts0,
              grows (c :: tl) (fun ts => parse_expr f 0 ts ≫= λ '(e, ts1),
                match ts1 with
                | {| gettokentype := COMMA |} :: ts2 => parse_args f (acc ++ [e]) ts2
                | {| gettokentype := RPAREN |} :: ts2 => Ok (acc ++ [e], [], ts2)
                | _ => error
                end) ts0).
    { intros ts0 x r.
      destruct (parse_expr f 0 ts0) as [[e ts1]|] eqn:E; [|triv].
      rewrite (IHe _ _ _ _ E). cbn [mbind res_bind rbind].
      destruct ts1 as [|[[] s1] ts2]; cbn [app]; try triv;
        [apply IHa|by intros [= <- <-]]. }
    destruct ts as [|[[] ?] ts]; try exact (Hexpr _).
    { intros x r E. by destruct (parse_args_nil (S f) acc _ E). }
    destruct ts as [|[[] ?] ts]; try exact (Hexpr _).
    + cbn [app]. destruct c as [[] ?]; try discriminate Hc; exact (Hexpr [_]).
    + apply (IHk acc [] (_ :: _ :: _)).
  - (* parse_kwargs *)
    intros acc kacc ts x r. cbn [parse_kwargs].
    destruct ts as [|[[] ?] ts]; try triv.
    destruct ts as [|[[] ?] ts]; try triv.
    cbn [app].
    destruct (parse_expr f _ ts) as [[e ts1]|] eqn:E; [|triv].
    rewrite (IHe _ _ _ _ E). cbn [mbind res_bind rbind].
    destruct ts1 as [|[[] s1] ts2]; cbn [app]; try triv;
      [apply IHk|by intros [= <- <-]].
  - (* parse_filter *)
    intros ts x r. cbn [parse_filter].
    destruct ts as [|[[] ?] ts]; try triv. cbn [app].
    destruct (parse_lookup_name f _ ts) as [[filt ts2]|] eqn:E; [|triv].
    rewrite (parse_lookup_name_closer _ _ _ _ _ E). cbn [mbind res_bind rbind].
    destruct ts2 as [|[[] ?] ts2]; cbn [app]; try (by intros [= <- <-]).
    + intros [= <- <-]. destruct c as [[] ?]; try discriminate Hc; done.
    + (* LPAREN *)
      destruct (parse_call f ts2) as [[[a k] ts4]|] eqn:E2; [|triv].
      rewrite (IHc _ _ _ E2). cbn. by intros [= <- <-].
    + (* COLON *)
      destruct ts2 as [|t ts3]; [triv|]. cbn [app].
      destruct (literal t); cbn; [by intros [= <- <-]|triv].
Qed.

End Closer.

Lemma parse_inv ts x :
  parse ts = Ok x -> parse_expr (4 * List.length ts + 4) 0 ts = Ok (x, []).
Proof.
  unfold parse.
  destruct (parse_expr _ 0 ts) as [[e r]|]; [|triv].
  cbn [mbind res_bind rbind]. destruct r; [|triv]. by intros [= <-].
Qed.

(** An expression before a closing token, under any fuel that is enough
    for the expression alone. *)
Lemma parse_closed ts x c tl F :
  parse ts = Ok x ->
  closes (gettokentype c) = true ->
  (4 * List.length ts + 4 <= F)%nat ->
  parse_expr F 0 (ts ++ c :: tl) = Ok (x, c :: tl).
Proof.
  intros Hx Hc HF. apply parse_inv in Hx.
  destruct (parse_before_closer c tl Hc (4 * List.length ts + 4)) as (He & _).
  destruct (parse_fuel_mono (4 * List.length ts + 4) F HF) as (Me & _).
  apply Me. exact (He _ _ _ _ Hx).
Qed.

Lemma parse_nonempty ts x : parse ts = Ok x -> ts <> [].
Proof. by intros H ->. Qed.

Lemma parse_expr_paren f minp s ts :
  parse_expr (S f) minp (Token LPAREN s :: ts)
  = ('(e, ts2) ← parse_expr f 0 ts;
     match ts2 with
     | Token RPAREN _ :: ts3 => parse_loop f minp (expr_binop_paren e) ts3
     | _ => error
     end).
Proof. reflexivity. Qed.

Lemma parse_loop_lsqb f lhs s ts :
  parse_loop (S f) 0 lhs (Token LSQB s :: ts)
  = ('(e, ts2) ← parse_expr f 0 ts;
     match ts2 with
     | Token RSQB _ :: ts3 => parse_loop f 0 (expr_SUBSCRIPT lhs e) ts3
     | _ => error
     end).
Proof. reflexivity. Qed.

(** X20. Brackets enclose a whole expression: for any tokens that parse
    to [x], the same tokens between parentheses parse to [x] too, and
    between square brackets after a literal [a] they parse to the
    subscript of [a] by [x]. *)
Theorem brackets_enclose_an_expression
    (ts : list token) (x : expr) (t : token) (a : expr) (l r : string) :
  parse ts = Ok x ->
  literal t = Ok a ->
  parse (Token LPAREN l :: ts ++ [Token RPAREN r]) = Ok x
  ∧ parse (t :: Token LSQB l :: ts ++ [Token RSQB r]) = Ok (expr_SUBSCRIPT a x).
Proof.
  intros Hx Ha. split.
  - unfold parse. cbn [List.length]. rewrite length_app. cbn [List.length].
    replace (4 * S (List.length ts + 1) + 4)%nat
      with (S (S (4 * List.length ts + 4 + 6))) by lia.
    rewrite parse_expr_paren.
    rewrite (parse_closed ts x (Token RPAREN r) [] _ Hx eq_refl) by lia.
    cbn [mbind res_bind rbind]. by rewrite parse_loop_nil.
  - unfold parse. cbn [List.length]. rewrite length_app. cbn [List.length].
    replace (4 * S (S (List.length ts + 1)) + 4)%nat
      with (S (S (S (4 * List.length ts + 4 + 9)))) by lia.
    rewrite (parse_expr_literal _ _ _ _ _ Ha), parse_loop_lsqb.
    rewrite (parse_closed ts x (Token RSQB r) [] _ Hx eq_refl) by lia.
    cbn [mbind res_bind rbind]. by rewrite parse_loop_nil.
Qed.

Lemma brackets_enclose_an_expression_witness :
  parse (Token LPAREN "(" :: [Token NUMBER "1"; Token PLUS "+";
                              Token NUMBER "2"] ++ [Token RPAREN ")"])
  = Ok (BinOp (Num (NInt 1)) Add (Num (NInt 2)))
  ∧ parse (Token NAME "a" :: Token LSQB "["
             :: [Token NUMBER "1"; Token PLUS "+"; Token NUMBER "2"]
             ++ [Token RSQB "]"])
    = Ok (expr_SUBSCRIPT (name_NAME (Token NAME "a"))
            (BinOp (Num (NInt 1)) Add (Num (NInt 2)))).
Proof.
  apply (brackets_enclose_an_expression
           [Token NUMBER "1"; Token PLUS "+"; Token NUMBER "2"]
           (BinOp (Num (NInt 1)) Add (Num (NInt 2)))
           (Token NAME "a") (name_NAME (Token NAME "a")) "(" ")");
    by vm_compute.
Defined.

Lemma parse_args_expr F acc ts x c tl :
  parse ts = Ok x ->
  closes (gettokentype c) = true ->
  parse_args (S F) acc (ts ++ c :: tl)
  = ('(e, ts1) ← parse_expr F 0 (ts ++ c :: tl);
     match ts1 with
     | Token COMMA _ :: ts2 => parse_args F (acc ++ [e]) ts2
     | Token RPAREN _ :: ts2 => Ok (acc ++ [e], [], ts2)
     | _ => error
     end).
Proof.
  intros Hx Hc. destruct ts as [|[ty s] ts']; [done|].
  destruct ty; try reflexivity.
  destruct ts' as [|[ty2 s2] ts'']; cbn [app].
  - destruct c as [[] ?]; try discriminate Hc; reflexivity.
  - destruct ty2; try reflexivity.
    unfold parse in Hx. cbn in Hx. discriminate Hx.
Qed.

Lemma parse_head ts x :
  parse ts = Ok x ->
  exists t ts', ts = t :: ts' ∧ gettokentype t <> RPAREN.
Proof.
  destruct ts as [|[ty s] ts']; [done|]. intros Hx. eexists _, _.
  split; [done|]. cbn. intros ->. unfold parse in Hx. cbn in Hx.
  discriminate Hx.
Qed.

Lemma parse_call_args f t ts :
  gettokentype t <> RPAREN ->
  parse_call (S f) (t :: ts) = parse_args f [] (t :: ts).
Proof. destruct t as [[] ?]; done. Qed.

Lemma parse_loop_lparen f lhs s ts :
  parse_loop (S f) 0 lhs (Token LPAREN s :: ts)
  = ('(a, k, ts2) ← parse_call f ts; parse_loop f 0 (expr_call lhs a k) ts2).
Proof. reflexivity. Qed.

(** An [arg_list] of expressions and the RPAREN after it. *)
Lemma parse_args_list s r tss xs :
  Forall2 (fun ts x => parse ts = Ok x) tss xs ->
  tss <> [] ->
  forall F acc,
    (4 * List.length (arg_list (Token COMMA s) tss) + 6 <= F)%nat ->
    parse_args F acc (arg_list (Token COMMA s) tss ++ [Token RPAREN r])
    = Ok (acc ++ xs, [], []).
Proof.
  induction 1 as [|ts x tss xs Hx Hall IH]; [done|]. intros _ F acc HF.
  destruct F as [|F]; [lia|].
  destruct tss as [|ts2 tss].
  - inversion Hall; subst. cbn [arg_list] in *.
    rewrite (parse_args_expr F acc ts x (Token RPAREN r) [] Hx eq_refl).
    rewrite (parse_closed ts x (Token RPAREN r) [] _ Hx eq_refl) by lia.
    reflexivity.
  - change (arg_list (Token COMMA s) (ts :: ts2 :: tss))
      with (ts ++ Token COMMA s :: arg_list (Token COMMA s) (ts2 :: tss)) in *.
    rewrite length_app in HF. cbn [List.length] in HF.
    rewrite <- app_assoc. cbn [app].
    rewrite (parse_args_expr F acc ts x (Token COMMA s) _ Hx eq_refl).
    rewrite (parse_closed ts x (Token COMMA s) _ _ Hx eq_refl) by lia.
    cbn [mbind res_bind rbind]. rewrite IH by (done || lia).
    by rewrite <- app_assoc.
Qed.

(** X21. The arguments of a call are parsed one by one and kept in
    order: for expressions given by any tokens that parse, with commas
    between them, the call of a literal on them is the call node with the
    parsed arguments in that order and no keyword. *)
Theorem call_arguments_are_parsed_in_order
    (t : token) (a : expr) (tss : list (list token)) (xs : list expr)
    (l s r : string) :
  literal t = Ok a ->
  Forall2 (fun ts x => parse ts = Ok x) tss xs ->
  tss <> [] ->
  parse (t :: Token LPAREN l :: arg_list (Token COMMA s) tss
           ++ [Token RPAREN r])
  = Ok (expr_args_call a xs).
Proof.
  intros Ha Hall Hne. unfold parse.
  cbn [List.length]. rewrite length_app. cbn [List.length].
  replace (4 * S (S (List.length (arg_list (Token COMMA s) tss) + 1)) + 4)%nat
    with (S (S (S (S (4 * List.length (arg_list (Token COMMA s) tss) + 12)))))
    by lia.
  rewrite (parse_expr_literal _ _ _ _ _ Ha), parse_loop_lparen.
  assert (Hhead : exists t0 ts0,
            arg_list (Token COMMA s) tss ++ [Token RPAREN r] = t0 :: ts0
            ∧ gettokentype t0 <> RPAREN).
  { destruct Hall as [|ts x tss xs Hx Hall]; [done|].
    destruct (parse_head _ _ Hx) as (t0 & ts0 & -> & Ht0).
    destruct tss; cbn; eauto. }
  destruct Hhead as (t0 & ts0 & Heq & Ht0).
  rewrite Heq, (parse_call_args _ _ _ Ht0), <- Heq.
  rewrite (parse_args_list s r tss xs Hall Hne) by lia.
  cbn [mbind res_bind rbind app]. rewrite parse_loop_nil.
  cbn [mbind res_bind rbind]. destruct Hall; done.
Qed.

Lemma call_arguments_are_parsed_in_order_witness :
  parse (Token NAME "f" :: Token LPAREN "("
           :: arg_list (Token COMMA ",")
                [[Token NUMBER "1"];
                 [Token NAME "x"; Token PLUS "+"; Token NUMBER "2"]]
           ++ [Token RPAREN ")"])
  = Ok (expr_args_call (name_NAME (Token NAME "f"))
          [Num (NInt 1);
           BinOp (name_NAME (Token NAME "x")) Add (Num (NInt 2))]).
Proof.
  apply (call_arguments_are_parsed_in_order (Token NAME "f")
           (name_NAME (Token NAME "f"))
           [[Token NUMBER "1"];
            [Token NAME "x"; Token PLUS "+"; Token NUMBER "2"]]
           [Num (NInt 1);
            BinOp (name_NAME (Token NAME "x")) Add (Num (NInt 2))]
           "(" "," ")").
  - reflexivity.
  - constructor; [by vm_compute|]. constructor; [by vm_compute|constructor].
  - discriminate.
Defined.

Lemma parse_lookup_name_dotted d ns :
  forall f acc,
    (List.length ns < f)%nat ->
    parse_lookup_name f acc (dotted d ns) = Ok (acc ++ map Str ns, []).
Proof.
  induction ns as [|n ns IH]; intros f acc Hf.
  - destruct f as [|f]; [lia|]. cbn. by rewrite app_nil_r.
  - destruct f as [|f]; [lia|]. cbn [dotted flat_map app parse_lookup_name].
    cbn [List.length] in Hf. unfold dotted in IH. rewrite IH by lia.
    unfold lookup_name_append. cbn [getstr map]. by rewrite <- app_assoc.
Qed.

Lemma parse_loop_dotted d ns :
  forall f minp lhs,
    shifts minp DOT = true ->
    parse_loop (List.length ns + S f) minp lhs (dotted d ns)
    = Ok (foldl Attribute lhs ns, []).
Proof.
  induction ns as [|n ns IH]; intros f minp lhs Hs; [done|].
  cbn [List.length Nat.add dotted flat_map app parse_loop gettokentype
       is_operand_follower]. rewrite Hs. cbn [andb].
  unfold dotted in IH. by rewrite IH.
Qed.

Lemma parse_loop_pipe f lhs p ts :
  parse_loop (S f) 0 lhs (Token PIPE p :: ts)
  = ('(fv, ts2) ← parse_filter f ts; parse_loop f 0 (expr_filter lhs fv) ts2).
Proof. reflexivity. Qed.

Lemma shifts_dot_binary op :
  binary (gettokentype op) = true -> shifts (level_of op) DOT = true.
Proof.
  destruct op as [ty s]. unfold level_of. cbn [gettokentype]. intros H.
  destruct ty; try discriminate H; by vm_compute.
Qed.

Lemma length_dotted d ns : List.length (dotted d ns) = (2 * List.length ns)%nat.
Proof.
  induction ns as [|n ns IH]; [done|].
  cbn [dotted flat_map app List.length]. unfold dotted in IH. rewrite IH. lia.
Qed.

(** X22. Attribute access chains to the left and binds tighter than
    every binary operator: [a.n1.n2] is the attribute [n2] of the
    attribute [n1] of [a], and in [a op b.n1.n2] the attributes are taken
    of [b] alone. *)
Theorem attribute_access_binds_tightest
    (ta op tb : token) (a b : expr) (d : string) (ns : list string) :
  literal ta = Ok a ->
  literal tb = Ok b ->
  binary (gettokentype op) = true ->
  parse (ta :: dotted d ns) = Ok (foldl Attribute a ns)
  ∧ parse (ta :: op :: tb :: dotted d ns)
    = Ok (binary_node a op (foldl Attribute b ns)).
Proof.
  intros Ha Hb Hop. split.
  - unfold parse. cbn [List.length]. rewrite length_dotted.
    replace (4 * S (2 * List.length ns) + 4)%nat
      with (S (List.length ns + S (7 * List.length ns + 6))) by lia.
    rewrite (parse_expr_literal _ _ _ _ _ Ha).
    by rewrite parse_loop_dotted.
  - unfold parse. cbn [List.length]. rewrite length_dotted.
    replace (4 * S (S (S (2 * List.length ns))) + 4)%nat
      with (S (S (S (List.length ns + S (7 * List.length ns + 12))))) by lia.
    rewrite (parse_expr_literal _ _ _ _ _ Ha).
    rewrite (parse_loop_binary _ _ _ _ _ Hop), (level_binary_pos _ Hop).
    rewrite (parse_expr_literal _ _ _ _ _ Hb).
    rewrite parse_loop_dotted by (by apply shifts_dot_binary).
    cbn [mbind res_bind rbind].
    replace (S (List.length ns + S (7 * List.length ns + 12)))
      with (S (8 * List.length ns + 13)) by lia.
    by rewrite parse_loop_nil.
Qed.

Lemma attribute_access_binds_tightest_witness :
  parse (Token NAME "a" :: dotted "." ["c"; "d"])
  = Ok (foldl Attribute (name_NAME (Token NAME "a")) ["c"; "d"])
  ∧ parse (Token NAME "a" :: Token MUL "*" :: Token NAME "b"
             :: dotted "." ["c"; "d"])
    = Ok (binary_node (name_NAME (Token NAME "a")) (Token MUL "*")
            (foldl Attribute (name_NAME (Token NAME "b")) ["c"; "d"])).
Proof.
  apply (attribute_access_binds_tightest (Token NAME "a") (Token MUL "*")
           (Token NAME "b")); reflexivity.
Defined.

Lemma parse_filter_dotted f n d ns :
  (List.length ns < f)%nat ->
  parse_filter (S f) (Token NAME n :: dotted d ns)
  = Ok (filter_pipe_lookup_name (map Str (n :: ns)), []).
Proof.
  intros Hf. cbn [parse_filter]. unfold lookup_name_NAME. cbn [getstr].
  by rewrite parse_lookup_name_dotted.
Qed.

Lemma parse_literal t a : literal t = Ok a -> parse [t] = Ok a.
Proof.
  intros Ha. unfold parse. cbn [List.length Nat.mul Nat.add].
  rewrite (parse_expr_literal _ _ _ _ _ Ha). by rewrite parse_loop_nil.
Qed.

Lemma parse_loop_closer f minp lhs c tl :
  closes (gettokentype c) = true ->
  parse_loop (S f) minp lhs (c :: tl) = Ok (lhs, c :: tl).
Proof. intros Hc. destruct c as [[] ?]; try discriminate Hc; done. Qed.

Lemma parse_kwargs_literal f acc kacc k s t v c tl :
  literal t = Ok v ->
  closes (gettokentype c) = true ->
  parse_kwargs (S (S (S f))) acc kacc
    (Token NAME k :: Token ASSIGN s :: t :: c :: tl)
  = match gettokentype c with
    | COMMA =>
        parse_kwargs (S (S f)) acc
          (kacc ++ [kwarg_assignment (Token NAME k) v]) tl
    | RPAREN => Ok (acc, kacc ++ [kwarg_assignment (Token NAME k) v], tl)
    | _ => error
    end.
Proof.
  intros Hv Hc. cbn [parse_kwargs].
  rewrite (parse_expr_literal _ _ _ _ _ Hv), (parse_loop_closer _ _ _ _ _ Hc).
  cbn [mbind res_bind rbind]. by destruct c as [[] ?].
Qed.

Lemma parse_args_kwargs f acc k s tl :
  parse_args (S f) acc (Token NAME k :: Token ASSIGN s :: tl)
  = parse_kwargs f acc [] (Token NAME k :: Token ASSIGN s :: tl).
Proof. reflexivity. Qed.

Lemma parse_call_kwargs f k s tl :
  parse_call (S (S f)) (Token NAME k :: Token ASSIGN s :: tl)
  = parse_kwargs f [] [] (Token NAME k :: Token ASSIGN s :: tl).
Proof. reflexivity. Qed.

Lemma parse_kwargs_positional f acc kacc t a tl :
  literal t = Ok a ->
  parse_kwargs (S f) acc kacc
    (t :: Token RPAREN tl :: [])
  = error.
Proof. intros _. by destruct t as [[] ?]. Qed.

(** X23. The four shapes of an argument list: [f()] is the call without
    arguments, [f(k=v)] the call with one keyword, [f(a, k=v)] the call
    with the positional argument and the keyword, and a positional
    argument after a keyword, [f(k=v, a)], is rejected as an unexpected
    token. *)
Theorem keyword_arguments_follow_positional_ones
    (t ta tv : token) (fn a v : expr) (k l s c r : string) :
  literal t = Ok fn ->
  literal ta = Ok a ->
  literal tv = Ok v ->
  parse [t; Token LPAREN l; Token RPAREN r] = Ok (expr_empty_call fn)
  ∧ parse [t; Token LPAREN l; Token NAME k; Token ASSIGN s; tv;
           Token RPAREN r]
    = Ok (expr_kwargs_call fn [kwarg_assignment (Token NAME k) v])
  ∧ parse [t; Token LPAREN l; ta; Token COMMA c;
           Token NAME k; Token ASSIGN s; tv; Token RPAREN r]
    = Ok (expr_full_call fn [a] [kwarg_assignment (Token NAME k) v])
  ∧ parse [t; Token LPAREN l; Token NAME k; Token ASSIGN s; tv;
           Token COMMA c; ta; Token RPAREN r]
    = Err (ValueError UnexpectedToken).
Proof.
  intros Hf Ha Hv. unfold parse. cbn [List.length Nat.mul Nat.add].
  split; [|split; [|split]].
  - rewrite (parse_expr_literal _ _ _ _ _ Hf). reflexivity.
  - rewrite (parse_expr_literal _ _ _ _ _ Hf), parse_loop_lparen.
    rewrite parse_call_kwargs.
    rewrite (parse_kwargs_literal _ _ _ _ _ _ _ (Token RPAREN r) _ Hv eq_refl).
    cbn [gettokentype mbind res_bind rbind]. by rewrite parse_loop_nil.
  - rewrite (parse_expr_literal _ _ _ _ _ Hf), parse_loop_lparen.
    assert (Hta : gettokentype ta <> RPAREN).
    { intros Heq. destruct ta as [ty ?]. cbn in Heq. subst ty. discriminate Ha. }
    rewrite (parse_call_args _ _ _ Hta).
    match goal with
    | |- context [parse_args (S ?F) [] (ta :: Token COMMA c :: ?tl)] =>
        pose proof (parse_args_expr F [] [ta] a (Token COMMA c) tl
                      (parse_literal _ _ Ha) eq_refl) as Hargs
    end.
    cbn [app] in Hargs. rewrite Hargs.
    rewrite (parse_expr_literal _ _ _ _ _ Ha).
    rewrite (parse_loop_closer _ _ _ (Token COMMA c) _ eq_refl).
    cbn [mbind res_bind rbind app]. rewrite parse_args_kwargs.
    rewrite (parse_kwargs_literal _ _ _ _ _ _ _ (Token RPAREN r) _ Hv eq_refl).
    cbn [gettokentype mbind res_bind rbind]. by rewrite parse_loop_nil.
  - rewrite (parse_expr_literal _ _ _ _ _ Hf), parse_loop_lparen.
    rewrite parse_call_kwargs.
    rewrite (parse_kwargs_literal _ _ _ _ _ _ _ (Token COMMA c) _ Hv eq_refl).
    cbn [gettokentype].
    by rewrite (parse_kwargs_positional _ _ _ _ _ _ Ha).
Qed.

Lemma keyword_arguments_follow_positional_ones_witness :
  parse [Token NAME "f"; Token LPAREN "("; Token RPAREN ")"]
  = Ok (expr_empty_call (name_NAME (Token NAME "f")))
  ∧ parse [Token NAME "f"; Token LPAREN "("; Token NAME "k";
           Token ASSIGN "="; Token NUMBER "2"; Token RPAREN ")"]
    = Ok (expr_kwargs_call (name_NAME (Token NAME "f"))
            [kwarg_assignment (Token NAME "k") (Num (NInt 2))])
  ∧ parse [Token NAME "f"; Token LPAREN "("; Token NUMBER "1";
           Token COMMA ","; Token NAME "k"; Token ASSIGN "=";
           Token NUMBER "2"; Token RPAREN ")"]
    = Ok (expr_full_call (name_NAME (Token NAME "f")) [Num (NInt 1)]
            [kwarg_assignment (Token NAME "k") (Num (NInt 2))])
  ∧ parse [Token NAME "f"; Token LPAREN "("; Token NAME "k";
           Token ASSIGN "="; Token NUMBER "2"; Token COMMA ",";
           Token NUMBER "1"; Token RPAREN ")"]
    = Err (ValueError UnexpectedToken).
Proof.
  apply (keyword_arguments_follow_positional_ones (Token NAME "f")
           (Token NUMBER "1") (Token NUMBER "2")); reflexivity.
Defined.

Lemma parse_filter_call f n l ts :
  parse_filter (S (S f)) (Token NAME n :: Token LPAREN l :: ts)
  = ('(a, k, ts4) ← parse_call (S f) ts;
     Ok (filter_call [Str n] a k, ts4)).
Proof. reflexivity. Qed.

(** X24. A filter with arguments in parentheses is called on its left
    operand first and then on its arguments in order: [a | n(x1, ...)] is
    the call of the filter [n] on [a, x1, ...], for arguments given by
    any tokens that parse. *)
Theorem filter_arguments_follow_the_operand
    (t : token) (a : expr) (tss : list (list token)) (xs : list expr)
    (p n l s r : string) :
  literal t = Ok a ->
  Forall2 (fun ts x => parse ts = Ok x) tss xs ->
  tss <> [] ->
  parse (t :: Token PIPE p :: Token NAME n :: Token LPAREN l
           :: arg_list (Token COMMA s) tss ++ [Token RPAREN r])
  = Ok (build_call (get_filter_func (get_lookup_name [Str n])) (a :: xs) []).
Proof.
  intros Ha Hall Hne. unfold parse.
  cbn [List.length]. rewrite length_app. cbn [List.length].
  replace (4 * S (S (S (S (List.length (arg_list (Token COMMA s) tss) + 1))))
           + 4)%nat
    with (S (S (S (S (S (4 * List.length (arg_list (Token COMMA s) tss)
                         + 19))))))
    by lia.
  rewrite (parse_expr_literal _ _ _ _ _ Ha), parse_loop_pipe.
  rewrite parse_filter_call.
  assert (Hhead : exists t0 ts0,
            arg_list (Token COMMA s) tss ++ [Token RPAREN r] = t0 :: ts0
            ∧ gettokentype t0 <> RPAREN).
  { destruct Hall as [|ts x tss xs Hx Hall]; [done|].
    destruct (parse_head _ _ Hx) as (t0 & ts0 & -> & Ht0).
    destruct tss; cbn; eauto. }
  destruct Hhead as (t0 & ts0 & Heq & Ht0).
  rewrite Heq, (parse_call_args _ _ _ Ht0), <- Heq.
  rewrite (parse_args_list s r tss xs Hall Hne) by lia.
  cbn [mbind res_bind rbind app].
  replace (S (S (S (4 * List.length (arg_list (Token COMMA s) tss) + 19))))
    with (S (4 * List.length (arg_list (Token COMMA s) tss) + 21)) by lia.
  rewrite parse_loop_nil. cbn [mbind res_bind rbind].
  destruct Hall; done.
Qed.

Lemma filter_arguments_follow_the_operand_witness :
  parse (Token NAME "x" :: Token PIPE "|" :: Token NAME "add"
           :: Token LPAREN "("
           :: arg_list (Token COMMA ",") [[Token NUMBER "1"]]
           ++ [Token RPAREN ")"])
  = Ok (build_call (get_filter_func (get_lookup_name [Str "add"]))
          [name_NAME (Token NAME "x"); Num (NInt 1)] []).
Proof.
  apply (filter_arguments_follow_the_operand (Token NAME "x")
           (name_NAME (Token NAME "x")) [[Token NUMBER "1"]] [Num (NInt 1)]
           "|" "add" "(" "," ")").
  - reflexivity.
  - constructor; [by vm_compute|constructor].
  - discriminate.
Defined.

End GrammarFacts.

Lemma join_strs_concat sep l :
  l <> [] -> join_strs sep (map VStr l) = Ok (String.concat sep l).
Proof.
  induction l as [|s l IH]; [done|]. intros _.
  destruct l as [|s' l]; [done|].
  change (join_strs sep (map VStr (s :: s' :: l)))
    with (r ← join_strs sep (map VStr (s' :: l)); Ok (s +:+ sep +:+ r)).
  by rewrite IH.
Qed.

Lemma eval_args_strs g ctx l : eval_args g ctx (map Str l) = Ok (map VStr l).
Proof.
  induction l as [|s l IH]; [done|]. cbn [map eval_args eval].
  cbn [mbind res_bind rbind]. fold (eval_args g ctx). by rewrite IH.
Qed.

(** The name of a filter, joined from its parts at run time. *)
Lemma eval_lookup_name g ctx l :
  l <> [] ->
  eval g ctx (get_lookup_name (map Str l)) = Ok (VStr (String.concat "." l)).
Proof.
  intros Hl. unfold get_lookup_name, build_call. rewrite eval_call.
  cbn [eval mbind res_bind rbind].
  change (getattr (VStr ".") "join") with (Ok (VBuiltin (BJoin "."))).
  cbn [mbind res_bind rbind eval_args eval eval_kwargs].
  fold (eval_args g ctx). rewrite eval_args_strs.
  cbn [mbind res_bind rbind call]. by rewrite join_strs_concat.
Qed.

(** X25. The name of a filter may have several parts: [a | n.n1.n2]
    is the call of one filter on [a], whose name is joined from the parts
    with dots when the template is rendered; the filter is looked up under
    that one key, and a name that the table lacks raises a KeyError with
    it. *)
Theorem filter_name_is_joined_with_dots
    (g : globals) (ctx : gmap string value) (t : ExprParser.token) (a : expr)
    (p n d : string) (ns : list string) :
  ExprParser.literal t = Ok a ->
  ExprParser.parse
    (t :: ExprParser.Token ExprParser.PIPE p
       :: ExprParser.Token ExprParser.NAME n :: GrammarSpec.dotted d ns)
  = Ok (build_call (get_filter_func (get_lookup_name (map Str (n :: ns))))
          [a] [])
  ∧ eval g ctx (get_filter_func (get_lookup_name (map Str (n :: ns))))
    = match filters g (String.concat "." (n :: ns)) with
      | Some _ => Ok (VBuiltin (BFilter (String.concat "." (n :: ns))))
      | None => Err (KeyError (String.concat "." (n :: ns)))
      end.
Proof.
  intros Ha. split.
  - unfold ExprParser.parse. cbn [List.length].
    rewrite GrammarFacts.length_dotted.
    replace (4 * S (S (S (2 * List.length ns))) + 4)%nat
      with (S (S (S (8 * List.length ns + 13)))) by lia.
    rewrite (GrammarFacts.parse_expr_literal _ _ _ _ _ Ha).
    rewrite GrammarFacts.parse_loop_pipe.
    rewrite GrammarFacts.parse_filter_dotted by lia.
    cbn [mbind res_bind rbind].
    replace (S (8 * List.length ns + 13))
      with (S (S (8 * List.length ns + 12))) by lia.
    by rewrite GrammarFacts.parse_loop_nil.
  - unfold get_filter_func. cbn [eval]. rewrite lookup_global_filters.
    cbn [mbind res_bind rbind]. rewrite eval_lookup_name by done.
    cbn [mbind res_bind rbind getitem].
    by destruct (filters g (String.concat "." (n :: ns))).
Qed.

Lemma filter_name_is_joined_with_dots_witness :
  ExprParser.parse
    (ExprParser.Token ExprParser.NAME "x"
       :: ExprParser.Token ExprParser.PIPE "|"
       :: ExprParser.Token ExprParser.NAME "text"
       :: GrammarSpec.dotted "." ["upper"])
  = Ok (build_call
          (get_filter_func (get_lookup_name (map Str ["text"; "upper"])))
          [Subscript (Name "context") (Str "x")] [])
  ∧ eval host ∅
      (get_filter_func (get_lookup_name (map Str ["text"; "upper"])))
    = match filters host (String.concat "." ["text"; "upper"]) with
      | Some _ =>
          Ok (VBuiltin (BFilter (String.concat "." ["text"; "upper"])))
      | None => Err (KeyError (String.concat "." ["text"; "upper"]))
      end.
Proof.
  apply (filter_name_is_joined_with_dots host ∅
           (ExprParser.Token ExprParser.NAME "x")).
  reflexivity.
Defined.

